(** * Reindeer maze solver (day 16): a shallow embedding of [16/main.cpp]

    The program loads a rectangular maze from a text file, runs a
    best-first search from the start tile to the end tile where a step
    costs 1 when it continues the current facing and 1001 otherwise,
    marks the parent chain of the end tile, and renders the grid.

    Conventions of the embedding:
    - C++ [int] values are modelled as [Z]; signed overflow is undefined
      behaviour in C++, and the costs of a maze with N tiles are at most
      1001 * N (lemma [search_g_bound]), so no wrap-around is modelled.
    - indices into the flat tile array ([start_idx], [p_idx], entries of
      the priority queue) are [nat]; the sentinel [-1] of [start_idx] and
      [end_idx] is [None].
    - [dir_e] is an [unsigned char]; it is modelled by its numeric value
      so that the masking in [tile_to_char] and the bit-or of the path
      walk can be written with [Z.lxor], [Z.land] and [Z.lor].
    - [std::priority_queue] is modelled by what it does to its vector:
      [push_back] and [std::push_heap], [front], [std::pop_heap] and
      [pop_back], the two heap functions as the standard library of GCC
      writes them ([bits/stl_heap.h]).
    - the stopwatch reading, the readability of the input file and the
      fate of the write to the output file are inputs of the model;
      [maze_t::unload] only frees the array and is not modelled. *)

From Stdlib Require Import ZArith String Ascii List Lia ZifyNat Bool DecimalString.
From stdpp Require Import base tactics option list.

Local Open Scope string_scope.
Local Open Scope list_scope.
Local Open Scope Z_scope.

(** ** Data model *)

Inductive tile_e := t_invalid | t_empty | t_wall | t_start | t_end.

Definition tile_e_eqb (a b : tile_e) : bool :=
  match a, b with
  | t_invalid, t_invalid | t_empty, t_empty | t_wall, t_wall
  | t_start, t_start | t_end, t_end => true
  | _, _ => false
  end.

(** [enum struct dir_e : u8 { n, s, e, w, none, path = 0xF0 }] *)
Definition dir_n : Z := 0.
Definition dir_s : Z := 1.
Definition dir_e : Z := 2.
Definition dir_w : Z := 3.
Definition dir_none : Z := 4.
Definition dir_path : Z := 240.

Record ivec2 := mk_ivec2 { vx : Z; vy : Z }.

Definition ivec2_add (a b : ivec2) : ivec2 := mk_ivec2 (vx a + vx b) (vy a + vy b).
Definition ivec2_sub (a b : ivec2) : ivec2 := mk_ivec2 (vx a - vx b) (vy a - vy b).

(** [state_t::moves], indexed by the numeric value of a direction. *)
Definition moves (d : Z) : ivec2 :=
  if d =? 0 then mk_ivec2 0 (-1)
  else if d =? 1 then mk_ivec2 0 1
  else if d =? 2 then mk_ivec2 1 0
  else mk_ivec2 (-1) 0.

Record state_t := mk_state { dir : Z; g_cost : Z; h_cost : Z; p_idx : nat }.

Definition f_cost (s : state_t) : Z := g_cost s + h_cost s.

(** [state_t::operator>] *)
Definition state_gt (s o : state_t) : bool :=
  if f_cost s =? f_cost o then h_cost o <? h_cost s
  else f_cost o <? f_cost s.

Definition state_reset : state_t := mk_state dir_none 0 0 0.

Record tile_t := mk_tile { type : tile_e; pos : ivec2; state : state_t }.

Record maze_t := mk_maze {
  m_size : ivec2;
  m_map : list tile_t;
  solve_time : Z;
  search_count : Z;
  path_cost : Z
}.

(** [maze_t::idx] *)
Definition idx (sz : ivec2) (x y : Z) : nat := Z.to_nat (y * vx sz + x).

(** ** Characters and tiles *)

Definition char_to_tile (c : ascii) : tile_e :=
  if Ascii.eqb c "." then t_empty
  else if Ascii.eqb c "#" then t_wall
  else if Ascii.eqb c "S" then t_start
  else if Ascii.eqb c "E" then t_end
  else t_invalid.

Definition tile_to_char (t : tile_t) : ascii :=
  let masked_dir := Z.lxor (dir (state t)) dir_path in
  let is_path := 0 <? Z.land (dir (state t)) dir_path in
  if is_path && negb (tile_e_eqb (type t) t_start) && negb (tile_e_eqb (type t) t_end)
  then
    if masked_dir =? dir_n then "^"%char
    else if masked_dir =? dir_s then "v"%char
    else if masked_dir =? dir_e then ">"%char
    else if masked_dir =? dir_w then "<"%char
    else "?"%char
  else
    match type t with
    | t_empty => "."%char
    | t_wall => "#"%char
    | t_start => "S"%char
    | t_end => "E"%char
    | t_invalid => "?"%char
    end.

(** ** Heuristic *)

Definition heuristic (a b : tile_t) : Z :=
  let manhattan_dist :=
    Z.abs (vx (pos a) - vx (pos b)) + Z.abs (vy (pos a) - vy (pos b)) in
  let is_straight_path :=
    (vx (pos a) =? vx (pos b)) || (vy (pos a) =? vy (pos b)) in
  let desired_dir :=
    if vx (pos a) <? vx (pos b) then dir_e
    else if vx (pos b) <? vx (pos a) then dir_w
    else if vy (pos a) <? vy (pos b) then dir_s
    else dir_n in
  let rotation_cost := if negb (dir (state a) =? desired_dir) then 1000 else 0 in
  let rotation_cost := if negb is_straight_path then rotation_cost + 1000 else rotation_cost in
  manhattan_dist + rotation_cost.

(** ** Reading and loading *)

Inductive exn :=
| runtime_error (msg : string)
| invalid_argument (msg : string).

Definition what (e : exn) : string :=
  match e with runtime_error m => m | invalid_argument m => m end.

Definition newline : ascii := ascii_of_nat 10.

(** [std::getline] in a loop: the text is cut at every newline; a last
    piece with no newline after it is a line as well. *)
Fixpoint split_lines (cur : list ascii) (s : list ascii) : list (list ascii) :=
  match s with
  | [] => [rev cur]
  | c :: rest =>
      if Ascii.eqb c newline then rev cur :: split_lines [] rest
      else split_lines (c :: cur) rest
  end.

Definition nonempty_line (l : list ascii) : bool :=
  match l with [] => false | _ => true end.

(** [util::read_file]; [None] is a file that cannot be opened. *)
Definition read_file (file : option string) : exn + list (list ascii) :=
  match file with
  | None => inl (runtime_error "Failed to open file.")
  | Some text =>
      let lines := filter (fun l => nonempty_line l = true)
                          (split_lines [] (list_ascii_of_string text)) in
      match lines with
      | [] => inl (runtime_error "File is empty.")
      | _ => inr lines
      end
  end.

(** The two nested loops of [maze_t::load]: tiles are built in row-major
    order and the first invalid character aborts. *)
Fixpoint load_row (y x : Z) (cs : list ascii) : option (list tile_t) :=
  match cs with
  | [] => Some []
  | c :: rest =>
      let t := mk_tile (char_to_tile c) (mk_ivec2 x y) (mk_state dir_none 0 0 0) in
      if tile_e_eqb (type t) t_invalid then None
      else match load_row y (x + 1) rest with
           | Some ts => Some (t :: ts)
           | None => None
           end
  end.

Fixpoint load_rows (y : Z) (lines : list (list ascii)) : option (list tile_t) :=
  match lines with
  | [] => Some []
  | l :: rest =>
      match load_row y 0 l with
      | None => None
      | Some ts =>
          match load_rows (y + 1) rest with
          | Some tss => Some (ts ++ tss)
          | None => None
          end
      end
  end.

Definition row_width (lines : list (list ascii)) : nat :=
  match lines with [] => 0%nat | l :: _ => length l end.

Definition load_lines (lines : list (list ascii)) : exn + maze_t :=
  let size_y := Z.of_nat (length lines) in
  let size_x := Z.of_nat (row_width lines) in
  if negb (forallb (fun l => Nat.eqb (length l) (row_width lines)) lines)
  then inl (runtime_error "Inconsistent row lengths in maze file.")
  else match load_rows 0 lines with
       | None => inl (invalid_argument "Invalid character in maze file.")
       | Some tiles => inr (mk_maze (mk_ivec2 size_x size_y) tiles 0 0 0)
       end.

(** [maze_t::load] *)
Definition load (file : option string) : exn + maze_t :=
  match read_file file with
  | inl e => inl e
  | inr lines => load_lines lines
  end.

(** ** Search *)

Definition default_tile : tile_t := mk_tile t_empty (mk_ivec2 0 0) (mk_state dir_none 0 0 0).

(** [map[i]]; every index the program uses is in range for a loaded maze
    (an access out of range is undefined behaviour in C++). *)
Definition tile_at (tiles : list tile_t) (i : nat) : tile_t :=
  default default_tile (tiles !! i).

Definition set_state (t : tile_t) (s : state_t) : tile_t := mk_tile (type t) (pos t) s.

(** The first loop of [maze_t::solve]: every state is reset, and
    [start_idx] and [end_idx] are overwritten at every start and end tile
    the scan meets. *)
Fixpoint locate (i : nat) (tiles : list tile_t) (start_idx end_idx : option nat)
  : list tile_t * (option nat * option nat) :=
  match tiles with
  | [] => ([], (start_idx, end_idx))
  | t :: rest =>
      let t' := set_state t state_reset in
      let start_idx := if tile_e_eqb (type t) t_start then Some i else start_idx in
      let end_idx := if tile_e_eqb (type t) t_end then Some i else end_idx in
      let '(rest', r) := locate (S i) rest start_idx end_idx in
      (t' :: rest', r)
  end.

Record search_t := mk_search { s_map : list tile_t; s_pq : list nat; s_count : Z }.

(** What a run of a possibly non-terminating, possibly throwing function
    gives: [Diverges] is the model running out of fuel. *)
Inductive run (A : Type) :=
| Returns (a : A)
| Throws (e : exn)
| Diverges.
Arguments Returns {A} a.
Arguments Throws {A} e.
Arguments Diverges {A}.

Section Search.
(** The heuristic and the discipline of the priority queue are
    parameters of the engine, so that what does not depend on them can
    be stated for all of them. The queue compares its entries by the
    states of their tiles, so both operations read the array:
    [push tiles q n] is the queue [q] after [pq.push(n)], and
    [pop tiles x xs] takes the top of the non-empty queue [x :: xs] and
    returns it with the rest. *)
Variable hfun : tile_t -> tile_t -> Z.
Variable push : list tile_t -> list nat -> nat -> list nat.
Variable pop : list tile_t -> nat -> list nat -> nat * list nat.
Variable sz : ivec2.
Variables start_idx end_idx : nat.

(** One round of the loop over [move_dir]. *)
Definition explore (current_idx : nat) (st : search_t) (move_dir : Z) : search_t :=
  let current := tile_at (s_map st) current_idx in
  let n := ivec2_add (pos current) (moves move_dir) in
  if (vx n <? 0) || (vx sz <=? vx n) || (vy n <? 0) || (vy sz <=? vy n) then st
  else
    let neighbor_idx := idx sz (vx n) (vy n) in
    let neighbor := tile_at (s_map st) neighbor_idx in
    if tile_e_eqb (type neighbor) t_wall then st
    else
      let move_cost := if negb (dir (state current) =? move_dir) then 1001 else 1 in
      let g := g_cost (state current) + move_cost in
      if (g_cost (state neighbor) =? 0) || (g <? g_cost (state neighbor)) then
        let nb := set_state neighbor
                    (mk_state move_dir g (h_cost (state neighbor)) (p_idx (state neighbor))) in
        let tiles := <[neighbor_idx := nb]> (s_map st) in
        let h := hfun nb (tile_at tiles end_idx) in
        let nb := set_state nb (mk_state move_dir g h current_idx) in
        let tiles := <[neighbor_idx := nb]> tiles in
        mk_search tiles (push tiles (s_pq st) neighbor_idx) (s_count st + 1)
      else st.

Definition expand (current_idx : nat) (st : search_t) : search_t :=
  fold_left (explore current_idx) [0; 1; 2; 3] st.

(** The [while (!pq.empty())] loop; the result is the final state with
    the value of [path_cost], [-1] when the queue ran empty. *)
Fixpoint search_loop (fuel : nat) (st : search_t) : option (search_t * Z) :=
  match fuel with
  | O => None
  | S fuel' =>
      match s_pq st with
      | [] => Some (st, -1)
      | x :: xs =>
          let '(current_idx, rest) := pop (s_map st) x xs in
          let st := mk_search (s_map st) rest (s_count st) in
          if Nat.eqb current_idx end_idx
          then Some (st, g_cost (state (tile_at (s_map st) current_idx)))
          else search_loop fuel' (expand current_idx st)
      end
  end.

(** The state at the head of the loop after [n] rounds, when the loop
    has not ended before. *)
Fixpoint search_rounds (n : nat) (st : search_t) : option search_t :=
  match n with
  | O => Some st
  | S n' =>
      match s_pq st with
      | [] => None
      | x :: xs =>
          let '(current_idx, rest) := pop (s_map st) x xs in
          let st := mk_search (s_map st) rest (s_count st) in
          if Nat.eqb current_idx end_idx then None
          else search_rounds n' (expand current_idx st)
      end
  end.

(** The walk over the parent indices that marks the path. *)
Fixpoint mark_path (fuel : nat) (tiles : list tile_t) (curr_idx : nat) : option (list tile_t) :=
  match fuel with
  | O => None
  | S fuel' =>
      let t := tile_at tiles curr_idx in
      let s := state t in
      let tiles := <[curr_idx := set_state t
                       (mk_state (Z.lor (dir s) dir_path) (g_cost s) (h_cost s) (p_idx s))]> tiles in
      let curr_idx := p_idx s in
      if Nat.eqb curr_idx start_idx then Some tiles
      else mark_path fuel' tiles curr_idx
  end.

(** The state the search starts from: the start tile faces east and is
    the only entry of the queue (a push onto the empty queue);
    [search_count] is 1. *)
Definition search_init (tiles : list tile_t) : search_t :=
  let s := state (tile_at tiles start_idx) in
  mk_search
    (<[start_idx := set_state (tile_at tiles start_idx)
                      (mk_state dir_e (g_cost s) (h_cost s) (p_idx s))]> tiles)
    [start_idx] 1.
End Search.

Definition config_error : exn :=
  runtime_error "Maze must have a start (S) and an end (E).".

(** The line [solve] writes to the error stream when the queue runs empty. *)
Definition no_path_line : string :=
  String.append "No path found to the goal." (String newline "").

(** [maze_t::solve], for a heuristic, a queue discipline, an amount of
    fuel and the reading of the stopwatch. The result carries the text
    written to the error stream. *)
Definition solve_with (hfun : tile_t -> tile_t -> Z)
    (push : list tile_t -> list nat -> nat -> list nat)
    (pop : list tile_t -> nat -> list nat -> nat * list nat)
    (fuel : nat) (elapsed_ms : Z) (m : maze_t) : run (maze_t * string) :=
  match locate 0 (m_map m) None None with
  | (tiles, (Some start_idx, Some end_idx)) =>
      match search_loop hfun push pop (m_size m) end_idx fuel (search_init start_idx tiles) with
      | None => Diverges
      | Some (st, cost) =>
          if cost =? -1 then
            Returns (mk_maze (m_size m) (s_map st) elapsed_ms (s_count st) cost, no_path_line)
          else
            match mark_path start_idx fuel (s_map st) end_idx with
            | None => Diverges
            | Some tiles' =>
                Returns (mk_maze (m_size m) tiles' elapsed_ms (s_count st) cost, "")
            end
      end
  | _ => Throws config_error
  end.

(** ** The priority queue of the program

    [std::priority_queue<int, std::vector<int>, decltype(priority_fn)>]
    keeps its entries in a vector arranged as a binary heap, with
    [std::push_heap] and [std::pop_heap] as the standard library of GCC
    writes them. The comparison is [priority_fn]: it reads the states of
    the tiles at the time of the call, and the states of queued tiles
    change while they are queued (a tile is relaxed again), so the
    vector need not be a heap of the current states and the top need not
    be a least entry. *)
Definition priority_fn (tiles : list tile_t) (a b : nat) : bool :=
  state_gt (state (tile_at tiles a)) (state (tile_at tiles b)).

(** [std::__push_heap]: the hole moves up while it is below [topIndex]
    and its parent compares before [value]; then [value] goes into the
    hole. The hole halves at every round, so [fuel] rounds are enough
    when [holeIndex <= fuel]. *)
Fixpoint push_heap (tiles : list tile_t) (fuel : nat) (first : list nat)
    (holeIndex topIndex value : nat) : list nat :=
  let parent := ((holeIndex - 1) / 2)%nat in
  match fuel with
  | O => <[holeIndex := value]> first
  | S fuel' =>
      if (topIndex <? holeIndex)%nat && priority_fn tiles (nth parent first 0%nat) value
      then push_heap tiles fuel' (<[holeIndex := nth parent first 0%nat]> first)
             parent topIndex value
      else <[holeIndex := value]> first
  end.

(** The first loop of [std::__adjust_heap]: the hole moves down to the
    child that does not compare before the other one, as long as it has
    two children. The result is the vector and the hole. *)
Fixpoint adjust_down (tiles : list tile_t) (fuel : nat) (first : list nat)
    (holeIndex len : nat) : list nat * nat :=
  match fuel with
  | O => (first, holeIndex)
  | S fuel' =>
      if (holeIndex <? (len - 1) / 2)%nat then
        let secondChild := (2 * (holeIndex + 1))%nat in
        let secondChild :=
          if priority_fn tiles (nth secondChild first 0%nat) (nth (secondChild - 1) first 0%nat)
          then (secondChild - 1)%nat else secondChild in
        adjust_down tiles fuel' (<[holeIndex := nth secondChild first 0%nat]> first)
          secondChild len
      else (first, holeIndex)
  end.

(** [std::__adjust_heap] from the hole [0]: down along the children, one
    more step when the last inner entry has a single child, then
    [std::__push_heap] from where the hole has arrived. *)
Definition adjust_heap (tiles : list tile_t) (first : list nat) (len value : nat) : list nat :=
  let '(first, holeIndex) := adjust_down tiles len first 0 len in
  let '(first, holeIndex) :=
    if Nat.even len && Nat.eqb holeIndex ((len - 2) / 2)
    then let secondChild := (2 * (holeIndex + 1))%nat in
         (<[holeIndex := nth (secondChild - 1) first 0%nat]> first, (secondChild - 1)%nat)
    else (first, holeIndex) in
  push_heap tiles holeIndex first holeIndex 0 value.

(** [pq.push(n)]: [c.push_back(n)], then [std::push_heap] over the whole
    vector. *)
Definition pq_push (tiles : list tile_t) (q : list nat) (n : nat) : list nat :=
  push_heap tiles (length q) (q ++ [n]) (length q) 0 n.

(** [pq.top()] followed by [pq.pop()]: the top is the front of the
    vector; [std::pop_heap] does nothing to a vector of one entry, and
    otherwise moves the front to the back and lets the former last entry
    find its place from the root in the vector without its back;
    [c.pop_back()] then drops the back. *)
Definition pq_pop (tiles : list tile_t) (x : nat) (xs : list nat) : nat * list nat :=
  match xs with
  | [] => (x, [])
  | _ :: _ => (x, adjust_heap tiles (removelast (x :: xs)) (length xs) (List.last xs 0%nat))
  end.

(** [std::is_heap] with [priority_fn] for the states of [tiles]: no
    parent compares before its child. *)
Definition is_heap (tiles : list tile_t) (first : list nat) : Prop :=
  forall i, (0 < i < length first)%nat ->
    priority_fn tiles (nth ((i - 1) / 2) first 0%nat) (nth i first 0%nat) = false.

(** What holds of a heap while a hole moves through it: the order
    wherever the hole is not involved, and the children of the hole are
    not before the parent of the hole. *)
Definition hole_inv (tiles : list tile_t) (first : list nat) (hole : nat) : Prop :=
  (forall i, (0 < i < length first)%nat -> i <> hole -> ((i - 1) / 2)%nat <> hole ->
     priority_fn tiles (nth ((i - 1) / 2) first 0%nat) (nth i first 0%nat) = false)
  /\ (forall i, (0 < i < length first)%nat -> ((i - 1) / 2)%nat = hole -> (0 < hole)%nat ->
        priority_fn tiles (nth ((hole - 1) / 2) first 0%nat) (nth i first 0%nat) = false).

(** On the way up the value is not before the children of the hole. *)
Definition value_inv (tiles : list tile_t) (first : list nat) (hole value : nat) : Prop :=
  forall i, (0 < i < length first)%nat -> ((i - 1) / 2)%nat = hole ->
    priority_fn tiles value (nth i first 0%nat) = false.

(** A queue discipline keeps the queued entries: a push adds the entry
    and nothing else, *)
Definition push_ok (push : list tile_t -> list nat -> nat -> list nat) : Prop :=
  forall tiles q n, Permutation (n :: q) (push tiles q n).

(** and a pop hands out one of the queued entries and keeps the others. *)
Definition pop_ok (pop : list tile_t -> nat -> list nat -> nat * list nat) : Prop :=
  forall tiles x xs, Permutation (x :: xs) (fst (pop tiles x xs) :: snd (pop tiles x xs)).

(** Enough rounds for a maze of [n] tiles: the measure of the first
    state of the search is [n * (1001 * n + 1) + 1]. *)
Definition search_fuel (n : nat) : nat := n * (1001 * n + 1) + 2.

Definition solve (elapsed_ms : Z) (m : maze_t) : run (maze_t * string) :=
  solve_with heuristic pq_push pq_pop (search_fuel (length (m_map m))) elapsed_ms m.

(** ** Rendering *)

Definition string_of_Z (z : Z) : string := NilZero.string_of_int (Z.to_int z).

Definition endl : string := String newline "".

(** The three lines [maze_t::print] starts with. *)
Definition dimensions_line (m : maze_t) : string :=
  ("Dimensions: " ++ string_of_Z (vx (m_size m)) ++ " x " ++ string_of_Z (vy (m_size m)) ++ endl)%string.

Definition solved_line (m : maze_t) : string :=
  ("Solved in: " ++ string_of_Z (solve_time m) ++ " ms. Search count: "
   ++ string_of_Z (search_count m) ++ endl)%string.

Definition cost_line (m : maze_t) : string :=
  ("Best path cost " ++ string_of_Z (path_cost m) ++ " points" ++ endl)%string.

Definition summary (m : maze_t) : string :=
  (dimensions_line m ++ solved_line m ++ cost_line m)%string.

(** The rows of the grid as [maze_t::print] walks them. *)
Definition render_row (m : maze_t) (y : nat) : list ascii :=
  List.map (fun x => tile_to_char (tile_at (m_map m) (idx (m_size m) (Z.of_nat x) (Z.of_nat y))))
           (seq 0 (Z.to_nat (vx (m_size m)))).

Definition render_rows (m : maze_t) : list (list ascii) :=
  List.map (render_row m) (seq 0 (Z.to_nat (vy (m_size m)))).

(** Rows as text: every row is followed by a newline. *)
Definition grid_text (rows : list (list ascii)) : string :=
  string_of_list_ascii (concat (List.map (fun r => r ++ [newline]) rows)).

Definition render_grid (m : maze_t) : string := grid_text (render_rows m).

(** What [util::write_file] meets. The file is written; or it cannot be
    opened; or the device refuses the text, and then what the function
    sees depends on the stream: [write_fails] when the insertion
    [file << text] itself leaves the stream in a failed state, and
    [write_lost] when the insertion only fills the buffer of the stream
    (a short text), the test [!file] that follows it passes, and the
    text is refused when the stream is closed, where nothing looks at
    it. *)
Inductive file_access := writes_ok | open_fails | write_fails | write_lost.

(** [maze_t::print]: the text for the console and, unless
    [util::write_file] throws, the content of the output file when the
    stream is gone: the whole text, or nothing of it when the write was
    lost. *)
Definition print (access : file_access) (m : maze_t) : string * (exn + option string) :=
  (summary m,
   match access with
   | writes_ok => inr (Some (String.append (summary m) (render_grid m)))
   | open_fails => inl (runtime_error "Failed to open file for writing.")
   | write_fails => inl (runtime_error "Failed to write to file.")
   | write_lost => inr None
   end).

(** ** The program *)

Record process := mk_process {
  exit_code : Z;
  std_out : string;
  std_err : string;
  output_file : option string
}.

Definition error_line (e : exn) : string := ("Error: " ++ what e ++ endl)%string.

(** The end of [main] once [solve] has returned: [print], then the exit. *)
Definition finish (access : file_access) (r : maze_t * string) : process :=
  let '(m, err) := r in
  match print access m with
  | (console, inr file) => mk_process 0 console err file
  | (console, inl e) => mk_process 1 console (String.append err (error_line e)) None
  end.

(** [main], for a run of [solve] with the given fuel. *)
Definition main_with (fuel : nat -> nat) (input : option string) (access : file_access)
    (elapsed_ms : Z) : option process :=
  match load input with
  | inl e => Some (mk_process 1 "" (error_line e) None)
  | inr m =>
      match solve_with heuristic pq_push pq_pop (fuel (length (m_map m))) elapsed_ms m with
      | Diverges => None
      | Throws e => Some (mk_process 1 "" (error_line e) None)
      | Returns r => Some (finish access r)
      end
  end.

Definition main := main_with search_fuel.

(** ** The heuristic in the words of its description *)

(** East if B is strictly right of A, else west if strictly left, else
    south if strictly below, else north. *)
Definition desired_direction (a b : ivec2) : Z :=
  if decide (vx a < vx b) then dir_e
  else if decide (vx b < vx a) then dir_w
  else if decide (vy a < vy b) then dir_s
  else dir_n.

Definition heuristic_spec (a b : tile_t) : Z :=
  Z.abs (vx (pos a) - vx (pos b)) + Z.abs (vy (pos a) - vy (pos b))
  + (if decide (dir (state a) = desired_direction (pos a) (pos b)) then 0 else 1000)
  + (if decide (vx (pos a) <> vx (pos b) /\ vy (pos a) <> vy (pos b)) then 1000 else 0).

(** ** What makes [load] fail, in the words of its description *)

Definition allowed_char (c : ascii) : Prop :=
  c = "."%char \/ c = "#"%char \/ c = "S"%char \/ c = "E"%char.

(** The lines that are left when the blank ones are dropped. *)
Definition usable_lines (text : string) : list (list ascii) :=
  filter (fun l => nonempty_line l = true) (split_lines [] (list_ascii_of_string text)).

Definition inconsistent_rows (lines : list (list ascii)) : Prop :=
  exists l, In l lines /\ length l <> row_width lines.

Definition has_foreign_char (lines : list (list ascii)) : Prop :=
  exists l c, In l lines /\ In c l /\ ~ allowed_char c.

Definition load_must_fail (file : option string) : Prop :=
  match file with
  | None => True
  | Some text =>
      usable_lines text = []
      \/ inconsistent_rows (usable_lines text)
      \/ has_foreign_char (usable_lines text)
  end.

(** ** One step of the search, seen from the grid *)

(** The tile a move from [c] in direction [d] steps onto: [None] when the
    position is out of bounds or a wall. *)
Definition step_to (sz : ivec2) (tiles : list tile_t) (c : nat) (d : Z) : option nat :=
  let n := ivec2_add (pos (tile_at tiles c)) (moves d) in
  if (vx n <? 0) || (vx sz <=? vx n) || (vy n <? 0) || (vy sz <=? vy n) then None
  else
    let neighbor_idx := idx sz (vx n) (vy n) in
    if tile_e_eqb (type (tile_at tiles neighbor_idx)) t_wall then None
    else Some neighbor_idx.

(** The array after tile [n] has been relaxed from [c] by a move in
    direction [d]. *)
Definition relax (hfun : tile_t -> tile_t -> Z) (end_idx c : nat) (d : Z) (n : nat)
    (tiles : list tile_t) : list tile_t :=
  let current := tile_at tiles c in
  let neighbor := tile_at tiles n in
  let g := g_cost (state current) + (if negb (dir (state current) =? d) then 1001 else 1) in
  let nb := set_state neighbor (mk_state d g (h_cost (state neighbor)) (p_idx (state neighbor))) in
  let tiles1 := <[n := nb]> tiles in
  <[n := set_state nb (mk_state d g (hfun nb (tile_at tiles1 end_idx)) c)]> tiles1.

(** The candidate cost of the move. *)
Definition candidate (tiles : list tile_t) (c : nat) (d : Z) : Z :=
  g_cost (state (tile_at tiles c))
  + (if decide (dir (state (tile_at tiles c)) = d) then 1 else 1001).

Definition improves (tiles : list tile_t) (c : nat) (d : Z) (n : nat) : bool :=
  (g_cost (state (tile_at tiles n)) =? 0)
  || (candidate tiles c d <? g_cost (state (tile_at tiles n))).

(** Accessors on the array. *)
Definition G (tiles : list tile_t) (i : nat) : Z := g_cost (state (tile_at tiles i)).
Definition D (tiles : list tile_t) (i : nat) : Z := dir (state (tile_at tiles i)).
Definition P (tiles : list tile_t) (i : nat) : nat := p_idx (state (tile_at tiles i)).


(** ** Grids and walks *)

(** What [load] guarantees about the array: it has one tile per
    position, stored row by row. *)
Definition grid_ok (sz : ivec2) (tiles : list tile_t) : Prop :=
  0 < vx sz /\ 0 < vy sz
  /\ length tiles = Z.to_nat (vx sz * vy sz)
  /\ forall i, (i < length tiles)%nat ->
       pos (tile_at tiles i) = mk_ivec2 (Z.of_nat i mod vx sz) (Z.of_nat i / vx sz).

Definition valid_dir (d : Z) : Prop := 0 <= d <= 3.

(** The tile reached from [c] by the moves [ds], when every move stays
    in bounds and off the walls. *)
Fixpoint follow (sz : ivec2) (tiles : list tile_t) (c : nat) (ds : list Z) : option nat :=
  match ds with
  | [] => Some c
  | d :: ds' =>
      match step_to sz tiles c d with
      | Some n => follow sz tiles n ds'
      | None => None
      end
  end.

(** The tiles the moves [ds] visit from [c], [c] included. *)
Fixpoint visits (sz : ivec2) (tiles : list tile_t) (c : nat) (ds : list Z) : list nat :=
  c :: match ds with
       | [] => []
       | d :: ds' =>
           match step_to sz tiles c d with
           | Some n => visits sz tiles n ds'
           | None => []
           end
       end.

(** The cost of the moves [ds] for a walker that faces [facing]: 1 for a
    move in the direction it faces, 1001 for a move in another one. *)
Fixpoint walk_cost (facing : Z) (ds : list Z) : Z :=
  match ds with
  | [] => 0
  | d :: ds' => (if decide (facing = d) then 1 else 1001) + walk_cost d ds'
  end.

(** The facing of the walker after the moves [ds]. *)
Fixpoint facing_after (facing : Z) (ds : list Z) : Z :=
  match ds with
  | [] => facing
  | d :: ds' => facing_after d ds'
  end.

(** The number of changes of direction along [ds] for a walker that
    faces [facing]. *)
Fixpoint direction_changes (facing : Z) (ds : list Z) : Z :=
  match ds with
  | [] => 0
  | d :: ds' => (if decide (facing = d) then 0 else 1) + direction_changes d ds'
  end.

(** A walk from [a] to [b]. *)
Definition walk (sz : ivec2) (tiles : list tile_t) (a b : nat) (ds : list Z) : Prop :=
  Forall valid_dir ds /\ follow sz tiles a ds = Some b.

(** A route is a walk that visits no tile twice. *)
Definition route (sz : ivec2) (tiles : list tile_t) (a b : nat) (ds : list Z) : Prop :=
  walk sz tiles a b ds /\ NoDup (visits sz tiles a ds).

(** ** Measures for termination *)

Fixpoint sumf (f : Z -> Z) (l : list Z) : Z :=
  match l with
  | [] => 0
  | v :: l' => f v + sumf f l'
  end.

(** 1 for an assigned cost that is at most [t]. *)
Definition ind (t v : Z) : Z := if (0 <? v) && (v <=? t) then 1 else 0.

(** An unassigned cost weighs [b], an assigned one its value. *)
Definition phi (b v : Z) : Z := if v =? 0 then b else v.

Definition gs (tiles : list tile_t) : list Z := (fun t => g_cost (state t)) <$> tiles.

Definition potential (tiles : list tile_t) : Z :=
  sumf (phi (1001 * Z.of_nat (length tiles) + 1)) (gs tiles).

Definition measure (st : search_t) : Z :=
  potential (s_map st) + Z.of_nat (length (s_pq st)).

(** ** The invariant of the search loop

    [tiles0] is the array the search starts from (every state reset);
    [S] is the start index. *)
Record search_inv (sz : ivec2) (S : nat) (tiles0 : list tile_t) (st : search_t) : Prop := {
  inv_len : length (s_map st) = length tiles0;
  inv_type : forall i, type (tile_at (s_map st) i) = type (tile_at tiles0 i);
  inv_pos : forall i, pos (tile_at (s_map st) i) = pos (tile_at tiles0 i);
  (** costs are never negative, facings are directions or [none] *)
  inv_g : forall i, 0 <= G (s_map st) i;
  inv_dir : forall i, D (s_map st) i = dir_none \/ valid_dir (D (s_map st) i);
  (** away from the start, a tile has a cost exactly when it has a facing *)
  inv_gd : forall i, 0 < G (s_map st) i -> valid_dir (D (s_map st) i);
  inv_dg : forall i, i <> S -> valid_dir (D (s_map st) i) -> 0 < G (s_map st) i;
  inv_start : valid_dir (D (s_map st) S);
  (** queued tiles are tiles that were reached *)
  inv_pq : forall x, In x (s_pq st) -> (x < length tiles0)%nat /\ valid_dir (D (s_map st) x);
  (** the parent of a tile is the start or a tile of smaller cost *)
  inv_chain : forall i, i <> S -> 0 < G (s_map st) i ->
      (P (s_map st) i < length tiles0)%nat
      /\ (P (s_map st) i = S
          \/ 0 < G (s_map st) (P (s_map st) i) < G (s_map st) i);
  (** a cost is at most 1001 times the number of costs that are not larger *)
  inv_count : forall i, 0 < G (s_map st) i ->
      G (s_map st) i <= 1001 * sumf (ind (G (s_map st) i)) (gs (s_map st));
  (** the cost and the facing of a reached tile are those of a walk from
      the start over reached tiles *)
  inv_walk : forall i, valid_dir (D (s_map st) i) ->
      exists ds, walk sz tiles0 S i ds
        /\ walk_cost dir_e ds = G (s_map st) i
        /\ facing_after dir_e ds = D (s_map st) i
        /\ forall v, In v (visits sz tiles0 S ds) -> valid_dir (D (s_map st) v)
}.

(** The tile being expanded. *)
Definition current_ok (tiles0 : list tile_t) (c : nat) (st : search_t) : Prop :=
  (c < length tiles0)%nat /\ valid_dir (D (s_map st) c).

(** What the path walk leaves of the array [orig]: only facings change,
    and a facing that changes is that of a tile with a cost, with the
    path bits set. *)
Definition marked_from (orig tiles : list tile_t) : Prop :=
  length tiles = length orig
  /\ forall i, type (tile_at tiles i) = type (tile_at orig i)
       /\ pos (tile_at tiles i) = pos (tile_at orig i)
       /\ G tiles i = G orig i
       /\ P tiles i = P orig i
       /\ (D tiles i = D orig i
           \/ (D tiles i = Z.lor (D orig i) dir_path /\ 0 < G orig i)).

(** ** The scan for the start and the end, in the words used for it *)

(** The last index at or after [i] that holds a tile of type [ty], or
    [acc] when there is none. *)
Fixpoint last_index (ty : tile_e) (i : nat) (tiles : list tile_t) (acc : option nat)
  : option nat :=
  match tiles with
  | [] => acc
  | t :: rest => last_index ty (S i) rest (if tile_e_eqb (type t) ty then Some i else acc)
  end.

(** [k] holds the last tile of type [ty]. *)
Definition last_of (ty : tile_e) (tiles : list tile_t) (k : nat) : Prop :=
  (k < length tiles)%nat /\ type (tile_at tiles k) = ty
  /\ forall j, (k < j < length tiles)%nat -> type (tile_at tiles j) <> ty.

(** [k] holds the first tile of type [ty]. *)
Definition first_of (ty : tile_e) (tiles : list tile_t) (k : nat) : Prop :=
  (k < length tiles)%nat /\ type (tile_at tiles k) = ty
  /\ forall j, (j < k)%nat -> type (tile_at tiles j) <> ty.

Definition has_type (ty : tile_e) (tiles : list tile_t) : Prop :=
  exists t, In t tiles /\ type t = ty.

(** The indices [solve] searches between. *)
Definition start_of (m : maze_t) : option nat := fst (snd (locate 0 (m_map m) None None)).
Definition end_of (m : maze_t) : option nat := snd (snd (locate 0 (m_map m) None None)).

(** ** Reading a rendered grid *)

Definition is_path_glyph (c : ascii) : bool :=
  Ascii.eqb c "^" || Ascii.eqb c "v" || Ascii.eqb c ">" || Ascii.eqb c "<".

(** Every path glyph of a rendered row is replaced by the glyph the
    input has at its place. *)
Fixpoint restore_row (rendered original : list ascii) : list ascii :=
  match rendered, original with
  | r :: rs, o :: os => (if is_path_glyph r then o else r) :: restore_row rs os
  | _, _ => rendered
  end.

Fixpoint restore_rows (rendered original : list (list ascii)) : list (list ascii) :=
  match rendered, original with
  | r :: rs, o :: os => restore_row r o :: restore_rows rs os
  | _, _ => rendered
  end.

(** The maze with another reading of the stopwatch. *)
Definition with_time (t : Z) (m : maze_t) : maze_t :=
  mk_maze (m_size m) (m_map m) t (search_count m) (path_cost m).

(** [prefix p s]: the text [s] starts with [p]; [contains p s]: [p]
    occurs in [s]. *)
Fixpoint contains (p s : string) : bool :=
  String.prefix p s
  || match s with
     | EmptyString => false
     | String _ s' => contains p s'
     end.

(** ** Small mazes to run the program on *)

Definition empty_maze : maze_t := mk_maze (mk_ivec2 0 0) [] 0 0 0.

Definition loaded (text : string) : maze_t :=
  match load (Some text) with inr m => m | inl _ => empty_maze end.

(** A corridor from the start to the end, and the same with a wall in
    the way. *)
Definition corridor_maze : maze_t := Eval vm_compute in loaded "S.E".
Definition walled_maze : maze_t := Eval vm_compute in loaded "S#E".

Definition corridor_start : search_t :=
  Eval vm_compute in search_init 0 (m_map corridor_maze).

Definition corridor_solved : maze_t :=
  Eval vm_compute in
    match solve 0 corridor_maze with Returns (m, _) => m | _ => empty_maze end.

(** ** Mazes with one route, and sequences of moves and turns *)

(** [r] is the only route from [a] to [b]. *)
Definition unique_route (sz : ivec2) (tiles : list tile_t) (a b : nat) (r : list Z) : Prop :=
  route sz tiles a b r /\ forall r', route sz tiles a b r' -> r' = r.

(** The walk [w] from [a] meets [x] at its end only. *)
Definition only_at_end (sz : ivec2) (tiles : list tile_t) (a x : nat) (w : list Z) : Prop :=
  forall i, (i < length w)%nat -> follow sz tiles a (take i w) <> Some x.

(** What the walker of the puzzle can do: one step forward, or a turn of
    90 degrees to its left or to its right. *)
Inductive action := Forward | TurnLeft | TurnRight.

(** Rows grow downwards: turning left from east faces north. *)
Definition turn_left (d : Z) : Z :=
  if d =? dir_e then dir_n else if d =? dir_n then dir_w
  else if d =? dir_w then dir_s else dir_e.

Definition turn_right (d : Z) : Z :=
  if d =? dir_e then dir_s else if d =? dir_s then dir_w
  else if d =? dir_w then dir_n else dir_e.

(** The tile and the facing after the actions, when no step leaves the
    grid or enters a wall. *)
Fixpoint run_actions (sz : ivec2) (tiles : list tile_t) (c : nat) (facing : Z)
    (acts : list action) : option (nat * Z) :=
  match acts with
  | [] => Some (c, facing)
  | Forward :: rest =>
      match step_to sz tiles c facing with
      | Some n => run_actions sz tiles n facing rest
      | None => None
      end
  | TurnLeft :: rest => run_actions sz tiles c (turn_left facing) rest
  | TurnRight :: rest => run_actions sz tiles c (turn_right facing) rest
  end.

(** A step costs 1, a turn 1000. *)
Fixpoint actions_cost (acts : list action) : Z :=
  match acts with
  | [] => 0
  | Forward :: rest => 1 + actions_cost rest
  | _ :: rest => 1000 + actions_cost rest
  end.

(** ** The invariant of the search on a maze with one route

    [r] is the route from [S] to [E]; the tile it reaches after [k]
    moves is [follow sz tiles0 S (take k r)]. [route_inv] holds between
    two rounds of the loop, [route_inv_at c] while [c] is expanded. *)
Record route_inv (sz : ivec2) (S E : nat) (tiles0 : list tile_t) (r : list Z)
    (st : search_t) : Prop := {
  ri_base : search_inv sz S tiles0 st;
  (** a reached tile of the route has the cost and the facing of the route *)
  ri_exact : forall k x, (1 <= k <= length r)%nat ->
      follow sz tiles0 S (take k r) = Some x -> valid_dir (D (s_map st) x) ->
      G (s_map st) x = walk_cost dir_e (take k r)
      /\ D (s_map st) x = facing_after dir_e (take k r);
  ri_zero : G (s_map st) S = 0 -> D (s_map st) S = dir_e;
  (** once anything but the start is reached, or the start is reached
      again, every neighbour of the start is reached *)
  ri_start : (0 < G (s_map st) S \/ exists x, x <> S /\ valid_dir (D (s_map st) x)) ->
      forall d n, valid_dir d -> step_to sz tiles0 S d = Some n -> valid_dir (D (s_map st) n);
  (** a reached tile of the route is queued or its successor is reached *)
  ri_progress : forall k x y, (k < length r)%nat ->
      follow sz tiles0 S (take k r) = Some x ->
      follow sz tiles0 S (take (Datatypes.S k) r) = Some y ->
      valid_dir (D (s_map st) x) ->
      In x (s_pq st) \/ valid_dir (D (s_map st) y);
  ri_end : valid_dir (D (s_map st) E) -> In E (s_pq st)
}.

Record route_inv_at (sz : ivec2) (S E : nat) (tiles0 : list tile_t) (r : list Z)
    (c : nat) (st : search_t) : Prop := {
  ra_base : search_inv sz S tiles0 st;
  ra_cur : current_ok tiles0 c st;
  ra_exact : forall k x, (1 <= k <= length r)%nat ->
      follow sz tiles0 S (take k r) = Some x -> valid_dir (D (s_map st) x) ->
      G (s_map st) x = walk_cost dir_e (take k r)
      /\ D (s_map st) x = facing_after dir_e (take k r);
  ra_zero : G (s_map st) S = 0 -> D (s_map st) S = dir_e;
  ra_start : (forall d n, valid_dir d -> step_to sz tiles0 S d = Some n ->
                valid_dir (D (s_map st) n))
             \/ (c = S /\ G (s_map st) S = 0);
  ra_progress : forall k x y, (k < length r)%nat ->
      follow sz tiles0 S (take k r) = Some x ->
      follow sz tiles0 S (take (Datatypes.S k) r) = Some y ->
      valid_dir (D (s_map st) x) ->
      In x (s_pq st) \/ valid_dir (D (s_map st) y) \/ x = c;
  ra_end : valid_dir (D (s_map st) E) -> In E (s_pq st)
}.

(** A maze whose only route turns once, and a maze with two routes. *)
Definition bend_text : string := String.append "S." (String newline "#E").
Definition bend_maze : maze_t := Eval vm_compute in loaded bend_text.

Definition fork_text : string := String.concat endl [".E"; ".."; ".."; "S#"].
Definition fork_maze : maze_t := Eval vm_compute in loaded fork_text.

(** A maze on which a queued tile is relaxed again. *)
Definition detour_text : string := String.concat endl ["..E"; "..."; "..."; "..#"; "S#."].
Definition detour_maze : maze_t := Eval vm_compute in loaded detour_text.

(** ** Path marks *)

(** The test [is_path] of [tile_to_char]: some path bit of the facing is
    set. *)
Definition is_marked (t : tile_t) : bool := 0 <? Z.land (dir (state t)) dir_path.

(** What one round of the path walk makes of a tile: the path bits are
    set in its facing. *)
Definition mark (t : tile_t) : tile_t :=
  set_state t (mk_state (Z.lor (dir (state t)) dir_path)
                        (g_cost (state t)) (h_cost (state t)) (p_idx (state t))).

(** The glyph of a marked tile whose facing was the direction [d]. *)
Definition arrow (d : Z) : ascii :=
  if d =? dir_n then "^"%char
  else if d =? dir_s then "v"%char
  else if d =? dir_e then ">"%char
  else "<"%char.

(** The tiles the path walk goes over from [curr_idx], in its order: the
    tile, then those of its parent, until the parent is the start. *)
Fixpoint path_tiles (start_idx : nat) (fuel : nat) (tiles : list tile_t) (curr_idx : nat)
  : list nat :=
  match fuel with
  | O => []
  | S fuel' =>
      curr_idx ::
      (if Nat.eqb (P tiles curr_idx) start_idx then []
       else path_tiles start_idx fuel' tiles (P tiles curr_idx))
  end.

(** The Manhattan length of a vector. *)
Definition manhattan (v : ivec2) : Z := Z.abs (vx v) + Z.abs (vy v).

(** The array with every state reset, as the scan of [solve] leaves
    it. *)
Definition reset_all (tiles : list tile_t) : list tile_t :=
  List.map (fun t => set_state t state_reset) tiles.

(** The direction back. *)
Definition opposite (d : Z) : Z :=
  if d =? dir_n then dir_s
  else if d =? dir_s then dir_n
  else if d =? dir_e then dir_w
  else dir_e.

(** ** What the loop of the search keeps besides [search_inv]

    [c] is the tile being expanded, if there is one. *)
Record closed_inv (sz : ivec2) (S E : nat) (tiles0 : list tile_t) (c : option nat)
    (st : search_t) : Prop := {
  cl_base : search_inv sz S tiles0 st;
  cl_cur : forall x, c = Some x -> current_ok tiles0 x st;
  (** the tiles next to a reached tile have a cost, unless the tile is
      still queued or is the one being expanded *)
  cl_closed : forall x d n, valid_dir (D (s_map st) x) -> valid_dir d ->
      step_to sz tiles0 x d = Some n ->
      In x (s_pq st) \/ 0 < G (s_map st) n \/ c = Some x;
  (** the end is queued as soon as it is reached *)
  cl_end : valid_dir (D (s_map st) E) -> In E (s_pq st);
  (** a tile with a cost was entered from its parent by a move in the
      direction it faces *)
  cl_parent : forall i, 0 < G (s_map st) i ->
      step_to sz tiles0 (P (s_map st) i) (D (s_map st) i) = Some i;
  (** a tile that was never reached has the state of the reset *)
  cl_fresh : forall i, D (s_map st) i = dir_none ->
      state (tile_at (s_map st) i) = state_reset;
  (** once a tile was entered from a tile that is not the start, the
      start has a cost, or will have one when the expansion of that tile
      is over *)
  cl_start : forall i, 0 < G (s_map st) i -> i <> S -> P (s_map st) i <> S ->
      0 < G (s_map st) S
      \/ (c = Some (P (s_map st) i)
          /\ exists d, valid_dir d /\ step_to sz tiles0 (P (s_map st) i) d = Some S)
}.
(** * Theorems *)

(** ** Characters *)

Lemma tile_e_eqb_eq a b : tile_e_eqb a b = true <-> a = b.
Proof. destruct a, b; simpl; split; congruence. Qed.

Lemma tile_e_eqb_neq a b : tile_e_eqb a b = false <-> a <> b.
Proof. destruct a, b; simpl; split; congruence. Qed.

Lemma char_to_tile_valid c : char_to_tile c <> t_invalid <-> allowed_char c.
Proof.
  unfold char_to_tile, allowed_char.
  destruct (Ascii.eqb_spec c ".") as [->|H1]; [simpl; intuition congruence|].
  destruct (Ascii.eqb_spec c "#") as [->|H2]; [simpl; intuition congruence|].
  destruct (Ascii.eqb_spec c "S") as [->|H3]; [simpl; intuition congruence|].
  destruct (Ascii.eqb_spec c "E") as [->|H4]; [simpl; intuition congruence|].
  intuition congruence.
Qed.

(** ** C5: the heuristic *)

(** C5. For every current tile A and goal tile B, [heuristic] is the
    Manhattan distance, plus 1000 when the facing of A differs from the
    desired direction (east if B is strictly right of A, else west if
    strictly left, else south if strictly below, else north), plus 1000
    when A and B share neither coordinate. *)
Theorem heuristic_matches_spec (a b : tile_t) : heuristic a b = heuristic_spec a b.
Proof.
  unfold heuristic, heuristic_spec, desired_direction.
  destruct (Z.ltb_spec (vx (pos a)) (vx (pos b)));
    destruct (Z.ltb_spec (vx (pos b)) (vx (pos a)));
    destruct (Z.ltb_spec (vy (pos a)) (vy (pos b)));
    destruct (Z.eqb_spec (vx (pos a)) (vx (pos b)));
    destruct (Z.eqb_spec (vy (pos a)) (vy (pos b)));
    repeat case_decide; simpl; try lia;
    repeat match goal with
           | |- context [?x =? ?y] => destruct (Z.eqb_spec x y)
           end; simpl; lia.
Qed.

(** ** C8: loading *)

Lemma load_row_none y x cs :
  load_row y x cs = None <-> exists c, In c cs /\ ~ allowed_char c.
Proof.
  revert x. induction cs as [|c cs IH]; intros x; simpl.
  - split; [discriminate | intros (c & [] & _)].
  - destruct (tile_e_eqb (char_to_tile c) t_invalid) eqn:E.
    + apply tile_e_eqb_eq in E. split; [intros _ | reflexivity].
      exists c. split; [now left|]. rewrite <- char_to_tile_valid. tauto.
    + apply tile_e_eqb_neq in E. apply char_to_tile_valid in E.
      destruct (load_row y (x + 1) cs) as [ts|] eqn:R.
      * split; [discriminate|]. intros (c' & [<-|Hin] & Hc); [tauto|].
        assert (load_row y (x + 1) cs = None) as R' by (apply IH; eauto).
        congruence.
      * split; [intros _ | reflexivity].
        destruct (proj1 (IH (x + 1)) R) as (c' & Hin & Hc). eauto.
Qed.

Lemma load_row_length y x cs ts : load_row y x cs = Some ts -> length ts = length cs.
Proof.
  revert x ts. induction cs as [|c cs IH]; intros x ts; simpl.
  - intros [= <-]. reflexivity.
  - destruct (tile_e_eqb (char_to_tile c) t_invalid); [discriminate|].
    destruct (load_row y (x + 1) cs) as [ts'|] eqn:R; [|discriminate].
    intros [= <-]. simpl. f_equal. eauto.
Qed.

Lemma load_rows_none y lines :
  load_rows y lines = None <-> has_foreign_char lines.
Proof.
  revert y. induction lines as [|l lines IH]; intros y; simpl.
  - split; [discriminate | intros (l & c & [] & _)].
  - destruct (load_row y 0 l) as [ts|] eqn:R.
    + destruct (load_rows (y + 1) lines) as [tss|] eqn:Rs.
      * split; [discriminate|]. intros (l' & c & [<-|Hin] & Hc & Hbad).
        -- assert (load_row y 0 l = None) by (apply load_row_none; eauto). congruence.
        -- assert (load_rows (y + 1) lines = None) by (apply IH; exists l', c; eauto).
           congruence.
      * split; [intros _ | reflexivity].
        destruct (proj1 (IH (y + 1)) Rs) as (l' & c & Hin & Hc & Hbad).
        exists l', c. simpl. eauto.
    + split; [intros _ | reflexivity].
      apply load_row_none in R as (c & Hc & Hbad). exists l, c. simpl. eauto.
Qed.

Lemma load_rows_length y lines tiles w :
  load_rows y lines = Some tiles ->
  (forall l, In l lines -> length l = w) ->
  length tiles = (length lines * w)%nat.
Proof.
  revert y tiles. induction lines as [|l lines IH]; intros y tiles; simpl.
  - intros [= <-] _. reflexivity.
  - destruct (load_row y 0 l) as [ts|] eqn:R; [|discriminate].
    destruct (load_rows (y + 1) lines) as [tss|] eqn:Rs; [|discriminate].
    intros [= <-] Hw. rewrite length_app, (load_row_length _ _ _ _ R).
    rewrite (IH _ _ Rs) by auto. rewrite (Hw l) by auto. lia.
Qed.

Lemma rows_consistent lines :
  forallb (fun l => Nat.eqb (length l) (row_width lines)) lines = true
  <-> ~ inconsistent_rows lines.
Proof.
  rewrite forallb_forall. unfold inconsistent_rows. split.
  - intros H (l & Hin & Hne). apply H in Hin. apply Nat.eqb_eq in Hin. lia.
  - intros H l Hin. apply Nat.eqb_eq.
    destruct (Nat.eq_dec (length l) (row_width lines)); [assumption|].
    exfalso. apply H. eauto.
Qed.

Lemma load_lines_spec lines :
  match load_lines lines with
  | inl _ => inconsistent_rows lines \/ has_foreign_char lines
  | inr m =>
      ~ inconsistent_rows lines /\ ~ has_foreign_char lines
      /\ m_size m = mk_ivec2 (Z.of_nat (row_width lines)) (Z.of_nat (length lines))
      /\ load_rows 0 lines = Some (m_map m)
      /\ length (m_map m) = (length lines * row_width lines)%nat
  end.
Proof.
  unfold load_lines.
  destruct (forallb _ lines) eqn:F; simpl.
  - assert (~ inconsistent_rows lines) as Hc by (now apply rows_consistent).
    destruct (load_rows 0 lines) as [tiles|] eqn:R.
    + simpl. repeat split; try assumption.
      * intros Hbad. apply (proj2 (load_rows_none 0 lines)) in Hbad. congruence.
      * eapply load_rows_length; [eassumption|].
        intros l Hin. destruct (Nat.eq_dec (length l) (row_width lines)); [assumption|].
        exfalso. apply Hc. exists l. auto.
    + right. exact (proj1 (load_rows_none 0 lines) R).
  - left. destruct (rows_consistent lines) as [_ H].
    unfold inconsistent_rows.
    assert (~ ~ inconsistent_rows lines) as Hnn by (intros Hn; apply H in Hn; congruence).
    clear H. unfold inconsistent_rows in *.
    assert (Exists (fun l => length l <> row_width lines) lines) as Hex.
    { generalize (row_width lines) as w, F. clear.
      induction lines as [|l lines IH]; simpl; intros w F; [discriminate|].
      destruct (Nat.eqb_spec (length l) w); simpl in F.
      - right. now apply IH.
      - now left. }
    apply List.Exists_exists in Hex as (l & Hin & Hne). eauto.
Qed.

(** C8. [load] fails exactly when the file cannot be read, has no usable
    line, has a line whose length differs from the first line's, or holds
    a character outside [. # S E]; blank lines are dropped before these
    checks. Otherwise it gives a grid whose size is (length of the first
    line, number of non-blank lines). *)
Theorem load_fails_exactly (file : option string) :
  match load file with
  | inl _ => load_must_fail file
  | inr m =>
      ~ load_must_fail file
      /\ exists text, file = Some text
         /\ m_size m = mk_ivec2 (Z.of_nat (row_width (usable_lines text)))
                                (Z.of_nat (length (usable_lines text)))
         /\ length (m_map m)
            = (length (usable_lines text) * row_width (usable_lines text))%nat
  end.
Proof.
  unfold load, read_file, load_must_fail.
  destruct file as [text|]; [|exact I].
  fold (usable_lines text).
  destruct (usable_lines text) as [|l lines] eqn:U; [now left|].
  pose proof (load_lines_spec (l :: lines)) as H.
  destruct (load_lines (l :: lines)) as [e|m].
  - right. exact H.
  - destruct H as (H1 & H2 & H3 & _ & H5). split.
    + intros [H|[H|H]]; [discriminate | tauto | tauto].
    + exists text. rewrite U. auto.
Qed.

(** Blank lines are dropped: a file with blank lines loads as the file
    without them. *)
Example load_drops_blank_lines :
  load (Some ("S.E" ++ String newline (String newline "..#")))%string
  = load (Some ("S.E" ++ String newline "..#"))%string.
Proof. reflexivity. Qed.

(** ** The array under one relaxation *)

Lemma tile_at_lookup tiles i t : tiles !! i = Some t -> tile_at tiles i = t.
Proof. unfold tile_at. now intros ->. Qed.

Lemma tile_at_insert_eq tiles i t :
  (i < length tiles)%nat -> tile_at (<[i:=t]> tiles) i = t.
Proof. intros H. unfold tile_at. now rewrite list_lookup_insert_eq. Qed.

Lemma tile_at_insert_ne tiles i j t :
  i <> j -> tile_at (<[i:=t]> tiles) j = tile_at tiles j.
Proof. intros H. unfold tile_at. now rewrite list_lookup_insert_ne. Qed.

Lemma tile_at_ge tiles i : (length tiles <= i)%nat -> tile_at tiles i = default_tile.
Proof. intros H. unfold tile_at. now rewrite lookup_ge_None_2. Qed.

Lemma move_cost_decide (a d : Z) :
  (if negb (a =? d) then 1001 else 1) = (if decide (a = d) then 1 else 1001).
Proof. destruct (Z.eqb_spec a d); case_decide; simpl; congruence. Qed.

Lemma length_relax hfun e c d n tiles : length (relax hfun e c d n tiles) = length tiles.
Proof. unfold relax. now rewrite !length_insert. Qed.

Lemma relax_other hfun e c d n tiles x :
  x <> n -> tile_at (relax hfun e c d n tiles) x = tile_at tiles x.
Proof.
  intros H. unfold relax. rewrite !tile_at_insert_ne by congruence. reflexivity.
Qed.

Lemma relax_same hfun e c d n tiles :
  (n < length tiles)%nat ->
  exists h,
    tile_at (relax hfun e c d n tiles) n
    = mk_tile (type (tile_at tiles n)) (pos (tile_at tiles n))
              (mk_state d (candidate tiles c d) h c).
Proof.
  intros H. unfold relax. eexists.
  rewrite tile_at_insert_eq by (now rewrite length_insert).
  unfold set_state, candidate. simpl. rewrite move_cost_decide. reflexivity.
Qed.

Lemma type_relax hfun e c d n tiles x :
  type (tile_at (relax hfun e c d n tiles) x) = type (tile_at tiles x).
Proof.
  destruct (decide (x = n)) as [->|Hne]; [|now rewrite relax_other].
  destruct (Nat.lt_ge_cases n (length tiles)) as [Hlt|Hge].
  - destruct (relax_same hfun e c d n tiles Hlt) as (h & ->). reflexivity.
  - rewrite !tile_at_ge; [reflexivity | assumption | now rewrite length_relax].
Qed.

Lemma pos_relax hfun e c d n tiles x :
  pos (tile_at (relax hfun e c d n tiles) x) = pos (tile_at tiles x).
Proof.
  destruct (decide (x = n)) as [->|Hne]; [|now rewrite relax_other].
  destruct (Nat.lt_ge_cases n (length tiles)) as [Hlt|Hge].
  - destruct (relax_same hfun e c d n tiles Hlt) as (h & ->). reflexivity.
  - rewrite !tile_at_ge; [reflexivity | assumption | now rewrite length_relax].
Qed.

Lemma G_relax hfun e c d n tiles x :
  (n < length tiles)%nat ->
  G (relax hfun e c d n tiles) x = if decide (x = n) then candidate tiles c d else G tiles x.
Proof.
  intros H. unfold G. case_decide as Hx.
  - subst x. destruct (relax_same hfun e c d n tiles H) as (h & ->). reflexivity.
  - now rewrite relax_other.
Qed.

Lemma D_relax hfun e c d n tiles x :
  (n < length tiles)%nat ->
  D (relax hfun e c d n tiles) x = if decide (x = n) then d else D tiles x.
Proof.
  intros H. unfold D. case_decide as Hx.
  - subst x. destruct (relax_same hfun e c d n tiles H) as (h & ->). reflexivity.
  - now rewrite relax_other.
Qed.

Lemma P_relax hfun e c d n tiles x :
  (n < length tiles)%nat ->
  P (relax hfun e c d n tiles) x = if decide (x = n) then c else P tiles x.
Proof.
  intros H. unfold P. case_decide as Hx.
  - subst x. destruct (relax_same hfun e c d n tiles H) as (h & ->). reflexivity.
  - now rewrite relax_other.
Qed.

(** A push adds its entry to the queue and nothing else. *)
Lemma push_ok_in push tiles q n x :
  push_ok push -> In x (push tiles q n) <-> In x (q ++ [n]).
Proof.
  intros Hpush. rewrite in_app_iff. simpl. split.
  - intros H. apply (Permutation_in _ (Permutation_sym (Hpush tiles q n))) in H.
    destruct H as [H|H]; auto.
  - intros H. apply (Permutation_in _ (Hpush tiles q n)).
    destruct H as [H|[H|[]]]; [now right | now left].
Qed.

Lemma push_ok_length push tiles q n :
  push_ok push -> length (push tiles q n) = length (q ++ [n]).
Proof.
  intros Hpush. rewrite <- (Permutation_length (Hpush tiles q n)), length_app. simpl. lia.
Qed.

(** [explore] either leaves the state as it is, or relaxes the tile the
    move steps onto and pushes it. *)
Lemma explore_unfold hfun push sz e c st d :
  explore hfun push sz e c st d
  = match step_to sz (s_map st) c d with
    | None => st
    | Some n =>
        if improves (s_map st) c d n
        then mk_search (relax hfun e c d n (s_map st))
               (push (relax hfun e c d n (s_map st)) (s_pq st) n) (s_count st + 1)
        else st
    end.
Proof.
  unfold explore, step_to.
  destruct (_ || _ || _ || _); [reflexivity|].
  destruct (tile_e_eqb _ t_wall); [reflexivity|].
  unfold improves, candidate. rewrite <- move_cost_decide.
  reflexivity.
Qed.

(** ** C2: the cost of a step *)

(** C2. When the tile being expanded has an in-bounds non-wall neighbour
    in the direction of the move, the cost of the step is 1 if the
    direction is the facing of the current tile and 1001 otherwise, and
    the candidate cost is the cost of the current tile plus that: the
    neighbour is relaxed to exactly this candidate (with the move as its
    facing and the current tile as its parent, and pushed) when it has no
    cost yet or the candidate is smaller, and nothing changes otherwise. *)
Theorem explore_move_cost hfun push sz e c st d n :
  step_to sz (s_map st) c d = Some n ->
  (n < length (s_map st))%nat ->
  let current := state (tile_at (s_map st) c) in
  let move_cost := if decide (dir current = d) then 1 else 1001 in
  let g := g_cost current + move_cost in
  let st' := explore hfun push sz e c st d in
  if decide (G (s_map st) n = 0 \/ g < G (s_map st) n)
  then G (s_map st') n = g /\ D (s_map st') n = d /\ P (s_map st') n = c
       /\ s_pq st' = push (s_map st') (s_pq st) n /\ s_count st' = s_count st + 1
  else st' = st.
Proof.
  intros Hstep Hn current move_cost g st'. subst st'.
  rewrite explore_unfold, Hstep. unfold improves.
  fold current. change (candidate (s_map st) c d) with g.
  fold (G (s_map st) n).
  case_decide as Hc.
  - replace ((G (s_map st) n =? 0) || (g <? G (s_map st) n)) with true.
    + simpl. rewrite G_relax, D_relax, P_relax by assumption.
      rewrite !decide_True by reflexivity. auto.
    + symmetry. apply orb_true_iff. rewrite Z.eqb_eq, Z.ltb_lt. exact Hc.
  - replace ((G (s_map st) n =? 0) || (g <? G (s_map st) n)) with false; [reflexivity|].
    symmetry. apply orb_false_iff. rewrite Z.eqb_neq, Z.ltb_ge. lia.
Qed.

(** ** Moves on a grid *)

Lemma moves_nonzero d : moves d <> mk_ivec2 0 0.
Proof.
  unfold moves. destruct (d =? 0), (d =? 1), (d =? 2); discriminate.
Qed.

Lemma grid_pos_idx sz tiles x y :
  grid_ok sz tiles -> 0 <= x < vx sz -> 0 <= y < vy sz ->
  (idx sz x y < length tiles)%nat
  /\ pos (tile_at tiles (idx sz x y)) = mk_ivec2 x y.
Proof.
  intros (Hw & Hh & Hlen & Hpos) Hx Hy. unfold idx.
  assert (0 <= y * vx sz + x < vx sz * vy sz) as Hr by nia.
  assert (Z.to_nat (y * vx sz + x) < length tiles)%nat as Hlt by (rewrite Hlen; lia).
  split; [assumption|].
  rewrite Hpos by assumption. rewrite Z2Nat.id by lia.
  f_equal.
  - rewrite Z.add_comm, Z_mod_plus_full. apply Z.mod_small. lia.
  - rewrite Z.add_comm, Z_div_plus_full by lia. rewrite Z.div_small by lia. lia.
Qed.

Lemma grid_pos_inj sz tiles i j :
  grid_ok sz tiles -> (i < length tiles)%nat -> (j < length tiles)%nat ->
  pos (tile_at tiles i) = pos (tile_at tiles j) -> i = j.
Proof.
  intros (Hw & Hh & Hlen & Hpos) Hi Hj. rewrite !Hpos by assumption.
  intros [= Hm Hd].
  pose proof (Z.div_mod (Z.of_nat i) (vx sz)) as Ei.
  pose proof (Z.div_mod (Z.of_nat j) (vx sz)) as Ej.
  assert (Z.of_nat i = Z.of_nat j) by (rewrite Ei, Ej by lia; congruence).
  lia.
Qed.

Lemma grid_pos_range sz tiles i :
  grid_ok sz tiles -> (i < length tiles)%nat ->
  0 <= vx (pos (tile_at tiles i)) < vx sz /\ 0 <= vy (pos (tile_at tiles i)) < vy sz.
Proof.
  intros (Hw & Hh & Hlen & Hpos) Hi. rewrite Hpos by assumption. simpl.
  pose proof (Z.mod_pos_bound (Z.of_nat i) (vx sz) Hw).
  split; [assumption|]. split.
  - apply Z.div_pos; lia.
  - apply Z.div_lt_upper_bound; [lia|]. rewrite Hlen in Hi. nia.
Qed.

(** What a step gives on a grid. *)
Lemma step_to_spec sz tiles c d n :
  grid_ok sz tiles -> step_to sz tiles c d = Some n ->
  (n < length tiles)%nat
  /\ type (tile_at tiles n) <> t_wall
  /\ pos (tile_at tiles n) = ivec2_add (pos (tile_at tiles c)) (moves d).
Proof.
  intros Hgrid. unfold step_to.
  set (p := ivec2_add (pos (tile_at tiles c)) (moves d)).
  destruct (Z.ltb_spec (vx p) 0); [discriminate|].
  destruct (Z.leb_spec (vx sz) (vx p)); [discriminate|].
  destruct (Z.ltb_spec (vy p) 0); [discriminate|].
  destruct (Z.leb_spec (vy sz) (vy p)); [discriminate|].
  simpl. destruct (tile_e_eqb _ t_wall) eqn:W; [discriminate|].
  intros [= <-]. apply tile_e_eqb_neq in W.
  destruct (grid_pos_idx sz tiles (vx p) (vy p) Hgrid) as (Hlt & Hp); [lia | lia |].
  repeat split; assumption.
Qed.

Lemma step_to_ne sz tiles c d n :
  grid_ok sz tiles -> step_to sz tiles c d = Some n -> n <> c.
Proof.
  intros Hgrid Hs. destruct (step_to_spec _ _ _ _ _ Hgrid Hs) as (_ & _ & Hp).
  intros ->. pose proof (moves_nonzero d) as Hm.
  destruct (pos (tile_at tiles c)) as [x y], (moves d) as [mx my].
  unfold ivec2_add in Hp. simpl in Hp. injection Hp as Hx Hy.
  apply Hm. f_equal; lia.
Qed.

(** Two steps in the same direction onto the same tile start from the
    same tile. *)
Lemma step_to_inj sz tiles c c' d n :
  grid_ok sz tiles -> (c < length tiles)%nat -> (c' < length tiles)%nat ->
  step_to sz tiles c d = Some n -> step_to sz tiles c' d = Some n -> c = c'.
Proof.
  intros Hgrid Hc Hc' H1 H2.
  destruct (step_to_spec _ _ _ _ _ Hgrid H1) as (_ & _ & P1).
  destruct (step_to_spec _ _ _ _ _ Hgrid H2) as (_ & _ & P2).
  apply (grid_pos_inj sz tiles); try assumption.
  rewrite P1 in P2. unfold ivec2_add in P2. injection P2 as Hx Hy.
  destruct (pos (tile_at tiles c)), (pos (tile_at tiles c')). simpl in *.
  f_equal; lia.
Qed.

(** A step depends on the types and the positions of the tiles only. *)
Lemma step_to_ext sz tiles tiles' c d :
  (forall i, type (tile_at tiles' i) = type (tile_at tiles i)) ->
  (forall i, pos (tile_at tiles' i) = pos (tile_at tiles i)) ->
  step_to sz tiles' c d = step_to sz tiles c d.
Proof.
  intros Ht Hp. unfold step_to. rewrite Hp.
  destruct (_ || _ || _ || _); [reflexivity|]. now rewrite Ht.
Qed.

(** ** Walks *)

Lemma follow_app sz tiles c ds ds' :
  follow sz tiles c (ds ++ ds')
  = match follow sz tiles c ds with
    | Some n => follow sz tiles n ds'
    | None => None
    end.
Proof.
  revert c. induction ds as [|d ds IH]; intros c; simpl; [reflexivity|].
  destruct (step_to sz tiles c d); [apply IH | reflexivity].
Qed.

Lemma visits_app sz tiles c ds ds' n :
  follow sz tiles c ds = Some n ->
  visits sz tiles c (ds ++ ds') = visits sz tiles c ds ++ tail (visits sz tiles n ds').
Proof.
  revert c. induction ds as [|d ds IH]; intros c; simpl.
  - intros [= ->]. destruct ds'; reflexivity.
  - destruct (step_to sz tiles c d) as [m|]; [|discriminate].
    intros H. f_equal. now apply IH.
Qed.

Lemma walk_cost_app f ds ds' :
  walk_cost f (ds ++ ds') = walk_cost f ds + walk_cost (facing_after f ds) ds'.
Proof.
  revert f. induction ds as [|d ds IH]; intros f; simpl; [lia|].
  rewrite IH. lia.
Qed.

Lemma facing_after_app f ds ds' :
  facing_after f (ds ++ ds') = facing_after (facing_after f ds) ds'.
Proof. revert f. induction ds as [|d ds IH]; intros f; simpl; auto. Qed.

Lemma walk_cost_changes f ds :
  walk_cost f ds = Z.of_nat (length ds) + 1000 * direction_changes f ds.
Proof.
  revert f. induction ds as [|d ds IH]; intros f; simpl length; simpl walk_cost;
    simpl direction_changes; [lia|].
  rewrite IH. case_decide; lia.
Qed.

Lemma visits_head sz tiles c ds : exists vs, visits sz tiles c ds = c :: vs.
Proof. destruct ds; simpl; eauto. Qed.

Lemma length_visits sz tiles c ds n :
  follow sz tiles c ds = Some n -> length (visits sz tiles c ds) = S (length ds).
Proof.
  revert c. induction ds as [|d ds IH]; intros c; simpl; [reflexivity|].
  destruct (step_to sz tiles c d) as [m|]; [|discriminate].
  intros H. f_equal. now apply IH.
Qed.

(** ** Sums over the costs *)

Lemma sumf_insert f (l : list Z) i a b :
  l !! i = Some a -> sumf f (<[i:=b]> l) = sumf f l - f a + f b.
Proof.
  revert i. induction l as [|v l IH]; intros i; [discriminate|].
  destruct i as [|i]; simpl.
  - intros [= ->]. lia.
  - intros H. rewrite (IH _ H). lia.
Qed.

Lemma sumf_mono f g (l : list Z) : (forall v, f v <= g v) -> sumf f l <= sumf g l.
Proof.
  intros H. induction l as [|v l IH]; simpl; [lia|]. specialize (H v). lia.
Qed.

Lemma ind_range t v : 0 <= ind t v <= 1.
Proof. unfold ind. destruct (_ && _); lia. Qed.

Lemma ind_true t v : 0 < v <= t -> ind t v = 1.
Proof.
  intros H. unfold ind.
  destruct (Z.ltb_spec 0 v); [|lia]. destruct (Z.leb_spec v t); [reflexivity|lia].
Qed.

Lemma ind_false t v : v <= 0 \/ t < v -> ind t v = 0.
Proof.
  intros H. unfold ind.
  destruct (Z.ltb_spec 0 v); [|reflexivity]. destruct (Z.leb_spec v t); [lia|reflexivity].
Qed.

Lemma ind_mono t t' v : t <= t' -> ind t v <= ind t' v.
Proof.
  intros H. unfold ind.
  destruct (Z.ltb_spec 0 v); simpl; [|lia].
  destruct (Z.leb_spec v t), (Z.leb_spec v t'); lia.
Qed.

Lemma sumf_ind_bounds t (l : list Z) : 0 <= sumf (ind t) l <= Z.of_nat (length l).
Proof.
  induction l as [|v l IH]; simpl sumf; simpl length; [lia|].
  pose proof (ind_range t v). lia.
Qed.

Lemma gs_lookup tiles n : (n < length tiles)%nat -> gs tiles !! n = Some (G tiles n).
Proof.
  intros H. unfold gs, G, tile_at. rewrite list_lookup_fmap.
  destruct (lookup_lt_is_Some_2 tiles n H) as (t & ->). reflexivity.
Qed.

Lemma length_gs tiles : length (gs tiles) = length tiles.
Proof. unfold gs. apply length_fmap. Qed.

Lemma gs_relax hfun e c d n tiles :
  gs (relax hfun e c d n tiles) = <[n := candidate tiles c d]> (gs tiles).
Proof.
  unfold relax, gs. rewrite !list_fmap_insert. rewrite list_insert_insert_eq.
  simpl. unfold candidate. now rewrite move_cost_decide.
Qed.

Lemma candidate_pos tiles c d : 0 <= G tiles c -> G tiles c < candidate tiles c d.
Proof. unfold candidate, G. case_decide; lia. Qed.

Lemma candidate_le tiles c d : candidate tiles c d <= G tiles c + 1001.
Proof. unfold candidate, G. case_decide; lia. Qed.

Lemma improves_spec tiles c d n :
  improves tiles c d n = true <-> G tiles n = 0 \/ candidate tiles c d < G tiles n.
Proof.
  unfold improves. fold (G tiles n). rewrite orb_true_iff, Z.eqb_eq, Z.ltb_lt. tauto.
Qed.

(** ** The invariant is kept by a relaxation *)

Section RelaxInvariant.
Variable hfun : tile_t -> tile_t -> Z.
Variable push : list tile_t -> list nat -> nat -> list nat.
Hypothesis Hpush : push_ok push.
Variable sz : ivec2.
Variables S E : nat.
Variable tiles0 : list tile_t.
Hypothesis Hgrid : grid_ok sz tiles0.

Lemma step_to_inv st c d :
  search_inv sz S tiles0 st -> step_to sz (s_map st) c d = step_to sz tiles0 c d.
Proof. intros I. apply step_to_ext; [apply (inv_type _ _ _ _ I) | apply (inv_pos _ _ _ _ I)]. Qed.

Lemma relax_inv st c d n :
  search_inv sz S tiles0 st ->
  current_ok tiles0 c st ->
  valid_dir d ->
  step_to sz tiles0 c d = Some n ->
  improves (s_map st) c d n = true ->
  search_inv sz S tiles0
    (mk_search (relax hfun E c d n (s_map st))
       (push (relax hfun E c d n (s_map st)) (s_pq st) n) (s_count st + 1)).
Proof.
  intros I (Hc & Hdc) Hd Hstep Himp.
  destruct (step_to_spec _ _ _ _ _ Hgrid Hstep) as (Hn0 & _ & _).
  pose proof (step_to_ne _ _ _ _ _ Hgrid Hstep) as Hnc.
  assert (n < length (s_map st))%nat as Hn by (now rewrite (inv_len _ _ _ _ I)).
  apply improves_spec in Himp.
  pose proof (inv_g _ _ _ _ I c) as Hgc.
  pose proof (candidate_pos (s_map st) c d Hgc) as Hcand.
  pose proof (candidate_le (s_map st) c d) as Hcand'.
  set (cand := candidate (s_map st) c d) in *.
  constructor; simpl.
  - rewrite length_relax. apply (inv_len _ _ _ _ I).
  - intros i. rewrite type_relax. apply (inv_type _ _ _ _ I).
  - intros i. rewrite pos_relax. apply (inv_pos _ _ _ _ I).
  - intros i. rewrite G_relax by assumption. case_decide; [lia | apply (inv_g _ _ _ _ I)].
  - intros i. rewrite D_relax by assumption.
    case_decide; [now right | apply (inv_dir _ _ _ _ I)].
  - intros i. rewrite G_relax, D_relax by assumption.
    case_decide; [auto | apply (inv_gd _ _ _ _ I)].
  - intros i. rewrite G_relax, D_relax by assumption.
    case_decide; [intros; fold cand; lia | apply (inv_dg _ _ _ _ I)].
  - rewrite D_relax by assumption. case_decide; [assumption | apply (inv_start _ _ _ _ I)].
  - intros x Hx. rewrite D_relax by assumption.
    apply (push_ok_in _ _ _ _ _ Hpush), in_app_or in Hx as [Hx|[<-|[]]].
    + destruct (inv_pq _ _ _ _ I x Hx) as (H1 & H2). split; [assumption|].
      case_decide; assumption.
    + split; [assumption|]. now rewrite decide_True.
  - intros i Hi. rewrite !G_relax, !P_relax by assumption.
    destruct (decide (i = n)) as [->|Hin].
    + intros _. split; [assumption|].
      rewrite decide_False by congruence.
      destruct (decide (c = S)) as [->|HcS]; [now left|].
      right. pose proof (inv_dg _ _ _ _ I c HcS Hdc). fold cand. lia.
    + intros Hgi. destruct (inv_chain _ _ _ _ I i Hi Hgi) as (Hp & Hch).
      split; [assumption|].
      destruct Hch as [Hch|Hch]; [now left|].
      case_decide as Hpn; [|now right].
      right. rewrite Hpn in Hch. fold cand. lia.
  - intros i. rewrite gs_relax.
    rewrite (sumf_insert _ _ n (G (s_map st) n) cand (gs_lookup _ _ Hn)).
    rewrite G_relax by assumption. fold cand.
    destruct (decide (i = n)) as [->|Hin].
    + intros _. rewrite (ind_true cand cand) by lia.
      assert (sumf (ind (G (s_map st) c)) (gs (s_map st))
              <= sumf (ind cand) (gs (s_map st)) - ind cand (G (s_map st) n)) as HA.
      { pose proof (sumf_insert (ind cand) _ n _ 0 (gs_lookup _ _ Hn)) as E1.
        pose proof (sumf_insert (ind (G (s_map st) c)) _ n _ 0 (gs_lookup _ _ Hn)) as E2.
        rewrite (ind_false cand 0) in E1 by lia.
        rewrite (ind_false (G (s_map st) c) 0) in E2 by lia.
        rewrite (ind_false (G (s_map st) c) (G (s_map st) n)) in E2 by lia.
        pose proof (sumf_mono (ind (G (s_map st) c)) (ind cand)
                      (<[n:=0]> (gs (s_map st)))) as M.
        specialize (M ltac:(intros v; apply ind_mono; lia)). lia. }
      pose proof (sumf_ind_bounds (G (s_map st) c) (gs (s_map st))) as HB.
      assert (G (s_map st) c <= 1001 * sumf (ind (G (s_map st) c)) (gs (s_map st))) as HC.
      { destruct (decide (G (s_map st) c = 0)) as [H0|Hne]; [lia|].
        apply (inv_count _ _ _ _ I). lia. }
      lia.
    + intros Hgi. pose proof (inv_count _ _ _ _ I i Hgi) as HJ.
      assert (ind (G (s_map st) i) (G (s_map st) n) <= ind (G (s_map st) i) cand) as HA.
      { destruct Himp as [H0|Hlt].
        - rewrite H0, (ind_false _ 0) by lia. apply ind_range.
        - destruct (Z.le_gt_cases (G (s_map st) n) (G (s_map st) i)).
          + rewrite (ind_true _ cand) by lia. apply ind_range.
          + rewrite (ind_false _ (G (s_map st) n)) by lia. apply ind_range. }
      lia.
  - intros i. rewrite G_relax, D_relax by assumption.
    destruct (decide (i = n)) as [->|Hin].
    + intros _. destruct (inv_walk _ _ _ _ I c Hdc) as (ds & (Hv & Hf) & Hcost & Hface & Hvis).
      exists (ds ++ [d]). split; [split|split; [|split]].
      * apply Forall_app. split; [assumption | now constructor].
      * rewrite follow_app, Hf. simpl. now rewrite Hstep.
      * rewrite walk_cost_app, Hcost, Hface. simpl. unfold cand, candidate, G, D. lia.
      * rewrite facing_after_app. reflexivity.
      * intros v. rewrite (visits_app _ _ _ _ _ _ Hf). simpl. rewrite Hstep. simpl.
        intros Hv'. rewrite D_relax by assumption.
        apply in_app_or in Hv' as [Hv'|[<-|[]]].
        -- case_decide; [assumption | now apply Hvis].
        -- now rewrite decide_True.
    + intros Hdi. destruct (inv_walk _ _ _ _ I i Hdi) as (ds & Hw & Hcost & Hface & Hvis).
      exists ds. split; [assumption|]. split; [assumption|]. split; [assumption|].
      intros v Hv'. rewrite D_relax by assumption.
      case_decide; [assumption | now apply Hvis].
Qed.

(** [explore] keeps the invariant and does not touch the tile being
    expanded. *)
Lemma explore_inv st c d :
  search_inv sz S tiles0 st -> current_ok tiles0 c st -> valid_dir d ->
  search_inv sz S tiles0 (explore hfun push sz E c st d)
  /\ current_ok tiles0 c (explore hfun push sz E c st d)
  /\ tile_at (s_map (explore hfun push sz E c st d)) c = tile_at (s_map st) c.
Proof.
  intros I Hc Hd. rewrite explore_unfold, (step_to_inv _ _ _ I).
  destruct (step_to sz tiles0 c d) as [n|] eqn:Hstep; [|auto].
  destruct (improves (s_map st) c d n) eqn:Himp; [|auto].
  pose proof (step_to_ne _ _ _ _ _ Hgrid Hstep) as Hnc.
  split; [now apply relax_inv|]. unfold current_ok. simpl.
  split; [|apply relax_other; congruence].
  destruct Hc as (Hc & Hdc). split; [assumption|].
  unfold D. rewrite relax_other by congruence. exact Hdc.
Qed.
End RelaxInvariant.

(** ** The measure decreases *)

Lemma sumf_nonneg f (l : list Z) : (forall v, In v l -> 0 <= f v) -> 0 <= sumf f l.
Proof.
  induction l as [|v l IH]; simpl; intros H; [lia|].
  pose proof (H v (or_introl eq_refl)). pose proof (IH (fun w Hw => H w (or_intror Hw))). lia.
Qed.

Lemma In_gs tiles v : In v (gs tiles) -> exists i, v = G tiles i.
Proof.
  unfold gs. intros H. apply list_elem_of_In, list_elem_of_fmap in H as (t & -> & Ht).
  apply list_elem_of_lookup in Ht as (i & Hi). exists i.
  unfold G. now rewrite (tile_at_lookup _ _ _ Hi).
Qed.

Section Measure.
Variable hfun : tile_t -> tile_t -> Z.
Variable push : list tile_t -> list nat -> nat -> list nat.
Hypothesis Hpush : push_ok push.
Variable sz : ivec2.
Variables S E : nat.
Variable tiles0 : list tile_t.
Hypothesis Hgrid : grid_ok sz tiles0.

Lemma potential_nonneg st : search_inv sz S tiles0 st -> 0 <= potential (s_map st).
Proof.
  intros I. unfold potential. apply sumf_nonneg. intros v Hv.
  apply In_gs in Hv as (i & ->). pose proof (inv_g _ _ _ _ I i).
  unfold phi. destruct (Z.eqb_spec (G (s_map st) i) 0); lia.
Qed.

(** No cost exceeds 1001 times the number of tiles. *)
Lemma search_g_bound st i :
  search_inv sz S tiles0 st -> G (s_map st) i <= 1001 * Z.of_nat (length tiles0).
Proof.
  intros I. pose proof (inv_g _ _ _ _ I i) as Hg.
  destruct (decide (G (s_map st) i = 0)) as [->|Hne]; [lia|].
  pose proof (inv_count _ _ _ _ I i ltac:(lia)) as HJ.
  pose proof (sumf_ind_bounds (G (s_map st) i) (gs (s_map st))) as HB.
  rewrite length_gs, (inv_len _ _ _ _ I) in HB. lia.
Qed.

Lemma explore_measure st c d :
  search_inv sz S tiles0 st -> current_ok tiles0 c st -> valid_dir d ->
  measure (explore hfun push sz E c st d) <= measure st.
Proof.
  intros I Hc Hd. rewrite explore_unfold, (step_to_inv sz S tiles0 st c d I).
  destruct (step_to sz tiles0 c d) as [n|] eqn:Hstep; [|lia].
  destruct (improves (s_map st) c d n) eqn:Himp; [|lia].
  pose proof (relax_inv hfun push Hpush sz S E tiles0 Hgrid st c d n I Hc Hd Hstep Himp) as I'.
  destruct (step_to_spec _ _ _ _ _ Hgrid Hstep) as (Hn0 & _ & _).
  assert (n < length (s_map st))%nat as Hn by (now rewrite (inv_len _ _ _ _ I)).
  apply improves_spec in Himp.
  pose proof (inv_g _ _ _ _ I c) as Hgc.
  pose proof (inv_g _ _ _ _ I n) as Hgn.
  pose proof (candidate_pos (s_map st) c d Hgc) as Hcand.
  pose proof (inv_count _ _ _ _ I' n) as HJ. simpl in HJ.
  rewrite G_relax, decide_True in HJ by auto.
  specialize (HJ ltac:(lia)).
  pose proof (sumf_ind_bounds (candidate (s_map st) c d)
                (gs (relax hfun E c d n (s_map st)))) as HB.
  rewrite length_gs, length_relax in HB.
  unfold measure, potential. simpl.
  rewrite gs_relax, length_relax, (push_ok_length _ _ _ _ Hpush), length_app. simpl length.
  rewrite (sumf_insert _ _ n (G (s_map st) n) _ (gs_lookup _ _ Hn)).
  set (cand := candidate (s_map st) c d) in *.
  set (B := 1001 * Z.of_nat (length (s_map st)) + 1).
  assert (phi B cand + 1 <= phi B (G (s_map st) n)) as Hphi.
  { unfold phi. destruct (Z.eqb_spec cand 0); [lia|].
    destruct (Z.eqb_spec (G (s_map st) n) 0); unfold B; lia. }
  lia.
Qed.

Lemma expand_inv st c :
  search_inv sz S tiles0 st -> current_ok tiles0 c st ->
  search_inv sz S tiles0 (expand hfun push sz E c st)
  /\ measure (expand hfun push sz E c st) <= measure st
  /\ tile_at (s_map (expand hfun push sz E c st)) c = tile_at (s_map st) c.
Proof.
  intros I0 C0. unfold expand. cbn [fold_left].
  assert (valid_dir 0 /\ valid_dir 1 /\ valid_dir 2 /\ valid_dir 3) as (V0 & V1 & V2 & V3)
    by (unfold valid_dir; lia).
  destruct (explore_inv hfun push Hpush sz S E tiles0 Hgrid st c 0 I0 C0 V0) as (I1 & C1 & T1).
  pose proof (explore_measure st c 0 I0 C0 V0) as M1.
  set (st1 := explore hfun push sz E c st 0) in *.
  destruct (explore_inv hfun push Hpush sz S E tiles0 Hgrid st1 c 1 I1 C1 V1) as (I2 & C2 & T2).
  pose proof (explore_measure st1 c 1 I1 C1 V1) as M2.
  set (st2 := explore hfun push sz E c st1 1) in *.
  destruct (explore_inv hfun push Hpush sz S E tiles0 Hgrid st2 c 2 I2 C2 V2) as (I3 & C3 & T3).
  pose proof (explore_measure st2 c 2 I2 C2 V2) as M3.
  set (st3 := explore hfun push sz E c st2 2) in *.
  destruct (explore_inv hfun push Hpush sz S E tiles0 Hgrid st3 c 3 I3 C3 V3) as (I4 & C4 & T4).
  pose proof (explore_measure st3 c 3 I3 C3 V3) as M4.
  split; [assumption|]. split; [lia|]. congruence.
Qed.
End Measure.

(** ** The loop *)

Lemma pop_ok_in pop tiles x xs c rest :
  pop_ok pop -> pop tiles x xs = (c, rest) ->
  In c (x :: xs) /\ (forall y, In y rest -> In y (x :: xs)) /\ length rest = length xs.
Proof.
  intros Hpop Heq. specialize (Hpop tiles x xs). rewrite Heq in Hpop. simpl in Hpop.
  split; [|split].
  - eapply Permutation_in; [symmetry; exact Hpop | now left].
  - intros y Hy. eapply Permutation_in; [symmetry; exact Hpop | now right].
  - apply Permutation_length in Hpop. simpl in Hpop. lia.
Qed.

Section Loop.
Variable hfun : tile_t -> tile_t -> Z.
Variable push : list tile_t -> list nat -> nat -> list nat.
Hypothesis Hpush : push_ok push.
Variable pop : list tile_t -> nat -> list nat -> nat * list nat.
Variable sz : ivec2.
Variables S E : nat.

(** A rule for the loop: what holds of every state the loop meets and
    what follows for its result. *)
Lemma search_loop_rule (I : search_t -> Prop) (R : search_t -> Z -> Prop) :
  (forall st, I st -> s_pq st = [] -> R st (-1)) ->
  (forall st x xs rest, I st -> s_pq st = x :: xs -> pop (s_map st) x xs = (E, rest) ->
     R (mk_search (s_map st) rest (s_count st)) (G (s_map st) E)) ->
  (forall st x xs c rest, I st -> s_pq st = x :: xs -> pop (s_map st) x xs = (c, rest) ->
     c <> E -> I (expand hfun push sz E c (mk_search (s_map st) rest (s_count st)))) ->
  forall fuel st r cost,
    I st -> search_loop hfun push pop sz E fuel st = Some (r, cost) -> R r cost.
Proof.
  intros Hempty Hfound Hstep. induction fuel as [|fuel IH]; intros st r cost HI; simpl.
  - discriminate.
  - destruct (s_pq st) as [|x xs] eqn:Hpq.
    + intros [= <- <-]. now apply Hempty.
    + destruct (pop (s_map st) x xs) as [c rest] eqn:Hp.
      destruct (Nat.eqb_spec c E) as [->|Hne].
      * intros [= <- <-]. simpl. eapply Hfound; eassumption.
      * apply IH. eapply Hstep; eassumption.
Qed.

(** More fuel does not change a result. *)
Lemma search_loop_more fuel fuel' st r :
  search_loop hfun push pop sz E fuel st = Some r -> (fuel <= fuel')%nat ->
  search_loop hfun push pop sz E fuel' st = Some r.
Proof.
  revert fuel' st. induction fuel as [|fuel IH]; intros fuel' st; simpl; [discriminate|].
  intros H Hle. destruct fuel' as [|fuel']; [lia|]. simpl.
  destruct (s_pq st) as [|x xs]; [assumption|].
  destruct (pop (s_map st) x xs) as [c rest].
  destruct (Nat.eqb c E); [assumption|]. apply IH; [assumption | lia].
Qed.

Variable tiles0 : list tile_t.
Hypothesis Hgrid : grid_ok sz tiles0.
Hypothesis Hpop : pop_ok pop.

Lemma pop_inv st x xs c rest :
  search_inv sz S tiles0 st -> s_pq st = x :: xs -> pop (s_map st) x xs = (c, rest) ->
  search_inv sz S tiles0 (mk_search (s_map st) rest (s_count st))
  /\ current_ok tiles0 c (mk_search (s_map st) rest (s_count st))
  /\ measure (mk_search (s_map st) rest (s_count st)) = measure st - 1.
Proof.
  intros I Hpq Hp. destruct (pop_ok_in _ _ _ _ _ _ Hpop Hp) as (Hc & Hrest & Hlen).
  split; [|split].
  - destruct I. constructor; simpl; try assumption.
    intros y Hy. apply inv_pq0. rewrite Hpq. auto.
  - apply (inv_pq _ _ _ _ I). now rewrite Hpq.
  - unfold measure. simpl. rewrite Hpq. simpl length. lia.
Qed.

Lemma search_loop_keeps_inv fuel st r cost :
  search_inv sz S tiles0 st ->
  search_loop hfun push pop sz E fuel st = Some (r, cost) ->
  search_inv sz S tiles0 r.
Proof.
  apply (search_loop_rule (search_inv sz S tiles0) (fun r _ => search_inv sz S tiles0 r)).
  - auto.
  - intros st' x xs rest I Hpq Hp. now destruct (pop_inv _ _ _ _ _ I Hpq Hp).
  - intros st' x xs c rest I Hpq Hp _.
    destruct (pop_inv _ _ _ _ _ I Hpq Hp) as (I1 & C1 & _).
    now destruct (expand_inv hfun push Hpush sz S E tiles0 Hgrid _ c I1 C1).
Qed.

(** The loop returns when the fuel exceeds the measure. *)
Lemma search_loop_terminates fuel st :
  search_inv sz S tiles0 st -> measure st < Z.of_nat fuel ->
  exists r, search_loop hfun push pop sz E fuel st = Some r.
Proof.
  revert st. induction fuel as [|fuel IH]; intros st I Hm.
  - pose proof (potential_nonneg sz S tiles0 st I). unfold measure in Hm. lia.
  - simpl. destruct (s_pq st) as [|x xs] eqn:Hpq; [eauto|].
    destruct (pop (s_map st) x xs) as [c rest] eqn:Hp.
    destruct (Nat.eqb c E); [eauto|].
    destruct (pop_inv _ _ _ _ _ I Hpq Hp) as (I1 & C1 & M1).
    destruct (expand_inv hfun push Hpush sz S E tiles0 Hgrid _ c I1 C1) as (I2 & M2 & _).
    apply IH; [assumption | lia].
Qed.
End Loop.

(** ** What [load] builds *)

Lemma load_row_lookup y x cs ts k ch :
  load_row y x cs = Some ts -> cs !! k = Some ch ->
  ts !! k = Some (mk_tile (char_to_tile ch) (mk_ivec2 (x + Z.of_nat k) y)
                          (mk_state dir_none 0 0 0)).
Proof.
  revert x ts k. induction cs as [|c cs IH]; intros x ts k; simpl; [discriminate|].
  destruct (tile_e_eqb (char_to_tile c) t_invalid); [discriminate|].
  destruct (load_row y (x + 1) cs) as [ts'|] eqn:R; [|discriminate].
  intros [= <-]. destruct k as [|k]; simpl.
  - intros [= <-]. do 3 f_equal. lia.
  - intros H. rewrite (IH _ _ _ R H). do 3 f_equal. lia.
Qed.

Lemma load_rows_lookup y lines tiles w r l k ch :
  load_rows y lines = Some tiles ->
  (forall l, In l lines -> length l = w) ->
  lines !! r = Some l -> l !! k = Some ch ->
  tiles !! (r * w + k)%nat
  = Some (mk_tile (char_to_tile ch) (mk_ivec2 (Z.of_nat k) (y + Z.of_nat r))
                  (mk_state dir_none 0 0 0)).
Proof.
  revert y tiles r. induction lines as [|l0 lines IH]; intros y tiles r; simpl; [discriminate|].
  destruct (load_row y 0 l0) as [ts|] eqn:R; [|discriminate].
  destruct (load_rows (y + 1) lines) as [tss|] eqn:Rs; [|discriminate].
  intros [= <-] Hw Hr Hk.
  pose proof (load_row_length _ _ _ _ R) as Hlen.
  rewrite (Hw l0) in Hlen by auto.
  destruct r as [|r]; simpl in Hr.
  - injection Hr as ->. simpl.
    rewrite lookup_app_l by (rewrite Hlen; apply lookup_lt_Some in Hk; rewrite <- (Hw l); auto).
    rewrite (load_row_lookup _ _ _ _ _ _ R Hk). do 3 f_equal; lia.
  - rewrite lookup_app_r by (rewrite Hlen; lia).
    replace (Datatypes.S r * w + k - length ts)%nat with (r * w + k)%nat by (rewrite Hlen; lia).
    rewrite (IH _ _ _ Rs (fun l' H' => Hw l' (or_intror H')) Hr Hk).
    do 3 f_equal. lia.
Qed.

Lemma usable_lines_nonempty text l : In l (usable_lines text) -> l <> [].
Proof.
  unfold usable_lines. intros H. apply list_elem_of_In, list_elem_of_filter in H as (H & _).
  destruct l; [discriminate | congruence].
Qed.

(** A loaded maze: the rows of the text, the grid and its tiles. *)
Lemma load_structure file m :
  load file = inr m ->
  exists text lines w,
    file = Some text /\ lines = usable_lines text /\ w = row_width lines
    /\ (0 < w)%nat /\ (0 < length lines)%nat
    /\ (forall l, In l lines -> length l = w)
    /\ (forall l c, In l lines -> In c l -> allowed_char c)
    /\ m_size m = mk_ivec2 (Z.of_nat w) (Z.of_nat (length lines))
    /\ length (m_map m) = (length lines * w)%nat
    /\ solve_time m = 0 /\ search_count m = 0 /\ path_cost m = 0
    /\ forall r l k ch, lines !! r = Some l -> l !! k = Some ch ->
         tile_at (m_map m) (r * w + k)
         = mk_tile (char_to_tile ch) (mk_ivec2 (Z.of_nat k) (Z.of_nat r))
                   (mk_state dir_none 0 0 0).
Proof.
  unfold load, read_file. destruct file as [text|]; [|discriminate].
  fold (usable_lines text).
  destruct (usable_lines text) as [|l0 lines] eqn:U; [discriminate|].
  intros Hl. pose proof (load_lines_spec (l0 :: lines)) as H. rewrite Hl in H.
  destruct H as (Hc & Hf & Hsz & Hrows & Hlen).
  exists text, (l0 :: lines), (row_width (l0 :: lines)).
  assert (forall l, In l (l0 :: lines) -> length l = row_width (l0 :: lines)) as Hw.
  { intros l Hin. destruct (Nat.eq_dec (length l) (row_width (l0 :: lines))); [assumption|].
    exfalso. apply Hc. exists l. auto. }
  split; [reflexivity|]. split; [now rewrite U|]. split; [reflexivity|].
  split.
  { simpl. assert (l0 <> []) by (apply (usable_lines_nonempty text); rewrite U; now left).
    destruct l0; [congruence | simpl; lia]. }
  split; [simpl; lia|]. split; [assumption|].
  split.
  { intros l c Hl' Hc'. destruct (char_to_tile_valid c) as [Hv _].
    destruct (tile_e_eqb (char_to_tile c) t_invalid) eqn:Ec.
    - exfalso. apply Hf. exists l, c. repeat split; try assumption.
      apply tile_e_eqb_eq in Ec. rewrite <- char_to_tile_valid. tauto.
    - apply Hv. now apply tile_e_eqb_neq. }
  split; [assumption|]. split; [assumption|].
  unfold load_lines in Hl.
  destruct (negb _); [discriminate|]. rewrite Hrows in Hl. injection Hl as <-. simpl.
  split; [reflexivity|]. split; [reflexivity|]. split; [reflexivity|].
  intros r l k ch Hr Hk. apply tile_at_lookup.
  simpl in Hrows. rewrite (load_rows_lookup 0 (l0 :: lines) _ _ r l k ch); try assumption.
  reflexivity.
Qed.

Lemma nat_div_mod_lt i w h : (0 < w)%nat -> (i < h * w)%nat -> (i / w < h)%nat /\ (i mod w < w)%nat.
Proof.
  intros Hw Hi. split; [apply Nat.Div0.div_lt_upper_bound; lia | apply Nat.mod_upper_bound; lia].
Qed.

Lemma load_grid_ok file m :
  load file = inr m ->
  grid_ok (m_size m) (m_map m)
  /\ forall i, (i < length (m_map m))%nat ->
       type (tile_at (m_map m) i) <> t_invalid
       /\ state (tile_at (m_map m) i) = mk_state dir_none 0 0 0.
Proof.
  intros Hl.
  destruct (load_structure _ _ Hl)
    as (text & lines & w & _ & _ & _ & Hw & Hh & Hlw & Hch & Hsz & Hlen & _ & _ & _ & Hlk).
  assert (forall i, (i < length (m_map m))%nat ->
            exists ch, allowed_char ch /\
              tile_at (m_map m) i
              = mk_tile (char_to_tile ch) (mk_ivec2 (Z.of_nat (i mod w)) (Z.of_nat (i / w)))
                        (mk_state dir_none 0 0 0)) as Hall.
  { intros i Hi. rewrite Hlen in Hi.
    destruct (nat_div_mod_lt i w (length lines) Hw Hi) as (Hr & Hk).
    destruct (lookup_lt_is_Some_2 lines (i / w) Hr) as (l & Hl1).
    assert (In l lines) as Hin by (apply list_elem_of_In; eapply list_elem_of_lookup_2; eauto).
    destruct (lookup_lt_is_Some_2 l (i mod w)) as (ch & Hl2); [now rewrite (Hlw l Hin)|].
    exists ch. split.
    - apply (Hch l ch Hin). apply list_elem_of_In. eapply list_elem_of_lookup_2; eauto.
    - rewrite <- (Hlk _ _ _ _ Hl1 Hl2). f_equal.
      pose proof (Nat.div_mod_eq i w). lia. }
  split.
  - rewrite Hsz. unfold grid_ok. simpl. split; [lia|]. split; [lia|]. split.
    + rewrite Hlen. lia.
    + intros i Hi. destruct (Hall i Hi) as (ch & _ & ->). simpl.
      rewrite Nat2Z.inj_mod, Nat2Z.inj_div. reflexivity.
  - intros i Hi. destruct (Hall i Hi) as (ch & Hch' & ->). simpl.
    split; [now apply char_to_tile_valid | reflexivity].
Qed.

(** ** The scan *)

Lemma locate_spec i tiles s e :
  locate i tiles s e
  = (List.map (fun t => set_state t state_reset) tiles,
     (last_index t_start i tiles s, last_index t_end i tiles e)).
Proof.
  revert i s e. induction tiles as [|t tiles IH]; intros i s e; simpl; [reflexivity|].
  now rewrite IH.
Qed.

Lemma last_index_none ty i tiles :
  last_index ty i tiles None = None <-> ~ has_type ty tiles.
Proof.
  assert (forall i acc, last_index ty i tiles acc = None
                        <-> acc = None /\ ~ has_type ty tiles) as H.
  { clear i. induction tiles as [|t tiles IH]; intros i acc; simpl.
    - split; [intros ->; split; [reflexivity|]; intros (t & [] & _) | tauto].
    - rewrite IH. unfold has_type. destruct (tile_e_eqb (type t) ty) eqn:Et.
      + apply tile_e_eqb_eq in Et. split; [intros (? & _); discriminate|].
        intros (_ & Hn). exfalso. apply Hn. exists t. simpl. auto.
      + apply tile_e_eqb_neq in Et. split; intros (Ha & Hn); (split; [assumption|]).
        * intros (t' & [<-|Hin] & Ht'); [congruence|]. apply Hn. eauto.
        * intros (t' & Hin & Ht'). apply Hn. exists t'. simpl. auto. }
  rewrite H. tauto.
Qed.

Lemma last_index_some ty tiles k :
  last_index ty 0 tiles None = Some k <-> last_of ty tiles k.
Proof.
  assert (forall i acc k, last_index ty i tiles acc = Some k ->
            (acc = Some k /\ ~ has_type ty tiles)
            \/ (i <= k)%nat /\ last_of ty tiles (k - i)) as H.
  { induction tiles as [|t tiles IH]; intros i acc k'; simpl.
    - intros ->. left. split; [reflexivity|]. intros (t & [] & _).
    - intros Hl. apply IH in Hl as [(Hacc & Hn)|(Hle & Hlast)].
      + destruct (tile_e_eqb (type t) ty) eqn:Et.
        * injection Hacc as <-. right. split; [lia|].
          rewrite Nat.sub_diag. apply tile_e_eqb_eq in Et.
          split; [simpl; lia|]. split; [assumption|].
          intros j (Hj1 & Hj2) Hty. apply Hn.
          destruct j as [|j]; [lia|]. simpl in Hj2.
          destruct (lookup_lt_is_Some_2 tiles j ltac:(lia)) as (t' & Ht').
          exists t'. split; [apply list_elem_of_In; eapply list_elem_of_lookup_2; eauto|].
          unfold tile_at in Hty. simpl in Hty. now rewrite Ht' in Hty.
        * left. split; [assumption|]. apply tile_e_eqb_neq in Et.
          intros (t' & [<-|Hin] & Ht'); [congruence|]. apply Hn. exists t'. auto.
      + right. split; [lia|].
        replace (k' - i)%nat with (Datatypes.S (k' - Datatypes.S i)) by lia.
        destruct Hlast as (H1 & H2 & H3). split; [simpl; lia|]. split; [assumption|].
        intros j (Hj1 & Hj2). destruct j as [|j]; [lia|].
        apply (H3 j). simpl in Hj2. lia. }
  split.
  - intros Hl. apply H in Hl as [(? & _)|(_ & Hl)]; [discriminate|].
    now rewrite Nat.sub_0_r in Hl.
  - intros (Hk & Hty & Hlast).
    destruct (last_index ty 0 tiles None) as [k'|] eqn:Hl.
    + apply H in Hl as [(? & _)|(_ & (Hk' & Hty' & Hlast'))]; [discriminate|].
      rewrite Nat.sub_0_r in *. f_equal.
      destruct (Nat.lt_trichotomy k k') as [Hlt|[->|Hgt]]; [|reflexivity|].
      * exfalso. apply (Hlast k'); [lia | assumption].
      * exfalso. apply (Hlast' k); [lia | assumption].
    + apply last_index_none in Hl. exfalso. apply Hl.
      destruct (lookup_lt_is_Some_2 tiles k Hk) as (t & Ht).
      exists t. split; [apply list_elem_of_In; eapply list_elem_of_lookup_2; eauto|].
      unfold tile_at in Hty. now rewrite Ht in Hty.
Qed.

(** ** The state the search starts from *)

Lemma tile_at_reset tiles i :
  type (tile_at (List.map (fun t => set_state t state_reset) tiles) i) = type (tile_at tiles i)
  /\ pos (tile_at (List.map (fun t => set_state t state_reset) tiles) i) = pos (tile_at tiles i)
  /\ state (tile_at (List.map (fun t => set_state t state_reset) tiles) i) = state_reset.
Proof.
  unfold tile_at. change (List.map ?f tiles) with (f <$> tiles).
  rewrite list_lookup_fmap. destruct (tiles !! i); simpl; auto.
Qed.

Lemma grid_ok_reset sz tiles :
  grid_ok sz tiles -> grid_ok sz (List.map (fun t => set_state t state_reset) tiles).
Proof.
  intros (Hw & Hh & Hlen & Hpos). unfold grid_ok. rewrite length_map.
  repeat split; try assumption.
  intros i Hi. destruct (tile_at_reset tiles i) as (_ & -> & _). now apply Hpos.
Qed.

Lemma sumf_zeros f (l : list Z) :
  (forall v, In v l -> v = 0) -> sumf f l = Z.of_nat (length l) * f 0.
Proof.
  induction l as [|v l IH]; intros H; simpl sumf; simpl length; [lia|].
  rewrite (H v) by now left. rewrite IH by (intros w Hw; apply H; now right). lia.
Qed.

Section Init.
Variable sz : ivec2.
Variable S : nat.
Variable tiles0 : list tile_t.
Hypothesis Hgrid : grid_ok sz tiles0.
Hypothesis Hreset : forall i, state (tile_at tiles0 i) = state_reset.
Hypothesis HS : (S < length tiles0)%nat.

Lemma init_tile i :
  tile_at (s_map (search_init S tiles0)) i
  = if decide (i = S)
    then mk_tile (type (tile_at tiles0 S)) (pos (tile_at tiles0 S)) (mk_state dir_e 0 0 0)
    else tile_at tiles0 i.
Proof.
  unfold search_init. simpl. case_decide as Hi.
  - subst i. rewrite tile_at_insert_eq by assumption. now rewrite Hreset.
  - now rewrite tile_at_insert_ne by congruence.
Qed.

Lemma init_G i : G (s_map (search_init S tiles0)) i = 0.
Proof. unfold G. rewrite init_tile. case_decide; [reflexivity | now rewrite Hreset]. Qed.

Lemma init_D i :
  D (s_map (search_init S tiles0)) i = if decide (i = S) then dir_e else dir_none.
Proof. unfold D. rewrite init_tile. case_decide; [reflexivity | now rewrite Hreset]. Qed.

Lemma init_inv : search_inv sz S tiles0 (search_init S tiles0).
Proof.
  constructor.
  - simpl. apply length_insert.
  - intros i. rewrite init_tile. case_decide; [now subst | reflexivity].
  - intros i. rewrite init_tile. case_decide; [now subst | reflexivity].
  - intros i. rewrite init_G. lia.
  - intros i. rewrite init_D. case_decide; [right; unfold valid_dir, dir_e; lia | now left].
  - intros i. rewrite init_G. lia.
  - intros i Hi. rewrite init_D, decide_False by assumption.
    unfold valid_dir, dir_none. lia.
  - rewrite init_D, decide_True by reflexivity. unfold valid_dir, dir_e. lia.
  - simpl. intros x [<-|[]]. split; [assumption|].
    change (valid_dir (D (s_map (search_init S tiles0)) S)).
    rewrite init_D, decide_True by reflexivity. unfold valid_dir, dir_e. lia.
  - intros i _. rewrite init_G. lia.
  - intros i. rewrite init_G. lia.
  - intros i. rewrite init_D, init_G. case_decide as Hi; [|unfold valid_dir, dir_none; lia].
    subst i. intros _. exists []. split; [split; [constructor | reflexivity]|].
    split; [reflexivity|]. split; [reflexivity|].
    simpl. intros v [<-|[]]. rewrite init_D, decide_True by reflexivity.
    unfold valid_dir, dir_e. lia.
Qed.

Lemma init_measure :
  measure (search_init S tiles0)
  = Z.of_nat (length tiles0) * (1001 * Z.of_nat (length tiles0) + 1) + 1.
Proof.
  unfold measure, potential.
  rewrite sumf_zeros.
  - rewrite length_gs. simpl. rewrite length_insert.
    unfold phi. simpl. lia.
  - intros v Hv. apply In_gs in Hv as (i & ->). apply init_G.
Qed.
End Init.

(** ** The path walk *)

Lemma lor_path_idem d : Z.lor (Z.lor d dir_path) dir_path = Z.lor d dir_path.
Proof. now rewrite <- Z.lor_assoc, Z.lor_diag. Qed.

Lemma marked_from_refl tiles : marked_from tiles tiles.
Proof. split; [reflexivity|]. intros i. repeat split; auto. Qed.

Lemma marked_from_step orig tiles curr :
  marked_from orig tiles -> 0 < G orig curr ->
  marked_from orig
    (<[curr := set_state (tile_at tiles curr)
                 (mk_state (Z.lor (dir (state (tile_at tiles curr))) dir_path)
                           (g_cost (state (tile_at tiles curr)))
                           (h_cost (state (tile_at tiles curr)))
                           (p_idx (state (tile_at tiles curr))))]> tiles).
Proof.
  intros (Hlen & Hall) Hg. split; [now rewrite length_insert|].
  intros i. destruct (Hall i) as (H1 & H2 & H3 & H4 & H5).
  destruct (decide (i = curr)) as [->|Hne].
  - destruct (Nat.lt_ge_cases curr (length tiles)) as [Hlt|Hge].
    + unfold G, P, D in *. rewrite tile_at_insert_eq by assumption. simpl.
      repeat split; try assumption. right. split; [|assumption].
      destruct H5 as [->|(-> & _)]; [reflexivity | apply lor_path_idem].
    + rewrite list_insert_ge by assumption. auto.
  - unfold G, P, D in *. rewrite tile_at_insert_ne by congruence. auto.
Qed.

Section MarkPath.
Variable S : nat.
Variable orig : list tile_t.
Hypothesis Hchain : forall i, i <> S -> 0 < G orig i ->
    P orig i = S \/ 0 < G orig (P orig i) < G orig i.

(** The walk reaches the start within as many steps as the cost of the
    tile it starts from. *)
Lemma mark_path_terminates fuel tiles curr :
  marked_from orig tiles -> curr <> S -> 0 < G orig curr ->
  (Z.to_nat (G orig curr) <= fuel)%nat ->
  exists tiles', mark_path S fuel tiles curr = Some tiles' /\ marked_from orig tiles'.
Proof.
  revert tiles curr. induction fuel as [|fuel IH]; intros tiles curr Hm Hc Hg Hf; [lia|].
  simpl. pose proof (marked_from_step orig tiles curr Hm Hg) as Hm'.
  set (tiles1 := <[curr := _]> tiles) in *.
  assert (p_idx (state (tile_at tiles curr)) = P orig curr) as ->
    by (destruct Hm as (_ & Hall); now destruct (Hall curr) as (_ & _ & _ & <- & _)).
  destruct (Nat.eqb_spec (P orig curr) S) as [Hp|Hp]; [eauto|].
  destruct (Hchain curr Hc Hg) as [?|Hlt]; [contradiction|].
  apply IH; try assumption; lia.
Qed.

Lemma mark_path_more fuel fuel' tiles curr r :
  mark_path S fuel tiles curr = Some r -> (fuel <= fuel')%nat ->
  mark_path S fuel' tiles curr = Some r.
Proof.
  revert fuel' tiles curr. induction fuel as [|fuel IH]; intros fuel' tiles curr; simpl;
    [discriminate|].
  intros H Hle. destruct fuel' as [|fuel']; [lia|]. simpl.
  destruct (Nat.eqb _ S); [assumption|]. apply IH; [assumption | lia].
Qed.
End MarkPath.
(** ** The queue of the program is a queue discipline *)

(** Moving an entry into the hole and the hole to where the entry was
    keeps the entries of the vector with the hole filled. *)
Lemma insert_hole_perm (l : list nat) i v y :
  l !! i = Some y -> Permutation (y :: <[i := v]> l) (v :: l).
Proof.
  revert i. induction l as [|a l IH]; intros [|i] H; try discriminate H; simpl in *.
  - injection H as ->. apply perm_swap.
  - rewrite perm_swap. rewrite (IH i H). apply perm_swap.
Qed.

Lemma hole_move (l : list nat) i j v p :
  i <> j -> (i < length l)%nat -> l !! j = Some p ->
  Permutation (<[j := v]> (<[i := p]> l)) (<[i := v]> l).
Proof.
  intros Hij Hi Hj.
  destruct (lookup_lt_is_Some_2 l i Hi) as (y & Hy).
  apply (Permutation_cons_inv (a := p)), (Permutation_cons_inv (a := y)).
  assert (<[i := p]> l !! j = Some p) as Hj' by (rewrite list_lookup_insert_ne; auto).
  rewrite (insert_hole_perm _ j v p Hj').
  rewrite (perm_swap v y (<[i := p]> l)), (insert_hole_perm _ i p y Hy).
  rewrite (perm_swap p y (<[i := v]> l)), (insert_hole_perm _ i v y Hy).
  apply perm_swap.
Qed.

Lemma nth_lookup_nat (l : list nat) i :
  (i < length l)%nat -> l !! i = Some (nth i l 0%nat).
Proof.
  intros Hi. destruct (nth_lookup_or_length l i 0%nat) as [H|H]; [exact H | lia].
Qed.

Lemma half_lt h : (0 < h)%nat -> ((h - 1) / 2 < h)%nat.
Proof. intros H. apply Nat.Div0.div_lt_upper_bound. lia. Qed.

Lemma push_heap_perm tiles fuel : forall first holeIndex topIndex value,
  (holeIndex < length first)%nat ->
  Permutation (push_heap tiles fuel first holeIndex topIndex value)
              (<[holeIndex := value]> first).
Proof.
  induction fuel as [|fuel IH]; intros first h top v Hh; cbn [push_heap]; [reflexivity|].
  destruct (Nat.ltb_spec top h) as [Hlt|Hge]; cbn [andb]; [|reflexivity].
  destruct (priority_fn _ _ _); [|reflexivity].
  pose proof (half_lt h ltac:(lia)) as Hp.
  rewrite IH by (rewrite length_insert; lia).
  apply hole_move; [lia | assumption | apply nth_lookup_nat; lia].
Qed.

Lemma adjust_down_perm tiles fuel : forall first holeIndex len first' holeIndex',
  adjust_down tiles fuel first holeIndex len = (first', holeIndex') ->
  (holeIndex < len)%nat -> (len <= length first)%nat ->
  (holeIndex' < len)%nat /\ length first' = length first
  /\ forall value, Permutation (<[holeIndex' := value]> first') (<[holeIndex := value]> first).
Proof.
  induction fuel as [|fuel IH]; intros first h len first' h' Heq Hh Hlen;
    cbn [adjust_down] in Heq.
  { injection Heq as <- <-. auto. }
  destruct (Nat.ltb_spec h ((len - 1) / 2)) as [Hlt|Hge];
    [|injection Heq as <- <-; auto].
  pose proof (Nat.Div0.mul_div_le (len - 1) 2) as Hhalf.
  set (sc := (2 * (h + 1))%nat) in *.
  set (c := if priority_fn tiles (nth sc first 0%nat) (nth (sc - 1) first 0%nat)
            then (sc - 1)%nat else sc) in *.
  assert (h < c < len)%nat as Hc by (unfold c, sc; destruct (priority_fn _ _ _); lia).
  apply IH in Heq as (H1 & H2 & H3); [|lia | rewrite length_insert; lia].
  rewrite length_insert in H2. split; [assumption|]. split; [assumption|].
  intros v. rewrite H3. apply hole_move; [lia | lia | apply nth_lookup_nat; lia].
Qed.

Lemma adjust_heap_perm tiles first len value :
  (0 < len)%nat -> len = length first ->
  Permutation (adjust_heap tiles first len value) (<[0%nat := value]> first).
Proof.
  intros Hpos Hlen. unfold adjust_heap.
  destruct (adjust_down tiles len first 0 len) as [first1 h1] eqn:Hd.
  apply adjust_down_perm in Hd as (H1 & H2 & H3); [|lia|lia].
  destruct (Nat.even len && Nat.eqb h1 ((len - 2) / 2)) eqn:Hlast.
  - apply andb_true_iff in Hlast as (Hev & Hh). apply Nat.eqb_eq in Hh.
    apply Nat.even_spec in Hev as (k & Hk).
    pose proof (Nat.Div0.mul_div_le (len - 2) 2) as Hhalf.
    rewrite push_heap_perm by (rewrite length_insert; lia).
    rewrite <- H3. apply hole_move; [lia | lia | apply nth_lookup_nat; lia].
  - rewrite push_heap_perm by lia. apply H3.
Qed.

(** The bounds on the rounds of the two loops are never what stops
    them: with more rounds at their disposal they compute the same. *)
Lemma push_heap_more tiles fuel : forall k first holeIndex topIndex value,
  (holeIndex <= fuel)%nat ->
  push_heap tiles (fuel + k) first holeIndex topIndex value
  = push_heap tiles fuel first holeIndex topIndex value.
Proof.
  induction fuel as [|fuel IH]; intros k first h top v Hh.
  - destruct k as [|k]; [reflexivity|]. cbn [Nat.add push_heap].
    destruct (Nat.ltb_spec top h) as [Hlt|Hge]; [lia | reflexivity].
  - cbn [Nat.add push_heap].
    destruct (Nat.ltb_spec top h) as [Hlt|Hge]; cbn [andb]; [|reflexivity].
    destruct (priority_fn _ _ _); [|reflexivity].
    apply IH. pose proof (half_lt h ltac:(lia)). lia.
Qed.

Lemma adjust_down_more tiles fuel : forall k first holeIndex len,
  (len <= fuel + holeIndex)%nat ->
  adjust_down tiles (fuel + k) first holeIndex len
  = adjust_down tiles fuel first holeIndex len.
Proof.
  induction fuel as [|fuel IH]; intros k first h len Hlen.
  - destruct k as [|k]; [reflexivity|]. cbn [Nat.add adjust_down].
    destruct (Nat.ltb_spec h ((len - 1) / 2)) as [Hlt|Hge]; [lia | reflexivity].
  - cbn [Nat.add adjust_down].
    destruct (Nat.ltb_spec h ((len - 1) / 2)) as [Hlt|Hge]; [|reflexivity].
    apply IH. destruct (priority_fn _ _ _); lia.
Qed.

Lemma pq_push_ok : push_ok pq_push.
Proof.
  intros tiles q n. unfold pq_push.
  rewrite push_heap_perm by (rewrite length_app; simpl; lia).
  replace (<[length q := n]> (q ++ [n])) with (q ++ [n]).
  - apply Permutation_cons_append.
  - rewrite insert_app_r_alt by lia. now rewrite Nat.sub_diag.
Qed.

Lemma length_removelast_cons (x : nat) l : length (removelast (x :: l)) = length l.
Proof.
  revert x. induction l as [|y l IH]; intros x; [reflexivity|].
  change (removelast (x :: y :: l)) with (x :: removelast (y :: l)).
  cbn [length]. now rewrite IH.
Qed.

Lemma pq_pop_ok : pop_ok pq_pop.
Proof.
  intros tiles x xs. unfold pq_pop. destruct xs as [|y ys]; cbn [fst snd]; [reflexivity|].
  apply perm_skip.
  assert (y :: ys <> []) as Hne by discriminate.
  rewrite adjust_heap_perm.
  - change (removelast (x :: y :: ys)) with (x :: removelast (y :: ys)). cbn [list_insert insert].
    rewrite (app_removelast_last 0%nat Hne) at 1.
    symmetry. apply Permutation_cons_append.
  - simpl. lia.
  - now rewrite length_removelast_cons.
Qed.

(** ** The cases of [solve] *)

Lemma eqb_minus_one_false z : 0 <= z -> (z =? -1) = false.
Proof. intros H. apply Z.eqb_neq. lia. Qed.

Lemma search_fuel_ge n : (0 < n)%nat -> (1001 * n <= search_fuel n)%nat.
Proof. unfold search_fuel. nia. Qed.

Section Solve.
Variable hfun : tile_t -> tile_t -> Z.
Variable push : list tile_t -> list nat -> nat -> list nat.
Hypothesis Hpush : push_ok push.
Variable pop : list tile_t -> nat -> list nat -> nat * list nat.
Hypothesis Hpop : pop_ok pop.
Variable file : option string.
Variable m : maze_t.
Hypothesis Hload : load file = inr m.

Let tiles0 := List.map (fun t => set_state t state_reset) (m_map m).

Lemma tiles0_grid : grid_ok (m_size m) tiles0.
Proof. apply grid_ok_reset. now destruct (load_grid_ok _ _ Hload). Qed.

Lemma tiles0_reset i : state (tile_at tiles0 i) = state_reset.
Proof. now destruct (tile_at_reset (m_map m) i) as (_ & _ & ?). Qed.

Lemma tiles0_type i : type (tile_at tiles0 i) = type (tile_at (m_map m) i).
Proof. now destruct (tile_at_reset (m_map m) i) as (? & _ & _). Qed.

Lemma tiles0_length : length tiles0 = length (m_map m).
Proof. apply length_map. Qed.

Lemma walk_tiles0 a b ds : walk (m_size m) tiles0 a b ds <-> walk (m_size m) (m_map m) a b ds.
Proof.
  assert (forall c d, step_to (m_size m) tiles0 c d = step_to (m_size m) (m_map m) c d) as Hs.
  { intros c d. apply step_to_ext; intros i; now destruct (tile_at_reset (m_map m) i) as (? & ? & _). }
  unfold walk. assert (follow (m_size m) tiles0 a ds = follow (m_size m) (m_map m) a ds) as ->; [|tauto].
  revert a. induction ds as [|d ds IH]; intros a; simpl; [reflexivity|].
  rewrite Hs. destruct (step_to _ _ a d); auto.
Qed.

(** What a run of [solve] is, for a maze that has a start [S] and an
    end [E] and enough fuel. *)
Lemma solve_with_found S E fuel t :
  start_of m = Some S -> end_of m = Some E ->
  (search_fuel (length (m_map m)) <= fuel)%nat ->
  (S < length tiles0)%nat /\ (E < length tiles0)%nat /\ S <> E
  /\ exists st cost,
      search_loop hfun push pop (m_size m) E fuel (search_init S tiles0) = Some (st, cost)
      /\ search_inv (m_size m) S tiles0 st
      /\ ((cost = -1 /\ s_pq st = []
           /\ solve_with hfun push pop fuel t m
              = Returns (mk_maze (m_size m) (s_map st) t (s_count st) (-1), no_path_line))
          \/ (cost = G (s_map st) E /\ 0 < cost /\ valid_dir (D (s_map st) E)
              /\ exists tiles',
                  mark_path S fuel (s_map st) E = Some tiles'
                  /\ marked_from (s_map st) tiles'
                  /\ solve_with hfun push pop fuel t m
                     = Returns (mk_maze (m_size m) tiles' t (s_count st) cost, ""))).
Proof.
  intros HS HE Hfuel. unfold start_of, end_of in *.
  rewrite locate_spec in HS, HE. cbn [fst snd] in HS, HE.
  pose proof HS as HS'. apply last_index_some in HS as (HS1 & HS2 & _).
  pose proof HE as HE'. apply last_index_some in HE as (HE1 & HE2 & _).
  assert (S <> E) as Hne by (intros ->; congruence).
  rewrite <- tiles0_length in HS1, HE1.
  split; [assumption|]. split; [assumption|]. split; [assumption|].
  pose proof (init_inv (m_size m) S tiles0 tiles0_reset HS1) as I0.
  pose proof (init_measure S tiles0 tiles0_reset HS1) as M0.
  destruct (search_loop_terminates hfun push Hpush pop (m_size m) S E tiles0 tiles0_grid Hpop fuel
              (search_init S tiles0) I0) as ((st & cost) & Hloop).
  { rewrite M0. rewrite tiles0_length. unfold search_fuel in Hfuel. lia. }
  exists st, cost. split; [assumption|].
  pose proof (search_loop_keeps_inv hfun push Hpush pop (m_size m) S E tiles0 tiles0_grid Hpop
                _ _ _ _ I0 Hloop) as I.
  split; [assumption|].
  assert ((cost = -1 /\ s_pq st = [])
          \/ (cost = G (s_map st) E /\ valid_dir (D (s_map st) E))) as Hres.
  { revert Hloop. revert I0.
    apply (search_loop_rule hfun push pop (m_size m) E (search_inv (m_size m) S tiles0)
             (fun r c => (c = -1 /\ s_pq r = [])
                         \/ (c = G (s_map r) E /\ valid_dir (D (s_map r) E)))).
    - auto.
    - intros st' x xs rest I' Hpq Hp. right. split; [reflexivity|]. simpl.
      destruct (pop_ok_in _ _ _ _ _ _ Hpop Hp) as (Hin & _).
      apply (inv_pq _ _ _ _ I'). now rewrite Hpq.
    - intros st' x xs c rest I' Hpq Hp _.
      destruct (pop_inv pop (m_size m) S tiles0 Hpop _ _ _ _ _ I' Hpq Hp) as (I1 & C1 & _).
      now destruct (expand_inv hfun push Hpush (m_size m) S E tiles0 tiles0_grid _ c I1 C1). }
  unfold solve_with. rewrite locate_spec.
  rewrite HS', HE'. fold tiles0. rewrite Hloop.
  destruct Hres as [(-> & Hpq)|(-> & Hd)].
  - left. split; [reflexivity|]. split; [assumption|]. reflexivity.
  - right. pose proof (inv_dg _ _ _ _ I E (not_eq_sym Hne) Hd) as Hg.
    split; [reflexivity|]. split; [assumption|]. split; [assumption|].
    rewrite eqb_minus_one_false by lia.
    destruct (mark_path_terminates S (s_map st)
                (fun i Hi Hgi => proj2 (inv_chain _ _ _ _ I i Hi Hgi))
                fuel (s_map st) E (marked_from_refl _) (not_eq_sym Hne) Hg)
      as (tiles' & Hmark & Hmf).
    { pose proof (inv_count _ _ _ _ I E Hg) as HJ.
      pose proof (sumf_ind_bounds (G (s_map st) E) (gs (s_map st))) as HB.
      rewrite length_gs, (inv_len _ _ _ _ I), tiles0_length in HB.
      pose proof (search_fuel_ge (length (m_map m))) as HF.
      rewrite tiles0_length in HS1. specialize (HF ltac:(lia)). lia. }
    exists tiles'. rewrite Hmark. auto.
Qed.

Lemma solve_with_throws fuel t :
  start_of m = None \/ end_of m = None ->
  solve_with hfun push pop fuel t m = Throws config_error.
Proof.
  unfold start_of, end_of, solve_with.
  destruct (locate 0 (m_map m) None None) as (tiles & ([S|] & [E|])); simpl;
    intros [H|H]; congruence.
Qed.
End Solve.

(** More fuel does not change what [solve] gives. *)
Lemma solve_with_more hfun push pop fuel fuel' t m :
  solve_with hfun push pop fuel t m <> Diverges -> (fuel <= fuel')%nat ->
  solve_with hfun push pop fuel' t m = solve_with hfun push pop fuel t m.
Proof.
  unfold solve_with. destruct (locate 0 (m_map m) None None) as (tiles & ([S|] & [E|]));
    try reflexivity.
  intros H Hle.
  destruct (search_loop hfun push pop (m_size m) E fuel (search_init S tiles)) as [(st & cost)|] eqn:L;
    [|congruence].
  rewrite (search_loop_more _ _ _ _ _ _ _ _ _ L Hle).
  destruct (cost =? -1); [reflexivity|].
  destruct (mark_path S fuel (s_map st) E) as [tiles'|] eqn:Mk; [|congruence].
  now rewrite (mark_path_more _ _ _ _ _ _ Mk Hle).
Qed.

Lemma solve_with_total hfun push pop file m fuel t :
  push_ok push -> pop_ok pop -> load file = inr m ->
  (search_fuel (length (m_map m)) <= fuel)%nat ->
  solve_with hfun push pop fuel t m <> Diverges.
Proof.
  intros Hpush Hpop Hload Hfuel.
  destruct (start_of m) as [S|] eqn:HS; [|rewrite (solve_with_throws hfun push pop m); auto; discriminate].
  destruct (end_of m) as [E|] eqn:HE; [|rewrite (solve_with_throws hfun push pop m); auto; discriminate].
  destruct (solve_with_found hfun push Hpush pop Hpop file m Hload S E fuel t HS HE Hfuel)
    as (_ & _ & _ & st & cost & _ & _ & [(_ & _ & ->)|(_ & _ & _ & tiles' & _ & _ & ->)]);
    discriminate.
Qed.

(** ** C9: termination *)

(** C9. For every loaded grid [solve] terminates. A tile is pushed only
    when its cost is assigned for the first time (it was 0) or strictly
    decreased, costs are never negative, and so the loop of the search
    stops after finitely many rounds; when a path is found the walk over
    the parent indices reaches the start after finitely many steps: with
    [search_fuel] rounds at its disposal the run returns or throws, for
    every heuristic and every queue discipline, and more fuel gives the
    same result. *)
Theorem solve_terminates hfun push pop file m t fuel :
  push_ok push -> pop_ok pop -> load file = inr m ->
  (search_fuel (length (m_map m)) <= fuel)%nat ->
  (forall e c st d,
     let st' := explore hfun push (m_size m) e c st d in
     s_pq st' = s_pq st
     \/ exists n, s_pq st' = push (s_map st') (s_pq st) n
          /\ (G (s_map st) n = 0 \/ candidate (s_map st) c d < G (s_map st) n))
  /\ solve_with hfun push pop fuel t m <> Diverges
  /\ solve_with hfun push pop fuel t m
     = solve_with hfun push pop (search_fuel (length (m_map m))) t m.
Proof.
  intros Hpush Hpop Hload Hfuel. split; [|split].
  - intros e c st d. cbv zeta. rewrite explore_unfold.
    destruct (step_to (m_size m) (s_map st) c d) as [n|]; [|now left].
    destruct (improves (s_map st) c d n) eqn:Himp; [|now left].
    right. exists n. split; [reflexivity|]. now apply improves_spec.
  - eapply solve_with_total; eassumption.
  - apply solve_with_more; [|assumption].
    eapply solve_with_total; [eassumption | eassumption | eassumption | lia].
Qed.

(** ** C3: a missing start or end *)

Lemma solve_with_throws_inv hfun push pop fuel t m e :
  solve_with hfun push pop fuel t m = Throws e ->
  e = config_error /\ (start_of m = None \/ end_of m = None).
Proof.
  unfold solve_with, start_of, end_of.
  destruct (locate 0 (m_map m) None None) as (tiles & ([S|] & [E|])); cbn [fst snd];
    try (intros [= <-]; auto).
  destruct (search_loop _ _ _ _ _ _) as [(st & cost)|]; [|discriminate].
  destruct (cost =? -1); [discriminate|].
  destruct (mark_path _ _ _ _); discriminate.
Qed.

(** C3 (amended). [solve] throws exactly when the maze has no start tile
    or no end tile, and the error is then the one that says a start and
    an end are needed; a maze with several starts or ends is not
    rejected, and the indices the search runs between are those of the
    last start tile and of the last end tile the scan meets. *)
Theorem solve_config_error hfun push pop fuel t m :
  (solve_with hfun push pop fuel t m = Throws config_error
   <-> ~ has_type t_start (m_map m) \/ ~ has_type t_end (m_map m))
  /\ (forall e, solve_with hfun push pop fuel t m = Throws e -> e = config_error)
  /\ (forall k, start_of m = Some k <-> last_of t_start (m_map m) k)
  /\ (forall k, end_of m = Some k <-> last_of t_end (m_map m) k).
Proof.
  assert (start_of m = last_index t_start 0 (m_map m) None) as HS
    by (unfold start_of; now rewrite locate_spec).
  assert (end_of m = last_index t_end 0 (m_map m) None) as HE
    by (unfold end_of; now rewrite locate_spec).
  split; [|split; [|split]].
  - rewrite <- !last_index_none, <- HS, <- HE. split.
    + intros H. now apply solve_with_throws_inv in H as (_ & H).
    + apply solve_with_throws.
  - intros e H. now apply solve_with_throws_inv in H.
  - intros k. rewrite HS. apply last_index_some.
  - intros k. rewrite HE. apply last_index_some.
Qed.

(** A maze with two starts loads and is solved; the search starts from
    the second start, not from the first. *)
Lemma two_starts_are_not_rejected :
  exists m r,
    load (Some "SSE") = inr m
    /\ type (tile_at (m_map m) 0) = t_start /\ type (tile_at (m_map m) 1) = t_start
    /\ solve 0 m = Returns r
    /\ start_of m = Some 1%nat
    /\ first_of t_start (m_map m) 0.
Proof.
  eexists. eexists. split; [reflexivity|]. split; [reflexivity|]. split; [reflexivity|].
  split; [vm_compute; reflexivity|]. split; [reflexivity|].
  split; [simpl; lia|]. split; [reflexivity|]. intros j Hj. lia.
Qed.

(** ** C4: the state of the start tile *)

(** C4. The claim is that the state of the start tile is never
    overwritten; the code does overwrite it. On the maze [S.E] the tile
    east of the start is expanded before the end is popped, and its move
    back west finds the cost 0 of the start, takes it for "not visited"
    and relaxes the start: after the run the start has cost 1002, faces
    west and has the tile east of it as parent. *)
Theorem start_state_is_overwritten :
  exists m m' err,
    load (Some "S.E") = inr m
    /\ start_of m = Some 0%nat
    /\ solve 0 m = Returns (m', err)
    /\ path_cost m' = 2
    /\ state (tile_at (m_map m') 0) = mk_state dir_w 1002 1002 1.
Proof.
  eexists. eexists. eexists. split; [reflexivity|]. split; [reflexivity|].
  split; [vm_compute; reflexivity|]. split; reflexivity.
Qed.

(** ** Running the loop by hand, for every queue discipline *)

Ltac vm_step t :=
  let x := eval vm_compute in t in
  let H := fresh in
  assert (t = x) as H by (vm_compute; reflexivity); rewrite H; clear H.

Lemma pop_single pop tiles x : pop_ok pop -> pop tiles x [] = (x, []).
Proof.
  intros Hpop. specialize (Hpop tiles x []).
  destruct (pop tiles x []) as [c rest]. simpl in Hpop.
  apply Permutation_length_1_inv in Hpop. now injection Hpop as <- <-.
Qed.

Lemma pop_pair pop tiles x y :
  pop_ok pop -> pop tiles x [y] = (x, [y]) \/ pop tiles x [y] = (y, [x]).
Proof.
  intros Hpop. specialize (Hpop tiles x [y]).
  destruct (pop tiles x [y]) as [c rest]. simpl in Hpop.
  apply Permutation_length_2_inv in Hpop as [H|H]; injection H as <- <-; auto.
Qed.

Lemma push_single push tiles n : push_ok push -> push tiles [] n = [n].
Proof.
  intros Hpush. specialize (Hpush tiles [] n).
  now apply Permutation_length_1_inv in Hpush.
Qed.

Lemma push_pair push tiles x n :
  push_ok push -> push tiles [x] n = [n; x] \/ push tiles [x] n = [x; n].
Proof.
  intros Hpush. specialize (Hpush tiles [x] n).
  apply Permutation_length_2_inv in Hpush as [H|H]; auto.
Qed.

Lemma search_loop_step hfun push pop sz E fuel tiles x xs cnt c rest :
  pop tiles x xs = (c, rest) ->
  search_loop hfun push pop sz E (S fuel) (mk_search tiles (x :: xs) cnt)
  = if Nat.eqb c E then Some (mk_search tiles rest cnt, G tiles c)
    else search_loop hfun push pop sz E fuel (expand hfun push sz E c (mk_search tiles rest cnt)).
Proof. intros H. simpl. rewrite H. reflexivity. Qed.

(** The loop goes on from the state its first rounds lead to. *)
Lemma search_loop_rounds hfun push pop sz E n : forall fuel st st',
  search_rounds hfun push pop sz E n st = Some st' ->
  search_loop hfun push pop sz E (n + fuel) st = search_loop hfun push pop sz E fuel st'.
Proof.
  induction n as [|n IH]; intros fuel st st' H; cbn [search_rounds] in H.
  - now apply (inj Some) in H as ->.
  - cbn [Nat.add search_loop]. destruct (s_pq st) as [|x xs]; [discriminate|].
    destruct (pop (s_map st) x xs) as [c rest].
    destruct (Nat.eqb c E); [discriminate|]. now apply IH.
Qed.

Ltac end_first :=
  change (Nat.eqb 2 2) with true; cbv iota; vm_compute; reflexivity.

Ltac start_first :=
  change (Nat.eqb 0 2) with false; cbv iota;
  match goal with |- context [expand ?h ?p ?a ?b ?c ?d] => vm_step (expand h p a b c d) end;
  match goal with |- context [search_loop _ _ ?pop _ _ _ (mk_search ?tl [?x] _)] =>
    rewrite (search_loop_step _ _ _ _ _ _ _ _ _ _ _ _ (pop_single pop tl x ltac:(assumption)))
  end;
  end_first.

(** The same for every queue discipline: whichever of the end and the
    start the queue hands out first, the start has been overwritten by
    then. *)
Lemma start_overwritten_any_queue push pop fuel t m :
  push_ok push -> pop_ok pop -> (4 <= fuel)%nat -> load (Some "S.E") = inr m ->
  match solve_with heuristic push pop fuel t m with
  | Returns (m', _) => state (tile_at (m_map m') 0) = mk_state dir_w 1002 1002 1
  | _ => False
  end.
Proof.
  intros Hpush Hpop Hfuel Hl.
  do 4 (destruct fuel as [|fuel]; [lia|]).
  vm_compute in Hl. injection Hl as <-.
  unfold solve_with.
  match goal with |- context [locate ?a ?b ?c ?d] => vm_step (locate a b c d) end.
  cbv iota beta.
  match goal with |- context [search_init ?a ?b] => vm_step (search_init a b) end.
  rewrite (search_loop_step _ _ _ _ _ _ _ _ _ _ _ _ (pop_single pop _ 0%nat Hpop)).
  change (Nat.eqb 0 2) with false. cbv iota.
  match goal with |- context [expand ?h ?p ?a ?b ?c ?d] => vm_step (expand h p a b c d) end.
  rewrite (push_single push _ _ Hpush).
  rewrite (search_loop_step _ _ _ _ _ _ _ _ _ _ _ _ (pop_single pop _ 1%nat Hpop)).
  change (Nat.eqb 1 2) with false. cbv iota.
  match goal with |- context [expand ?h ?p ?a ?b ?c ?d] => vm_step (expand h p a b c d) end.
  rewrite (push_single push _ _ Hpush).
  match goal with |- context [push ?tl [?x] ?n] =>
    destruct (push_pair push tl x n Hpush) as [Hq | Hq]; rewrite Hq; clear Hq end;
  (match goal with |- context [search_loop _ _ _ _ _ _ (mk_search ?tl [?x; ?y] _)] =>
     destruct (pop_pair pop tl x y Hpop) as [Hp | Hp] end;
   rewrite (search_loop_step _ _ _ _ _ _ _ _ _ _ _ _ Hp)).
  - start_first.
  - end_first.
  - end_first.
  - start_first.
Qed.

(** ** What a returned maze is *)

Lemma solve_with_returns hfun push pop file m fuel t m' err :
  push_ok push -> pop_ok pop -> load file = inr m ->
  solve_with hfun push pop fuel t m = Returns (m', err) ->
  exists S E st,
    start_of m = Some S /\ end_of m = Some E
    /\ search_inv (m_size m) S (List.map (fun t => set_state t state_reset) (m_map m)) st
    /\ marked_from (s_map st) (m_map m')
    /\ m_size m' = m_size m /\ solve_time m' = t /\ search_count m' = s_count st
    /\ ((path_cost m' = -1 /\ err = no_path_line /\ m_map m' = s_map st)
        \/ (path_cost m' = G (s_map st) E /\ 0 < path_cost m' /\ err = ""
            /\ valid_dir (D (s_map st) E))).
Proof.
  intros Hpush Hpop Hload Hret.
  set (F := Nat.max fuel (search_fuel (length (m_map m)))).
  assert (solve_with hfun push pop F t m = Returns (m', err)) as HF.
  { rewrite <- Hret. apply solve_with_more; [rewrite Hret; discriminate | unfold F; lia]. }
  destruct (start_of m) as [S|] eqn:HS;
    [|rewrite (solve_with_throws hfun push pop m) in HF by auto; discriminate].
  destruct (end_of m) as [E|] eqn:HE;
    [|rewrite (solve_with_throws hfun push pop m) in HF by auto; discriminate].
  destruct (solve_with_found hfun push Hpush pop Hpop file m Hload S E F t HS HE ltac:(unfold F; lia))
    as (_ & _ & _ & st & cost & _ & I & Hcases).
  exists S, E, st. split; [reflexivity|]. split; [reflexivity|]. split; [assumption|].
  destruct Hcases as [(-> & _ & Hs)|(-> & Hg & Hd & tiles' & _ & Hmf & Hs)];
    rewrite Hs in HF; injection HF as <- <-; simpl.
  - split; [apply marked_from_refl|]. do 3 (split; [reflexivity|]). left. auto.
  - split; [assumption|]. do 3 (split; [reflexivity|]). right. auto.
Qed.

(** ** Glyphs *)

Lemma valid_dir_cases d : valid_dir d -> d = 0 \/ d = 1 \/ d = 2 \/ d = 3.
Proof. unfold valid_dir. lia. Qed.

Lemma allowed_char_tile ch :
  allowed_char ch ->
  (ch = "."%char /\ char_to_tile ch = t_empty) \/ (ch = "#"%char /\ char_to_tile ch = t_wall)
  \/ (ch = "S"%char /\ char_to_tile ch = t_start) \/ (ch = "E"%char /\ char_to_tile ch = t_end).
Proof. intros [-> | [-> | [-> | ->]]]; auto. Qed.

Lemma tile_to_char_unmarked t :
  dir (state t) = dir_none \/ valid_dir (dir (state t)) ->
  is_path_glyph (tile_to_char t) = false
  /\ forall ch, allowed_char ch -> type t = char_to_tile ch -> tile_to_char t = ch.
Proof.
  intros Hd.
  assert (Z.land (dir (state t)) dir_path = 0) as Hland.
  { destruct Hd as [->|Hd]; [reflexivity|].
    destruct (valid_dir_cases _ Hd) as [-> | [-> | [-> | ->]]]; reflexivity. }
  unfold tile_to_char. rewrite Hland. simpl. split.
  - destruct (type t); reflexivity.
  - intros ch Hch Ht. rewrite Ht.
    destruct (allowed_char_tile ch Hch) as [(-> & ->) | [(-> & ->) | [(-> & ->) | (-> & ->)]]];
      reflexivity.
Qed.

Lemma tile_to_char_marked t d ch :
  valid_dir d -> dir (state t) = Z.lor d dir_path ->
  allowed_char ch -> type t = char_to_tile ch ->
  tile_to_char t = ch \/ is_path_glyph (tile_to_char t) = true.
Proof.
  intros Hd Hdir Hch Ht. unfold tile_to_char. rewrite Hdir, Ht.
  destruct (valid_dir_cases _ Hd) as [-> | [-> | [-> | ->]]];
    destruct (allowed_char_tile ch Hch) as [(-> & ->) | [(-> & ->) | [(-> & ->) | (-> & ->)]]];
    vm_compute; auto.
Qed.

(** ** Rows *)

Lemma restore_row_map (f : nat -> ascii) (l : list ascii) a :
  (forall k ch, l !! k = Some ch ->
     f (a + k)%nat = ch \/ is_path_glyph (f (a + k)%nat) = true) ->
  restore_row (List.map f (seq a (length l))) l = l.
Proof.
  revert a. induction l as [|ch l IH]; intros a H; [reflexivity|].
  simpl. f_equal.
  - specialize (H 0%nat ch eq_refl). rewrite Nat.add_0_r in H.
    destruct H as [-> | ->]; [|reflexivity]. now destruct (is_path_glyph ch).
  - apply IH. intros k ch' Hk. specialize (H (Datatypes.S k) ch' Hk).
    now rewrite Nat.add_succ_r in H.
Qed.

Lemma restore_rows_map (g : nat -> list ascii) (lines : list (list ascii)) a :
  (forall r l, lines !! r = Some l -> restore_row (g (a + r)%nat) l = l) ->
  restore_rows (List.map g (seq a (length lines))) lines = lines.
Proof.
  revert a. induction lines as [|l lines IH]; intros a H; [reflexivity|].
  simpl. f_equal.
  - specialize (H 0%nat l eq_refl). now rewrite Nat.add_0_r in H.
  - apply IH. intros r l' Hr. specialize (H (Datatypes.S r) l' Hr).
    now rewrite Nat.add_succ_r in H.
Qed.

Lemma restore_row_no_glyph r o :
  (forall c, In c r -> is_path_glyph c = false) -> restore_row r o = r.
Proof.
  revert o. induction r as [|c r IH]; intros o H; [reflexivity|].
  destruct o as [|c' o]; [reflexivity|]. simpl.
  rewrite (H c) by now left. f_equal. apply IH. intros c0 Hc0. apply H. now right.
Qed.

Lemma restore_rows_no_glyph rs os :
  (forall r c, In r rs -> In c r -> is_path_glyph c = false) -> restore_rows rs os = rs.
Proof.
  revert os. induction rs as [|r rs IH]; intros os H; [reflexivity|].
  destruct os as [|o os]; [reflexivity|]. simpl. f_equal.
  - apply restore_row_no_glyph. intros c Hc. apply (H r c); auto. now left.
  - apply IH. intros r0 c Hr0 Hc. apply (H r0 c); auto. now right.
Qed.

Lemma map_seq_eq {A} (f : nat -> A) (l : list A) a :
  (forall k x, l !! k = Some x -> f (a + k)%nat = x) ->
  List.map f (seq a (length l)) = l.
Proof.
  revert a. induction l as [|x l IH]; intros a H; [reflexivity|].
  simpl. f_equal.
  - specialize (H 0%nat x eq_refl). now rewrite Nat.add_0_r in H.
  - apply IH. intros k y Hk. specialize (H (Datatypes.S k) y Hk).
    now rewrite Nat.add_succ_r in H.
Qed.

(** The rendered rows of a returned maze, tile by tile: the tile at row
    [r] and column [k] has the type of the character the input has
    there, and its facing is [none], a direction, or a direction with the
    path bits. *)
Lemma rendered_rows hfun push pop file m fuel t m' err :
  push_ok push -> pop_ok pop -> load file = inr m ->
  solve_with hfun push pop fuel t m = Returns (m', err) ->
  exists text w,
    file = Some text
    /\ render_rows m'
       = List.map (fun r => List.map (fun k => tile_to_char (tile_at (m_map m') (r * w + k)))
                                    (seq 0 w))
                  (seq 0 (length (usable_lines text)))
    /\ (forall l, In l (usable_lines text) -> length l = w)
    /\ forall r l k ch, usable_lines text !! r = Some l -> l !! k = Some ch ->
         allowed_char ch
         /\ type (tile_at (m_map m') (r * w + k)) = char_to_tile ch
         /\ (D (m_map m') (r * w + k) = dir_none
             \/ valid_dir (D (m_map m') (r * w + k))
             \/ exists d, valid_dir d /\ D (m_map m') (r * w + k) = Z.lor d dir_path).
Proof.
  intros Hpush Hpop Hload Hret.
  destruct (solve_with_returns _ _ _ _ _ _ _ _ _ Hpush Hpop Hload Hret)
    as (S & E & st & _ & _ & I & (_ & Hmf) & Hsz & _).
  destruct (load_structure _ _ Hload)
    as (text & lines & w & -> & Hlines & Hw & Hw0 & Hh0 & Hlw & Hch & Hsize & _ & _ & _ & _ & Hlk).
  exists text, w. rewrite <- Hlines. split; [reflexivity|]. split; [|split; [assumption|]].
  - unfold render_rows, render_row. rewrite Hsz, Hsize. cbn [vx vy]. rewrite !Nat2Z.id.
    apply map_ext. intros r. apply map_ext. intros k. do 2 f_equal.
    unfold idx. cbn [vx]. lia.
  - intros r l k ch Hr Hk.
    assert (In l lines) as Hin by (apply list_elem_of_In; eapply list_elem_of_lookup_2; eauto).
    assert (In ch l) as Hinc by (apply list_elem_of_In; eapply list_elem_of_lookup_2; eauto).
    split; [exact (Hch l ch Hin Hinc)|].
    destruct (Hmf (r * w + k)%nat) as (Ht & _ & _ & _ & Hd).
    split.
    + rewrite Ht, (inv_type _ _ _ _ I).
      destruct (tile_at_reset (m_map m) (r * w + k)) as (-> & _).
      now rewrite (Hlk _ _ _ _ Hr Hk).
    + destruct Hd as [Hd|(Hd & Hpos)].
      * rewrite Hd. destruct (inv_dir _ _ _ _ I (r * w + k)%nat) as [H|H]; auto.
      * right. right. exists (D (s_map st) (r * w + k)). split; [|exact Hd].
        now apply (inv_gd _ _ _ _ I).
Qed.

(** ** C6: load followed by render *)

(** C6. For every maze that loads and is solved, the rows of the rendered
    grid, with every path glyph replaced by the glyph the input has at
    its place, are the rows of the input, and so is their text. *)
Theorem render_round_trip hfun push pop file m fuel t m' err :
  push_ok push -> pop_ok pop -> load file = inr m ->
  solve_with hfun push pop fuel t m = Returns (m', err) ->
  exists text,
    file = Some text
    /\ restore_rows (render_rows m') (usable_lines text) = usable_lines text
    /\ grid_text (restore_rows (render_rows m') (usable_lines text))
       = grid_text (usable_lines text).
Proof.
  intros Hpush Hpop Hload Hret.
  destruct (rendered_rows _ _ _ _ _ _ _ _ _ Hpush Hpop Hload Hret) as (text & w & -> & Hrows & Hlw & Hat).
  exists text. split; [reflexivity|].
  assert (restore_rows (render_rows m') (usable_lines text) = usable_lines text) as Hrt.
  { rewrite Hrows. apply restore_rows_map. intros r l Hr. simpl.
    assert (In l (usable_lines text)) as Hin
      by (apply list_elem_of_In; eapply list_elem_of_lookup_2; eauto).
    rewrite <- (Hlw l Hin). apply restore_row_map. intros k ch Hk. simpl.
    destruct (Hat r l k ch Hr Hk) as (Hallowed & Hty & Hd).
    rewrite (Hlw l Hin).
    destruct Hd as [Hd|[Hd|(d & Hd & Hm)]].
    - left. apply tile_to_char_unmarked; auto.
    - left. apply tile_to_char_unmarked; auto.
    - eapply tile_to_char_marked; eassumption. }
  split; [exact Hrt | now rewrite Hrt].
Qed.

(** ** C7: no path *)

Lemma no_path_solve hfun push pop file m S E fuel t :
  push_ok push -> pop_ok pop -> load file = inr m ->
  start_of m = Some S -> end_of m = Some E ->
  (forall ds, ~ walk (m_size m) (m_map m) S E ds) ->
  (search_fuel (length (m_map m)) <= fuel)%nat ->
  exists m',
    solve_with hfun push pop fuel t m = Returns (m', no_path_line)
    /\ path_cost m' = -1
    /\ forall i, D (m_map m') i = dir_none \/ valid_dir (D (m_map m') i).
Proof.
  intros Hpush Hpop Hload HS HE Hno Hfuel.
  destruct (solve_with_found hfun push Hpush pop Hpop file m Hload S E fuel t HS HE Hfuel)
    as (_ & _ & _ & st & cost & _ & I & [(-> & _ & Hs)|(-> & _ & Hd & _)]).
  - eexists. split; [exact Hs|]. split; [reflexivity|]. apply (inv_dir _ _ _ _ I).
  - exfalso. destruct (inv_walk _ _ _ _ I E Hd) as (ds & Hw & _).
    apply (Hno ds). now apply (walk_tiles0 m).
Qed.

Lemma render_no_glyph m :
  (forall i, D (m_map m) i = dir_none \/ valid_dir (D (m_map m) i)) ->
  forall r c, In r (render_rows m) -> In c r -> is_path_glyph c = false.
Proof.
  intros Hd r c Hr Hc. unfold render_rows in Hr.
  apply in_map_iff in Hr as (y & <- & _). unfold render_row in Hc.
  apply in_map_iff in Hc as (x & <- & _).
  apply tile_to_char_unmarked, Hd.
Qed.

(** C7 (amended). When no walk leads from the start to the end, the run
    is not an error: [solve] returns with the line that says that no path
    was found on the error stream, the cost is the sentinel [-1] (the
    third line of the summary reads "Best path cost -1 points"), the
    rendered grid is the input grid and holds no path glyph, and when the
    output file can be written the program writes it and exits with
    code 0. *)
Theorem no_path_outcome file m S E t :
  load file = inr m ->
  start_of m = Some S -> end_of m = Some E ->
  (forall ds, ~ walk (m_size m) (m_map m) S E ds) ->
  exists text m',
    file = Some text
    /\ solve t m = Returns (m', no_path_line)
    /\ path_cost m' = -1
    /\ cost_line m' = ("Best path cost -1 points" ++ endl)%string
    /\ render_rows m' = usable_lines text
    /\ (forall r c, In r (render_rows m') -> In c r -> is_path_glyph c = false)
    /\ main file writes_ok t
       = Some (mk_process 0 (summary m') no_path_line
                 (Some (String.append (summary m') (render_grid m')))).
Proof.
  intros Hload HS HE Hno.
  destruct (no_path_solve heuristic pq_push pq_pop file m S E (search_fuel (length (m_map m))) t
              pq_push_ok pq_pop_ok Hload HS HE Hno (Nat.le_refl _)) as (m' & Hs & Hc & Hd).
  destruct (rendered_rows _ _ _ _ _ _ _ _ _ pq_push_ok pq_pop_ok Hload Hs) as (text & w & -> & Hrows & Hlw & Hat).
  exists text, m'. split; [reflexivity|]. split; [exact Hs|]. split; [exact Hc|].
  split; [unfold cost_line; now rewrite Hc|].
  split.
  { rewrite Hrows. apply map_seq_eq. intros r l Hr. simpl.
    assert (In l (usable_lines text)) as Hin
      by (apply list_elem_of_In; eapply list_elem_of_lookup_2; eauto).
    rewrite <- (Hlw l Hin). apply map_seq_eq. intros k ch Hk. simpl.
    rewrite (Hlw l Hin). destruct (Hat r l k ch Hr Hk) as (Hallowed & Hty & _).
    apply tile_to_char_unmarked; auto. apply Hd. }
  split; [exact (render_no_glyph m' Hd)|].
  unfold main, main_with. rewrite Hload. fold (solve t m). unfold solve in *. rewrite Hs.
  reflexivity.
Qed.

(** On the walled maze [S#E] the program exits with code 0 and the file
    it writes gives the cost as [-1]; the word "none" is nowhere in what
    it writes. *)
Lemma no_path_cost_is_not_none :
  exists p text,
    main (Some "S#E") writes_ok 0 = Some p
    /\ exit_code p = 0
    /\ output_file p = Some text
    /\ text = String.concat endl
                ["Dimensions: 3 x 1"; "Solved in: 0 ms. Search count: 1";
                 "Best path cost -1 points"; "S#E"; ""]
    /\ contains "none" text = false
    /\ contains "none" (std_out p) = false.
Proof.
  eexists. eexists. split; [vm_compute; reflexivity|].
  split; [reflexivity|]. split; [reflexivity|]. split; [reflexivity|].
  split; reflexivity.
Qed.

(** ** C10: two runs *)

Lemma append_assoc (a b c : string) :
  String.append (String.append a b) c = String.append a (String.append b c).
Proof. induction a as [|ch a IH]; simpl; [reflexivity | now rewrite IH]. Qed.

(** The reading of the stopwatch goes into [solve_time] and nowhere
    else. *)
Lemma solve_with_time hfun push pop fuel t m :
  solve_with hfun push pop fuel t m
  = match solve_with hfun push pop fuel 0 m with
    | Returns (m', err) => Returns (with_time t m', err)
    | Throws e => Throws e
    | Diverges => Diverges
    end.
Proof.
  unfold solve_with.
  destruct (locate 0 (m_map m) None None) as (tiles & ([S|] & [E|])); try reflexivity.
  destruct (search_loop _ _ _ _ _ _) as [(st & cost)|]; [|reflexivity].
  destruct (cost =? -1); [reflexivity|].
  destruct (mark_path _ _ _ _); reflexivity.
Qed.

Lemma summary_with_time t m :
  summary (with_time t m)
  = String.append (String.append (dimensions_line m) "Solved in: ")
      (String.append (string_of_Z t)
         (String.append (" ms. Search count: " ++ string_of_Z (search_count m) ++ endl)%string
                        (cost_line m))).
Proof.
  change (summary (with_time t m))
    with (String.append (dimensions_line m)
            (String.append
               (String.append "Solved in: "
                  (String.append (string_of_Z t)
                     (String.append " ms. Search count: "
                        (String.append (string_of_Z (search_count m)) endl))))
               (cost_line m))).
  rewrite !append_assoc. reflexivity.
Qed.

(** C10 (amended). Two runs on the same input and with the same access to
    the output file give the same exit code, the same text on the error
    stream and the same rendered grid; the summary they print and write
    differs at most in the number of milliseconds of its second line: it
    is a fixed text, the reading of the stopwatch, and a fixed text. *)
Theorem runs_agree_up_to_time file access :
  exists (code : Z) (err : string) (console : Z -> string) (grid : option string),
    (forall t, main file access t
               = Some (mk_process code (console t) err
                         (option_map (String.append (console t)) grid)))
    /\ ((forall t, console t = "")
        \/ exists pre post, forall t,
             console t = String.append pre (String.append (string_of_Z t) post)).
Proof.
  unfold main, main_with.
  destruct (load file) as [e|m] eqn:Hload.
  { exists 1, (error_line e), (fun _ => ""), None. split; [reflexivity | now left]. }
  pose proof (solve_with_total heuristic pq_push pq_pop file m (search_fuel (length (m_map m))) 0
                pq_push_ok pq_pop_ok Hload (Nat.le_refl _)) as Htot.
  destruct (solve_with heuristic pq_push pq_pop (search_fuel (length (m_map m))) 0 m)
    as [(m' & err)|e|] eqn:Hs; [| |congruence].
  - set (pre := String.append (dimensions_line m') "Solved in: ").
    set (post := String.append
                   (" ms. Search count: " ++ string_of_Z (search_count m') ++ endl)%string
                   (cost_line m')).
    exists (match access with writes_ok | write_lost => 0 | _ => 1 end),
      (match print access m' with
       | (_, inl e) => String.append err (error_line e)
       | _ => err
       end),
      (fun t => String.append pre (String.append (string_of_Z t) post)),
      (match access with writes_ok => Some (render_grid m') | _ => None end).
    split; [|right; exists pre, post; reflexivity].
    intros t. rewrite solve_with_time, Hs. unfold finish, print.
    rewrite summary_with_time. destruct access; reflexivity.
  - exists 1, (error_line e), (fun _ => ""), None. split; [|now left].
    intros t. rewrite solve_with_time, Hs. reflexivity.
Qed.

(** Two runs on the same file whose stopwatches read 0 and 1 both exit
    with code 0 and do not write the same bytes. *)
Lemma two_runs_differ :
  exists p q,
    main (Some "S.E") writes_ok 0 = Some p /\ main (Some "S.E") writes_ok 1 = Some q
    /\ exit_code p = 0 /\ exit_code q = 0
    /\ output_file p <> output_file q.
Proof.
  eexists. eexists. split; [vm_compute; reflexivity|]. split; [vm_compute; reflexivity|].
  split; [reflexivity|]. split; [reflexivity|]. discriminate.
Qed.

(** ** Costs of walks *)

Lemma walk_cost_facing f f' ds : walk_cost f ds <= walk_cost f' ds + 1000.
Proof. destruct ds as [|d ds]; simpl; [lia|]. repeat case_decide; lia. Qed.

Lemma walk_cost_turn f ds :
  Z.of_nat (length ds) + (if decide (facing_after f ds = f) then 0 else 1000)
  <= walk_cost f ds.
Proof.
  revert f. induction ds as [|d ds IH]; intros f.
  - simpl. rewrite decide_True by reflexivity. lia.
  - simpl length. simpl walk_cost. simpl facing_after. specialize (IH d).
    repeat case_decide; subst; try lia; congruence.
Qed.

(** Cutting a loop out of a walk makes it cheaper by the length of the
    loop at least. *)
Lemma walk_cost_cut f (a b c : list Z) :
  walk_cost f (a ++ c) + Z.of_nat (length b) <= walk_cost f (a ++ b ++ c).
Proof.
  rewrite !walk_cost_app.
  pose proof (walk_cost_turn (facing_after f a) b) as Hb.
  pose proof (walk_cost_facing (facing_after f a) (facing_after (facing_after f a) b) c) as Hc.
  case_decide as Hf; [rewrite Hf in *|]; lia.
Qed.

Lemma facing_after_nonempty f f' ds : ds <> [] -> facing_after f ds = facing_after f' ds.
Proof. destruct ds; [congruence | reflexivity]. Qed.

(** ** Prefixes and loops of walks *)

Lemma not_NoDup_repeat (l : list nat) :
  ~ NoDup l -> exists i j x, (i < j)%nat /\ l !! i = Some x /\ l !! j = Some x.
Proof.
  induction l as [|x l IH]; intros H; [exfalso; apply H; constructor|].
  destruct (decide (x ∈ l)) as [Hin|Hnin].
  - apply list_elem_of_lookup in Hin as (k & Hk).
    exists 0%nat, (Datatypes.S k), x. repeat split; [lia | assumption].
  - destruct IH as (i & j & y & Hij & Hi & Hj).
    { intros Hnd. apply H. now constructor. }
    exists (Datatypes.S i), (Datatypes.S j), y. repeat split; [lia | assumption | assumption].
Qed.

Section Walks.
Variable sz : ivec2.
Variable tiles : list tile_t.

Lemma follow_take c ds x i :
  follow sz tiles c ds = Some x -> exists y, follow sz tiles c (take i ds) = Some y.
Proof.
  revert c i. induction ds as [|d ds IH]; intros c i H.
  - destruct i; simpl; eauto.
  - destruct i as [|i]; simpl; [eauto|]. simpl in H.
    destruct (step_to sz tiles c d) as [n|]; [|discriminate]. eauto.
Qed.

Lemma visits_lookup c ds x i :
  follow sz tiles c ds = Some x -> (i <= length ds)%nat ->
  visits sz tiles c ds !! i = follow sz tiles c (take i ds).
Proof.
  revert c i. induction ds as [|d ds IH]; intros c i H Hi.
  - simpl in Hi. assert (i = 0%nat) as -> by lia. reflexivity.
  - simpl in H. destruct i as [|i]; [reflexivity|].
    simpl. destruct (step_to sz tiles c d) as [n|]; [|discriminate].
    apply IH; [assumption | simpl in Hi; lia].
Qed.

Lemma follow_full c ds : follow sz tiles c (take (length ds) ds) = follow sz tiles c ds.
Proof. now rewrite take_ge. Qed.

(** A walk that visits a tile twice goes round a loop. *)
Lemma repeat_decompose c w x :
  follow sz tiles c w = Some x -> ~ NoDup (visits sz tiles c w) ->
  exists a b c' v,
    w = a ++ b ++ c' /\ b <> []
    /\ follow sz tiles c a = Some v /\ follow sz tiles v b = Some v
    /\ follow sz tiles v c' = Some x.
Proof.
  intros Hf Hnd.
  destruct (not_NoDup_repeat _ Hnd) as (i & j & v & Hij & Hi & Hj).
  assert (j <= length w)%nat as Hjw.
  { apply lookup_lt_Some in Hj. rewrite (length_visits _ _ _ _ _ Hf) in Hj. lia. }
  rewrite (visits_lookup _ _ _ i Hf) in Hi by lia.
  rewrite (visits_lookup _ _ _ j Hf) in Hj by lia.
  exists (take i w), (take (j - i) (drop i w)), (drop j w), v.
  assert (take i w ++ take (j - i) (drop i w) = take j w) as Hab.
  { rewrite take_take_drop. f_equal. lia. }
  split.
  { rewrite app_assoc, Hab. symmetry. apply take_drop. }
  split.
  { intros Hnil. apply (f_equal length) in Hnil. rewrite length_take, length_drop in Hnil.
    simpl in Hnil. lia. }
  split; [assumption|].
  split.
  { rewrite <- Hab, follow_app, Hi in Hj. exact Hj. }
  rewrite <- (take_drop j w), follow_app, Hj in Hf. exact Hf.
Qed.

Lemma follow_cut c a b c' v x :
  follow sz tiles c a = Some v -> follow sz tiles v b = Some v ->
  follow sz tiles v c' = Some x ->
  follow sz tiles c (a ++ c') = Some x /\ follow sz tiles c (a ++ b ++ c') = Some x.
Proof.
  intros Ha Hb Hc. split.
  - now rewrite follow_app, Ha.
  - now rewrite follow_app, Ha, follow_app, Hb.
Qed.

Lemma only_at_end_cut c a b c' v x :
  follow sz tiles c a = Some v -> follow sz tiles v b = Some v ->
  only_at_end sz tiles c x (a ++ b ++ c') ->
  only_at_end sz tiles c x (a ++ c').
Proof.
  intros Ha Hb H i Hi. rewrite length_app in Hi.
  destruct (Nat.le_gt_cases i (length a)) as [Hle|Hgt].
  - rewrite take_app_le by assumption.
    specialize (H i). rewrite take_app_le in H by assumption.
    apply H. rewrite !length_app.
    destruct (Nat.eq_dec i (length a)) as [->|]; [|lia].
    destruct b; [|simpl; lia]. simpl. lia.
  - replace i with (length a + (i - length a))%nat by lia.
    rewrite take_app_add, follow_app, Ha.
    specialize (H (length a + (length b + (i - length a)))%nat).
    rewrite take_app_add, take_app_add, follow_app, Ha, follow_app, Hb in H.
    apply H. rewrite !length_app. lia.
Qed.

Lemma only_at_end_not_loop c a b v :
  b <> [] -> follow sz tiles c a = Some v -> ~ only_at_end sz tiles c v (a ++ b ++ []).
Proof.
  intros Hb Ha H. apply (H (length a)).
  - rewrite !length_app. destruct b; [congruence | simpl; lia].
  - now rewrite take_app_length.
Qed.
End Walks.

(** ** Mazes with one route *)

Section Prefixes.
Variable sz : ivec2.
Variable tiles : list tile_t.

Lemma visits_take c q x i :
  follow sz tiles c q = Some x ->
  visits sz tiles c (take i q) = take (Datatypes.S i) (visits sz tiles c q).
Proof.
  revert c i. induction q as [|d q IH]; intros c i H.
  - destruct i; reflexivity.
  - simpl in H. destruct i as [|i]; [reflexivity|].
    simpl. destruct (step_to sz tiles c d) as [n|]; [|discriminate].
    f_equal. now apply IH.
Qed.

Lemma route_prefix a b q i y :
  route sz tiles a b q -> follow sz tiles a (take i q) = Some y ->
  route sz tiles a y (take i q).
Proof.
  intros ((Hv & Hf) & Hnd) Hy. split; [split|].
  - now apply Forall_take.
  - assumption.
  - rewrite (visits_take _ _ _ _ Hf). eapply sublist_NoDup; [exact Hnd | apply sublist_take].
Qed.

Lemma follow_take_drop c r k x y j :
  follow sz tiles c (take k r) = Some x ->
  follow sz tiles x (take j (drop k r)) = Some y ->
  follow sz tiles c (take (k + j) r) = Some y.
Proof. intros Hk Hj. now rewrite <- take_take_drop, follow_app, Hk. Qed.
End Prefixes.

Section UniqueRoute.
Variable sz : ivec2.
Variable tiles : list tile_t.
Variables S E : nat.
Variable r : list Z.
Hypothesis Huniq : unique_route sz tiles S E r.

Lemma unique_route_follow : follow sz tiles S r = Some E.
Proof. destruct Huniq as (((_ & H) & _) & _). exact H. Qed.

Lemma unique_route_NoDup : NoDup (visits sz tiles S r).
Proof. destruct Huniq as ((_ & H) & _). exact H. Qed.

Lemma unique_route_valid : Forall valid_dir r.
Proof. destruct Huniq as (((H & _) & _) & _). exact H. Qed.

Lemma route_tail k x : follow sz tiles S (take k r) = Some x -> follow sz tiles x (drop k r) = Some E.
Proof.
  intros Hk. pose proof unique_route_follow as Hf.
  rewrite <- (take_drop k r), follow_app, Hk in Hf. exact Hf.
Qed.

(** The tiles of the route are met in one order only. *)
Lemma route_index_inj i j x :
  (i <= length r)%nat -> (j <= length r)%nat ->
  follow sz tiles S (take i r) = Some x -> follow sz tiles S (take j r) = Some x -> i = j.
Proof.
  intros Hi Hj Hfi Hfj.
  rewrite <- (visits_lookup _ _ _ _ _ _ unique_route_follow Hi) in Hfi.
  rewrite <- (visits_lookup _ _ _ _ _ _ unique_route_follow Hj) in Hfj.
  exact (NoDup_lookup _ _ _ _ unique_route_NoDup Hfi Hfj).
Qed.

(** The prefixes of the route are the only routes to the tiles of the
    route. *)
Lemma prefix_unique m : forall k x q,
  (k <= length r)%nat -> (length r - k <= m)%nat ->
  follow sz tiles S (take k r) = Some x ->
  route sz tiles S x q -> q = take k r.
Proof.
  induction m as [|m IH]; intros k x q Hk Hm Hx Hq.
  - assert (k = length r) as -> by lia.
    rewrite take_ge in * by lia. rewrite unique_route_follow in Hx. injection Hx as <-.
    now apply (proj2 Huniq).
  - pose proof Hq as ((Hqv & Hqf) & Hqn).
    pose proof (route_tail k x Hx) as Hs.
    set (W := q ++ drop k r).
    assert (follow sz tiles S W = Some E) as HW by (unfold W; now rewrite follow_app, Hqf).
    assert (Forall valid_dir W) as HWv.
    { apply Forall_app. split; [assumption|]. apply Forall_drop, unique_route_valid. }
    destruct (decide (NoDup (visits sz tiles S W))) as [Hnd|Hnd].
    + assert (W = r) as HWr by (apply (proj2 Huniq); repeat split; assumption).
      unfold W in HWr. rewrite <- (take_drop k r) in HWr at 2.
      now apply app_inv_tail in HWr.
    + exfalso.
      destruct (not_NoDup_repeat _ Hnd) as (i1 & i2 & v & Hlt & H1 & H2).
      assert (i2 <= length W)%nat as Hi2.
      { apply lookup_lt_Some in H2. rewrite (length_visits _ _ _ _ _ HW) in H2. lia. }
      rewrite (visits_lookup _ _ _ _ _ i1 HW) in H1 by lia.
      rewrite (visits_lookup _ _ _ _ _ i2 HW) in H2 by lia.
      assert (length W = (length q + (length r - k))%nat) as HlW
        by (unfold W; rewrite length_app, length_drop; lia).
      assert (forall i, (length q <= i <= length W)%nat ->
                follow sz tiles S (take i W) = Some v ->
                follow sz tiles S (take (k + (i - length q)) r) = Some v) as Hright.
      { intros i Hi Hv. unfold W in Hv.
        replace i with (length q + (i - length q))%nat in Hv by lia.
        rewrite take_app_add, follow_app, Hqf in Hv.
        eapply follow_take_drop; eassumption. }
      assert (forall i, (i <= length q)%nat ->
                follow sz tiles S (take i W) = Some v ->
                follow sz tiles S (take i q) = Some v) as Hleft.
      { intros i Hi Hv. unfold W in Hv. now rewrite take_app_le in Hv by assumption. }
      destruct (Nat.le_gt_cases i2 (length q)) as [Hc2|Hc2].
      { apply Hleft in H1; [|lia]. apply Hleft in H2; [|lia].
        rewrite <- (visits_lookup _ _ _ _ _ i1 Hqf) in H1 by lia.
        rewrite <- (visits_lookup _ _ _ _ _ i2 Hqf) in H2 by lia.
        pose proof (NoDup_lookup _ _ _ _ Hqn H1 H2). lia. }
      destruct (Nat.le_gt_cases (length q) i1) as [Hc1|Hc1].
      { apply Hright in H1; [|lia]. apply Hright in H2; [|lia].
        assert (k + (i1 - length q) = k + (i2 - length q))%nat
          by (apply (route_index_inj _ _ v); [lia | lia | assumption | assumption]).
        lia. }
      apply Hleft in H1; [|lia]. apply Hright in H2; [|lia].
      set (j := (k + (i2 - length q))%nat) in *.
      pose proof (route_prefix sz tiles S x q i1 v Hq H1) as Ha.
      assert (take i1 q = take j r) as Heq by (apply (IH j v); [lia | lia | assumption | assumption]).
      assert (i1 = j) as Hij.
      { apply (f_equal length) in Heq. rewrite !length_take in Heq. lia. }
      assert (follow sz tiles S (take k q) = Some x) as Hkq.
      { replace (take k q) with (take k (take i1 q)) by (rewrite take_take; f_equal; lia).
        rewrite Heq, take_take. replace (Nat.min k j) with k by lia. exact Hx. }
      rewrite <- (visits_lookup _ _ _ _ _ _ Hqf) in Hkq by lia.
      assert (visits sz tiles S q !! length q = Some x) as Hend
        by (rewrite (visits_lookup _ _ _ _ _ _ Hqf) by lia; now rewrite follow_full).
      pose proof (NoDup_lookup _ _ _ _ Hqn Hkq Hend). lia.
Qed.

(** Every walk to a tile of the route costs at least what the route
    costs up to that tile, and a walk that meets the tile at its end only
    arrives with the facing of the route. *)
Lemma walk_bound f k x w :
  (k <= length r)%nat -> follow sz tiles S (take k r) = Some x ->
  walk sz tiles S x w ->
  walk_cost f (take k r) <= walk_cost f w
  /\ (only_at_end sz tiles S x w -> facing_after f w = facing_after f (take k r)).
Proof.
  intros Hk Hx. remember (length w) as len eqn:Hlen. revert w Hlen.
  induction len as [len IH] using lt_wf_ind. intros w Hlen (Hv & Hf).
  destruct (decide (NoDup (visits sz tiles S w))) as [Hnd|Hnd].
  - assert (w = take k r) as ->.
    { apply (prefix_unique (length r) k x); try assumption; try lia. repeat split; assumption. }
    split; [lia | reflexivity].
  - destruct (repeat_decompose _ _ _ _ _ Hf Hnd) as (a & b & c' & v & -> & Hb & Ha & Hloop & Hc).
    apply Forall_app in Hv as (Hva & Hvbc). apply Forall_app in Hvbc as (Hvb & Hvc).
    assert (length b <> 0)%nat as Hlb by (destruct b; [congruence | simpl; lia]).
    destruct (IH (length (a ++ c'))) with (w := a ++ c') as (IH1 & IH2).
    + subst len. rewrite !length_app. lia.
    + reflexivity.
    + split; [apply Forall_app; auto|]. now rewrite follow_app, Ha.
    + pose proof (walk_cost_cut f a b c'). split; [lia|].
      intros Honly. destruct c' as [|d c'].
      * exfalso. simpl in Hc. injection Hc as <-.
        exact (only_at_end_not_loop sz tiles S a b v Hb Ha Honly).
      * rewrite <- IH2 by (eapply only_at_end_cut; eassumption).
        rewrite !facing_after_app. reflexivity.
Qed.
End UniqueRoute.

(** ** The search on a maze with one route *)

Lemma follow_in_range sz tiles c ds x :
  grid_ok sz tiles -> (c < length tiles)%nat -> follow sz tiles c ds = Some x ->
  (x < length tiles)%nat.
Proof.
  intros Hgrid. revert c. induction ds as [|d ds IH]; intros c Hc; simpl.
  - now intros [= <-].
  - destruct (step_to sz tiles c d) as [n|] eqn:Hs; [|discriminate].
    apply IH. now destruct (step_to_spec _ _ _ _ _ Hgrid Hs).
Qed.

Lemma take_S_last (r : list Z) k :
  (k < length r)%nat -> exists d, take (Datatypes.S k) r = take k r ++ [d].
Proof.
  intros Hk. destruct (lookup_lt_is_Some_2 r k Hk) as (d & Hd).
  exists d. now apply take_S_r.
Qed.

Section RouteSearch.
Variable hfun : tile_t -> tile_t -> Z.
Variable push : list tile_t -> list nat -> nat -> list nat.
Hypothesis Hpush : push_ok push.
Variable sz : ivec2.
Variables S E : nat.
Variable tiles0 : list tile_t.
Variable r : list Z.
Hypothesis Hgrid : grid_ok sz tiles0.
Hypothesis HS : (S < length tiles0)%nat.
Hypothesis Huniq : unique_route sz tiles0 S E r.

Lemma route_tile_not_start k x :
  (1 <= k <= length r)%nat -> follow sz tiles0 S (take k r) = Some x -> x <> S.
Proof.
  intros Hk Hx ->.
  assert (k = 0)%nat; [|lia].
  apply (route_index_inj sz tiles0 S E r Huniq k 0%nat S); [lia | lia | assumption | reflexivity].
Qed.

(** The step of the route into its [k+1]-st tile. *)
Lemma route_step k x y d :
  (k < length r)%nat -> take (Datatypes.S k) r = take k r ++ [d] ->
  follow sz tiles0 S (take k r) = Some x ->
  follow sz tiles0 S (take (Datatypes.S k) r) = Some y ->
  step_to sz tiles0 x d = Some y /\ valid_dir d.
Proof.
  intros Hk Hd Hx Hy. rewrite Hd, follow_app, Hx in Hy. simpl in Hy.
  destruct (step_to sz tiles0 x d) as [n|]; [|discriminate]. split; [assumption|].
  pose proof (unique_route_valid sz tiles0 S E r Huniq) as Hv.
  apply (Forall_take _ (Datatypes.S k)) in Hv. rewrite Hd in Hv.
  apply Forall_app in Hv as (_ & Hv). now apply Forall_inv in Hv.
Qed.

Lemma route_inv_relax st c d n :
  route_inv_at sz S E tiles0 r c st ->
  valid_dir d -> step_to sz tiles0 c d = Some n ->
  improves (s_map st) c d n = true ->
  route_inv_at sz S E tiles0 r c
    (mk_search (relax hfun E c d n (s_map st))
       (push (relax hfun E c d n (s_map st)) (s_pq st) n) (s_count st + 1)).
Proof.
  intros [I C Hex Hz Hst Hpr Hend] Hd Hstep Himp.
  pose proof (relax_inv hfun push Hpush sz S E tiles0 Hgrid st c d n I C Hd Hstep Himp) as I'.
  destruct (step_to_spec _ _ _ _ _ Hgrid Hstep) as (Hn0 & _ & _).
  pose proof (step_to_ne _ _ _ _ _ Hgrid Hstep) as Hnc.
  assert (n < length (s_map st))%nat as Hn by (now rewrite (inv_len _ _ _ _ I)).
  destruct C as (Hc & Hdc).
  pose proof (inv_g _ _ _ _ I c) as Hgc.
  pose proof (candidate_pos (s_map st) c d Hgc) as Hcand.
  constructor; simpl.
  - assumption.
  - split; [assumption|]. simpl. rewrite D_relax by assumption.
    now rewrite decide_False by congruence.
  - intros k x Hk Hx. rewrite G_relax, D_relax by assumption.
    destruct (decide (x = n)) as [->|Hxn]; [|now apply Hex].
    intros _.
    destruct (inv_walk _ _ _ _ I c Hdc) as (wc & (Hwv & Hwf) & Hwcost & Hwface & Hwvis).
    assert (walk sz tiles0 S n (wc ++ [d])) as Hw.
    { split; [apply Forall_app; split; [assumption | now constructor]|].
      rewrite follow_app, Hwf. simpl. now rewrite Hstep. }
    assert (walk_cost dir_e (wc ++ [d]) = candidate (s_map st) c d) as Hwc.
    { rewrite walk_cost_app, Hwcost, Hwface. simpl. unfold candidate, G, D. lia. }
    destruct (walk_bound sz tiles0 S E r Huniq dir_e k n (wc ++ [d]) ltac:(lia) Hx Hw)
      as (Hlow & Hface).
    pose proof (route_tile_not_start k n Hk Hx) as HnS.
    apply improves_spec in Himp.
    destruct (inv_dir _ _ _ _ I n) as [Hnone|Hrel].
    + (* first relaxation of this tile of the route *)
      assert (only_at_end sz tiles0 S n (wc ++ [d])) as Honly.
      { intros i Hi Hfi. rewrite length_app in Hi. simpl in Hi.
        rewrite take_app_le in Hfi by lia.
        rewrite <- (visits_lookup sz tiles0 S wc c i Hwf) in Hfi by lia.
        apply list_elem_of_lookup_2, list_elem_of_In, Hwvis in Hfi.
        rewrite Hnone in Hfi. unfold valid_dir, dir_none in Hfi. lia. }
      specialize (Hface Honly). rewrite facing_after_app in Hface. simpl in Hface.
      destruct k as [|k]; [lia|].
      destruct (take_S_last r k ltac:(lia)) as (dk & Hdk).
      rewrite Hdk, facing_after_app in Hface. simpl in Hface. subst dk.
      destruct (follow_take sz tiles0 S (take (Datatypes.S k) r) n k Hx) as (y & Hy).
      rewrite take_take in Hy. replace (Nat.min k (Datatypes.S k)) with k in Hy by lia.
      destruct (route_step k y n d ltac:(lia) Hdk Hy Hx) as (Hstep' & _).
      assert (y = c) as ->.
      { symmetry. apply (step_to_inj sz tiles0 c y d n Hgrid Hc); [|assumption|assumption].
        exact (follow_in_range sz tiles0 S (take k r) y Hgrid HS Hy). }
      split; [|rewrite Hdk, facing_after_app; reflexivity].
      rewrite Hdk, walk_cost_app. simpl.
      destruct k as [|k].
      * (* the first tile of the route, reached from the start *)
        simpl in Hy. injection Hy as <-.
        destruct Hst as [Hall|(_ & Hg0)].
        -- specialize (Hall d n Hd Hstep). rewrite Hnone in Hall.
           unfold valid_dir, dir_none in Hall. lia.
        -- unfold candidate. fold (G (s_map st) S). fold (D (s_map st) S).
           rewrite Hg0, (Hz Hg0). simpl. lia.
      * destruct (Hex (Datatypes.S k) c ltac:(lia) Hy Hdc) as (Hgk & Hdk').
        unfold candidate. fold (G (s_map st) c). fold (D (s_map st) c).
        rewrite Hgk, Hdk'. lia.
    + (* the tile has the cost of the route already: no walk is cheaper *)
      exfalso. destruct (Hex k n Hk Hx Hrel) as (Hgn & _).
      pose proof (inv_dg _ _ _ _ I n HnS Hrel). lia.
  - rewrite G_relax, D_relax by assumption.
    case_decide; [intros; lia | assumption].
  - destruct Hst as [Hall|(-> & Hg0)].
    + left. intros d' n' Hd' Hs'. rewrite D_relax by assumption.
      case_decide; [assumption | now apply (Hall d')].
    + right. split; [reflexivity|]. rewrite G_relax by assumption.
      now rewrite decide_False by congruence.
  - intros k x y Hk Hx Hy. rewrite !D_relax by assumption.
    destruct (decide (x = n)) as [->|Hxn].
    + intros _. left. apply (push_ok_in _ _ _ _ _ Hpush), in_or_app. right. now left.
    + intros Hdx. destruct (Hpr k x y Hk Hx Hy Hdx) as [Hin|[Hdy|Hxc]].
      * left. apply (push_ok_in _ _ _ _ _ Hpush), in_or_app. now left.
      * right. left. case_decide; assumption.
      * now right; right.
  - rewrite D_relax by assumption.
    destruct (decide (E = n)) as [->|HEn].
    + intros _. apply (push_ok_in _ _ _ _ _ Hpush), in_or_app. right. now left.
    + intros H. apply (push_ok_in _ _ _ _ _ Hpush), in_or_app. left. now apply Hend.
Qed.

Lemma route_inv_explore st c d :
  route_inv_at sz S E tiles0 r c st -> valid_dir d ->
  route_inv_at sz S E tiles0 r c (explore hfun push sz E c st d).
Proof.
  intros R Hd. rewrite explore_unfold, (step_to_inv sz S tiles0 st c d (ra_base _ _ _ _ _ _ _ R)).
  destruct (step_to sz tiles0 c d) as [n|] eqn:Hstep; [|assumption].
  destruct (improves (s_map st) c d n) eqn:Himp; [|assumption].
  now apply route_inv_relax.
Qed.

(** A tile a move steps onto has a cost after the move was explored, and
    keeps it. *)
Lemma explore_reaches st c d n :
  search_inv sz S tiles0 st -> current_ok tiles0 c st -> valid_dir d ->
  step_to sz tiles0 c d = Some n ->
  0 < G (s_map (explore hfun push sz E c st d)) n.
Proof.
  intros I C Hd Hstep. rewrite explore_unfold, (step_to_inv sz S tiles0 st c d I), Hstep.
  destruct (step_to_spec _ _ _ _ _ Hgrid Hstep) as (Hn0 & _ & _).
  assert (n < length (s_map st))%nat as Hn by (now rewrite (inv_len _ _ _ _ I)).
  pose proof (inv_g _ _ _ _ I n) as Hgn. pose proof (inv_g _ _ _ _ I c) as Hgc.
  pose proof (candidate_pos (s_map st) c d Hgc).
  destruct (improves (s_map st) c d n) eqn:Himp.
  - simpl. rewrite G_relax, decide_True by auto. lia.
  - assert (G (s_map st) n <> 0); [|lia].
    intros H0. assert (improves (s_map st) c d n = true); [|congruence].
    apply improves_spec. now left.
Qed.

Lemma explore_keeps_reached st c d x :
  search_inv sz S tiles0 st -> current_ok tiles0 c st -> valid_dir d ->
  0 < G (s_map st) x -> 0 < G (s_map (explore hfun push sz E c st d)) x.
Proof.
  intros I C Hd Hx. rewrite explore_unfold, (step_to_inv sz S tiles0 st c d I).
  destruct (step_to sz tiles0 c d) as [n|] eqn:Hstep; [|assumption].
  destruct (improves (s_map st) c d n) eqn:Himp; [|assumption].
  destruct (step_to_spec _ _ _ _ _ Hgrid Hstep) as (Hn0 & _ & _).
  assert (n < length (s_map st))%nat as Hn by (now rewrite (inv_len _ _ _ _ I)).
  pose proof (inv_g _ _ _ _ I c) as Hgc.
  pose proof (candidate_pos (s_map st) c d Hgc).
  simpl. rewrite G_relax by assumption. case_decide; lia.
Qed.

(** After a tile was expanded, every tile next to it has been reached. *)
Lemma expand_reaches st c d n :
  search_inv sz S tiles0 st -> current_ok tiles0 c st -> valid_dir d ->
  step_to sz tiles0 c d = Some n ->
  0 < G (s_map (expand hfun push sz E c st)) n.
Proof.
  intros I0 C0 Hd Hstep. unfold expand. cbn [fold_left].
  assert (valid_dir 0 /\ valid_dir 1 /\ valid_dir 2 /\ valid_dir 3) as (V0 & V1 & V2 & V3)
    by (unfold valid_dir; lia).
  destruct (explore_inv hfun push Hpush sz S E tiles0 Hgrid st c 0 I0 C0 V0) as (I1 & C1 & _).
  set (st1 := explore hfun push sz E c st 0) in *.
  destruct (explore_inv hfun push Hpush sz S E tiles0 Hgrid st1 c 1 I1 C1 V1) as (I2 & C2 & _).
  set (st2 := explore hfun push sz E c st1 1) in *.
  destruct (explore_inv hfun push Hpush sz S E tiles0 Hgrid st2 c 2 I2 C2 V2) as (I3 & C3 & _).
  set (st3 := explore hfun push sz E c st2 2) in *.
  destruct (valid_dir_cases d Hd) as [-> | [-> | [-> | ->]]].
  - apply explore_keeps_reached; try assumption. apply explore_keeps_reached; try assumption.
    apply explore_keeps_reached; try assumption. now apply explore_reaches.
  - apply explore_keeps_reached; try assumption. apply explore_keeps_reached; try assumption.
    now apply explore_reaches.
  - apply explore_keeps_reached; try assumption. now apply explore_reaches.
  - now apply explore_reaches.
Qed.

Lemma expand_chain st c :
  expand hfun push sz E c st
  = explore hfun push sz E c (explore hfun push sz E c (explore hfun push sz E c
      (explore hfun push sz E c st 0) 1) 2) 3.
Proof. reflexivity. Qed.

Lemma route_inv_expand st c :
  route_inv_at sz S E tiles0 r c st ->
  route_inv sz S E tiles0 r (expand hfun push sz E c st).
Proof.
  intros R0.
  assert (valid_dir 0 /\ valid_dir 1 /\ valid_dir 2 /\ valid_dir 3) as (V0 & V1 & V2 & V3)
    by (unfold valid_dir; lia).
  pose proof (route_inv_explore st c 0 R0 V0) as R1.
  pose proof (route_inv_explore _ c 1 R1 V1) as R2.
  pose proof (route_inv_explore _ c 2 R2 V2) as R3.
  pose proof (route_inv_explore _ c 3 R3 V3) as R4.
  assert (forall d n, valid_dir d -> step_to sz tiles0 c d = Some n ->
            valid_dir (D (s_map (expand hfun push sz E c st)) n)) as Hreach.
  { intros d n Hd Hs.
    destruct (expand_inv hfun push Hpush sz S E tiles0 Hgrid st c (ra_base _ _ _ _ _ _ _ R0)
                (ra_cur _ _ _ _ _ _ _ R0)) as (I' & _).
    apply (inv_gd _ _ _ _ I').
    apply expand_reaches with (d := d); try assumption.
    - apply (ra_base _ _ _ _ _ _ _ R0).
    - apply (ra_cur _ _ _ _ _ _ _ R0). }
  rewrite expand_chain in *.
  destruct R4 as [I C Hex Hz Hst Hpr Hend].
  constructor; try assumption.
  - intros _. destruct Hst as [Hall|(-> & _)]; [assumption|]. exact Hreach.
  - intros k x y Hk Hx Hy Hdx.
    destruct (Hpr k x y Hk Hx Hy Hdx) as [Hin | [Hdy | Hxc]]; [left; exact Hin | right; exact Hdy|].
    clear Hpr Hex. subst x.
    right. destruct (take_S_last r k Hk) as (d & Hd).
    destruct (route_step k c y d Hk Hd Hx Hy) as (Hs & Hv).
    exact (Hreach d y Hv Hs).
Qed.
End RouteSearch.

Lemma pop_ok_keep pop tiles x xs c rest y :
  pop_ok pop -> pop tiles x xs = (c, rest) -> In y (x :: xs) -> y = c \/ In y rest.
Proof.
  intros Hpop Heq Hy. specialize (Hpop tiles x xs). rewrite Heq in Hpop. simpl in Hpop.
  destruct (Permutation_in _ Hpop Hy) as [<-|H]; auto.
Qed.

Section RouteLoop.
Variable hfun : tile_t -> tile_t -> Z.
Variable push : list tile_t -> list nat -> nat -> list nat.
Hypothesis Hpush : push_ok push.
Variable pop : list tile_t -> nat -> list nat -> nat * list nat.
Variable sz : ivec2.
Variables S E : nat.
Variable tiles0 : list tile_t.
Variable r : list Z.
Hypothesis Hpop : pop_ok pop.
Hypothesis Hgrid : grid_ok sz tiles0.
Hypothesis Hreset : forall i, state (tile_at tiles0 i) = state_reset.
Hypothesis HS : (S < length tiles0)%nat.
Hypothesis HSE : S <> E.
Hypothesis Huniq : unique_route sz tiles0 S E r.

Lemma route_inv_init : route_inv sz S E tiles0 r (search_init S tiles0).
Proof.
  pose proof (init_D S tiles0 Hreset HS) as HD.
  pose proof (init_G S tiles0 Hreset HS) as HG.
  assert (forall x, valid_dir (D (s_map (search_init S tiles0)) x) -> x = S) as Honly.
  { intros x. rewrite HD. case_decide; [auto|]. unfold valid_dir, dir_none. lia. }
  constructor.
  - now apply init_inv.
  - intros k x Hk Hx Hd. apply Honly in Hd.
    exfalso. exact (route_tile_not_start sz S E tiles0 r HS Huniq k x Hk Hx Hd).
  - intros _. rewrite HD. now rewrite decide_True.
  - intros [Hg|(x & Hx & Hd)].
    + rewrite HG in Hg. lia.
    + apply Honly in Hd. contradiction.
  - intros k x y _ _ _ Hd. apply Honly in Hd. subst x. left. now left.
  - intros Hd. apply Honly in Hd. congruence.
Qed.

Lemma route_inv_pop st x xs c rest :
  route_inv sz S E tiles0 r st -> s_pq st = x :: xs -> pop (s_map st) x xs = (c, rest) ->
  c <> E ->
  route_inv_at sz S E tiles0 r c (mk_search (s_map st) rest (s_count st)).
Proof.
  intros [I Hex Hz Hst Hpr Hend] Hpq Hp HcE.
  destruct (pop_inv pop sz S tiles0 Hpop _ _ _ _ _ I Hpq Hp) as (I1 & C1 & _).
  constructor; simpl; try assumption.
  - destruct (decide (c = S)) as [->|HcS].
    + destruct (decide (G (s_map st) S = 0)) as [Hg0|Hg0]; [now right|].
      left. apply Hst. left. pose proof (inv_g _ _ _ _ I S). lia.
    + left. apply Hst. right. exists c. split; [assumption|]. apply C1.
  - intros k x' y Hk Hx Hy Hd.
    destruct (Hpr k x' y Hk Hx Hy Hd) as [Hin|Hdy]; [|now right; left].
    rewrite Hpq in Hin.
    destruct (pop_ok_keep _ _ _ _ _ _ _ Hpop Hp Hin) as [->|Hin']; [now right; right | now left].
  - intros Hd. specialize (Hend Hd). rewrite Hpq in Hend.
    destruct (pop_ok_keep _ _ _ _ _ _ _ Hpop Hp Hend) as [->|Hin']; [congruence | assumption].
Qed.

(** While the loop runs, every tile of the route is reached when the
    queue is empty: the queue cannot run empty. *)
Lemma route_all_reached st k :
  route_inv sz S E tiles0 r st -> s_pq st = [] -> (k <= length r)%nat ->
  exists x, follow sz tiles0 S (take k r) = Some x /\ valid_dir (D (s_map st) x).
Proof.
  intros R Hpq. induction k as [|k IH]; intros Hk.
  - exists S. split; [reflexivity|]. apply (inv_start _ _ _ _ (ri_base _ _ _ _ _ _ R)).
  - destruct IH as (x & Hx & Hd); [lia|].
    destruct (follow_take sz tiles0 S r E (Datatypes.S k)
                (unique_route_follow sz tiles0 S E r Huniq)) as (y & Hy).
    exists y. split; [assumption|].
    destruct (ri_progress _ _ _ _ _ _ R k x y ltac:(lia) Hx Hy Hd) as [Hin|Hdy]; [|assumption].
    rewrite Hpq in Hin. contradiction.
Qed.

(** The loop ends by popping the end, and the cost it reports is that of
    the route. *)
Lemma route_search_result fuel st res cost :
  route_inv sz S E tiles0 r st ->
  search_loop hfun push pop sz E fuel st = Some (res, cost) ->
  cost = walk_cost dir_e r.
Proof.
  apply (search_loop_rule hfun push pop sz E (route_inv sz S E tiles0 r)
           (fun _ c => c = walk_cost dir_e r)).
  - intros st' R Hpq. exfalso.
    destruct (route_all_reached st' (length r) R Hpq (Nat.le_refl _)) as (x & Hx & Hd).
    rewrite take_ge, (unique_route_follow sz tiles0 S E r Huniq) in Hx by lia.
    injection Hx as <-. pose proof (ri_end _ _ _ _ _ _ R Hd) as Hin.
    rewrite Hpq in Hin. contradiction.
  - intros st' x xs rest R Hpq Hp.
    destruct (pop_ok_in _ _ _ _ _ _ Hpop Hp) as (Hin & _).
    assert (valid_dir (D (s_map st') E)) as Hd
      by (apply (inv_pq _ _ _ _ (ri_base _ _ _ _ _ _ R)); now rewrite Hpq).
    assert (1 <= length r)%nat as Hlen.
    { destruct r as [|d r'] eqn:Hr; [|simpl; lia].
      pose proof (unique_route_follow sz tiles0 S E _ Huniq) as Hf. simpl in Hf. congruence. }
    destruct (ri_exact _ _ _ _ _ _ R (length r) E ltac:(lia)) as (Hg & _).
    + rewrite take_ge by lia. exact (unique_route_follow sz tiles0 S E r Huniq).
    + assumption.
    + now rewrite take_ge in Hg by lia.
  - intros st' x xs c rest R Hpq Hp Hc.
    apply (route_inv_expand hfun push Hpush sz S E tiles0 r Hgrid HS Huniq).
    now apply (route_inv_pop st' x xs).
Qed.
End RouteLoop.

(** ** Routes on the loaded array and on the array the search starts from *)

Lemma follow_ext sz tiles tiles' c ds :
  (forall c d, step_to sz tiles' c d = step_to sz tiles c d) ->
  follow sz tiles' c ds = follow sz tiles c ds.
Proof.
  intros H. revert c. induction ds as [|d ds IH]; intros c; simpl; [reflexivity|].
  rewrite H. destruct (step_to sz tiles c d); auto.
Qed.

Lemma visits_ext sz tiles tiles' c ds :
  (forall c d, step_to sz tiles' c d = step_to sz tiles c d) ->
  visits sz tiles' c ds = visits sz tiles c ds.
Proof.
  intros H. revert c. induction ds as [|d ds IH]; intros c; simpl; [reflexivity|].
  rewrite H. destruct (step_to sz tiles c d); [|reflexivity]. now rewrite IH.
Qed.

Lemma unique_route_reset sz tiles a b r :
  unique_route sz tiles a b r ->
  unique_route sz (List.map (fun t => set_state t state_reset) tiles) a b r.
Proof.
  assert (forall c d, step_to sz (List.map (fun t => set_state t state_reset) tiles) c d
                      = step_to sz tiles c d) as Hs.
  { intros c d. apply step_to_ext; intros i; now destruct (tile_at_reset tiles i) as (? & ? & _). }
  unfold unique_route, route, walk.
  intros (((Hv & Hf) & Hnd) & Hu). split.
  - rewrite (follow_ext _ _ _ _ _ Hs), (visits_ext _ _ _ _ _ Hs). auto.
  - intros r'. rewrite (follow_ext _ _ _ _ _ Hs), (visits_ext _ _ _ _ _ Hs). apply Hu.
Qed.

(** ** Moves and turns *)

Lemma turn_left_valid d : valid_dir (turn_left d).
Proof.
  unfold turn_left, valid_dir, dir_e, dir_n, dir_w, dir_s.
  destruct (d =? 2), (d =? 0), (d =? 3); lia.
Qed.

Lemma turn_right_valid d : valid_dir (turn_right d).
Proof.
  unfold turn_right, valid_dir, dir_e, dir_n, dir_w, dir_s.
  destruct (d =? 2), (d =? 1), (d =? 3); lia.
Qed.

(** A sequence of steps and turns goes along a walk that costs no more. *)
Lemma actions_walk sz tiles acts : forall c f x f',
  valid_dir f -> run_actions sz tiles c f acts = Some (x, f') ->
  exists w, walk sz tiles c x w /\ walk_cost f w <= actions_cost acts.
Proof.
  induction acts as [|a acts IH]; intros c f x f' Hf Hrun; simpl in Hrun.
  - injection Hrun as <- <-. exists []. split; [split; [constructor | reflexivity]|].
    simpl. lia.
  - destruct a.
    + destruct (step_to sz tiles c f) as [n|] eqn:Hs; [|discriminate].
      destruct (IH n f x f' Hf Hrun) as (w & (Hv & Hw) & Hc).
      exists (f :: w). split; [split; [now constructor | simpl; now rewrite Hs]|].
      simpl. rewrite decide_True by reflexivity. lia.
    + destruct (IH c (turn_left f) x f' (turn_left_valid f) Hrun) as (w & Hw & Hc).
      exists w. split; [assumption|].
      pose proof (walk_cost_facing f (turn_left f) w). simpl. lia.
    + destruct (IH c (turn_right f) x f' (turn_right_valid f) Hrun) as (w & Hw & Hc).
      exists w. split; [assumption|].
      pose proof (walk_cost_facing f (turn_right f) w). simpl. lia.
Qed.

(** ** The cost on a maze with one route *)

(** X24. For every loaded maze that has exactly one route from its start
    to its end, [solve] returns with a path cost that is the number of
    moves of the route plus 1000 times the number of changes of direction
    along it (the start faces east); no walk from the start to the end,
    and no sequence of unit moves and 90-degree turns that leads there,
    is cheaper. On these mazes this holds for every heuristic and every
    queue discipline: they change the order and the number of
    expansions, not the cost found. *)
Theorem unique_route_cost hfun push pop file m S E r fuel t :
  push_ok push -> pop_ok pop -> load file = inr m ->
  start_of m = Some S -> end_of m = Some E ->
  unique_route (m_size m) (m_map m) S E r ->
  (search_fuel (length (m_map m)) <= fuel)%nat ->
  exists m',
    solve_with hfun push pop fuel t m = Returns (m', "")
    /\ path_cost m' = Z.of_nat (length r) + 1000 * direction_changes dir_e r
    /\ (forall w, walk (m_size m) (m_map m) S E w -> path_cost m' <= walk_cost dir_e w)
    /\ (forall acts f, run_actions (m_size m) (m_map m) S dir_e acts = Some (E, f) ->
          path_cost m' <= actions_cost acts).
Proof.
  intros Hpush Hpop Hload HS HE Huniq Hfuel.
  destruct (solve_with_found hfun push Hpush pop Hpop file m Hload S E fuel t HS HE Hfuel)
    as (HS1 & HE1 & Hne & st & cost & Hloop & I & Hcases).
  set (tiles0 := List.map (fun t => set_state t state_reset) (m_map m)) in *.
  pose proof (unique_route_reset _ _ _ _ _ Huniq) as Huniq0. fold tiles0 in Huniq0.
  assert (cost = walk_cost dir_e r) as Hcost.
  { apply (route_search_result hfun push Hpush pop (m_size m) S E tiles0 r Hpop
             (tiles0_grid file m Hload) HS1 Hne Huniq0 fuel
             (search_init S tiles0) st cost); [|assumption].
    apply route_inv_init; try assumption. apply (tiles0_reset m). }
  assert (forall w, walk (m_size m) (m_map m) S E w -> cost <= walk_cost dir_e w) as Hmin.
  { intros w Hw. rewrite Hcost.
    destruct (walk_bound (m_size m) (m_map m) S E r Huniq dir_e (length r) E w) as (Hb & _).
    - lia.
    - rewrite take_ge by lia. apply (unique_route_follow _ _ _ _ _ Huniq).
    - assumption.
    - now rewrite take_ge in Hb by lia. }
  assert (0 <= walk_cost dir_e r) as Hnn.
  { rewrite walk_cost_changes.
    assert (forall f ds, 0 <= direction_changes f ds) as Hdc.
    { intros f ds. revert f. induction ds as [|d ds IHd]; intros f; simpl; [lia|].
      specialize (IHd d). case_decide; lia. }
    specialize (Hdc dir_e r). lia. }
  destruct Hcases as [(Hc & _)|(_ & _ & _ & tiles' & _ & _ & Hs)]; [exfalso; lia|].
  exists (mk_maze (m_size m) tiles' t (s_count st) cost).
  split; [exact Hs|]. simpl. split; [rewrite Hcost; apply walk_cost_changes|].
  split; [exact Hmin|].
  intros acts f Hrun.
  assert (valid_dir dir_e) as Hve by (unfold valid_dir, dir_e; lia).
  destruct (actions_walk _ _ _ _ _ _ _ Hve Hrun) as (w & Hw & Hc).
  specialize (Hmin w Hw). lia.
Qed.

(** * Further properties of the program *)

(** ** The order of the priority queue *)

Lemma state_gt_spec a b :
  state_gt a b = true
  <-> f_cost b < f_cost a \/ (f_cost a = f_cost b /\ h_cost b < h_cost a).
Proof.
  unfold state_gt. destruct (Z.eqb_spec (f_cost a) (f_cost b)); rewrite Z.ltb_lt; lia.
Qed.

Lemma state_gt_false a b :
  state_gt a b = false
  <-> f_cost a < f_cost b \/ (f_cost a = f_cost b /\ h_cost a <= h_cost b).
Proof. rewrite <- not_true_iff_false, state_gt_spec. lia. Qed.

Lemma state_le_trans a b c :
  state_gt a b = false -> state_gt b c = false -> state_gt a c = false.
Proof. rewrite !state_gt_false. lia. Qed.

(** X1. [state_t::operator>] is a strict weak order, as a comparison of a
    priority queue has to be: it is irreflexive, asymmetric and
    transitive, two states are incomparable exactly when they have the
    same [f_cost] and the same [h_cost], and "not greater" is
    transitive. *)
Theorem state_gt_strict_weak_order :
  (forall a, state_gt a a = false)
  /\ (forall a b, state_gt a b = true -> state_gt b a = false)
  /\ (forall a b c, state_gt a b = true -> state_gt b c = true -> state_gt a c = true)
  /\ (forall a b, state_gt a b = false /\ state_gt b a = false
                  <-> f_cost a = f_cost b /\ h_cost a = h_cost b)
  /\ (forall a b c, state_gt a b = false -> state_gt b c = false -> state_gt a c = false).
Proof.
  split; [|split; [|split; [|split]]].
  - intros a. apply state_gt_false. lia.
  - intros a b. rewrite state_gt_spec, state_gt_false. lia.
  - intros a b c. rewrite !state_gt_spec. lia.
  - intros a b. rewrite !state_gt_false. lia.
  - intros a b c. rewrite !state_gt_false. lia.
Qed.

(** X2. The queue keeps its entries whatever the states of the tiles
    are at the time of the call, also when the vector is no heap of the
    current states: [pq.push] adds the entry and nothing else,
    [pq.top()] is the front of the vector, and [pq.pop()] removes that
    entry and nothing else. *)
Theorem pq_keeps_entries tiles q n x xs :
  Permutation (n :: q) (pq_push tiles q n)
  /\ length (pq_push tiles q n) = Datatypes.S (length q)
  /\ fst (pq_pop tiles x xs) = x
  /\ Permutation xs (snd (pq_pop tiles x xs))
  /\ length (snd (pq_pop tiles x xs)) = length xs.
Proof.
  pose proof (pq_push_ok tiles q n) as Hpush.
  pose proof (pq_pop_ok tiles x xs) as Hpop.
  assert (fst (pq_pop tiles x xs) = x) as Htop by (unfold pq_pop; now destruct xs).
  rewrite Htop in Hpop. apply Permutation_cons_inv in Hpop.
  split; [assumption|]. split; [now rewrite <- (Permutation_length Hpush)|].
  split; [assumption|]. split; [assumption|].
  now rewrite <- (Permutation_length Hpop).
Qed.

(** ** Indices and positions *)

(** X3. [maze_t::idx] numbers the positions of a grid row by row: a
    position inside the grid gets an index below the number of tiles,
    column and row are the remainder and the quotient of the index by the
    width, and two positions inside the grid that get the same index are
    the same. *)
Theorem idx_row_major sz x y :
  0 <= x < vx sz -> 0 <= y < vy sz ->
  (idx sz x y < Z.to_nat (vx sz * vy sz))%nat
  /\ Z.of_nat (idx sz x y) mod vx sz = x
  /\ Z.of_nat (idx sz x y) / vx sz = y
  /\ forall x' y', 0 <= x' < vx sz -> 0 <= y' < vy sz ->
       idx sz x' y' = idx sz x y -> x' = x /\ y' = y.
Proof.
  intros Hx Hy. unfold idx.
  assert (0 <= y * vx sz + x < vx sz * vy sz) as Hr by nia.
  split; [lia|]. rewrite Z2Nat.id by lia.
  assert ((y * vx sz + x) mod vx sz = x) as Hm
    by (rewrite Z.add_comm, Z_mod_plus_full; apply Z.mod_small; lia).
  assert ((y * vx sz + x) / vx sz = y) as Hd
    by (rewrite Z.add_comm, Z_div_plus_full by lia; rewrite Z.div_small by lia; lia).
  split; [assumption|]. split; [assumption|].
  intros x' y' Hx' Hy' He.
  assert (0 <= y' * vx sz + x') as Hr' by nia.
  assert (y' * vx sz + x' = y * vx sz + x) as Hz by lia.
  assert ((y' * vx sz + x') mod vx sz = x') as Hm'
    by (rewrite Z.add_comm, Z_mod_plus_full; apply Z.mod_small; lia).
  assert ((y' * vx sz + x') / vx sz = y') as Hd'
    by (rewrite Z.add_comm, Z_div_plus_full by lia; rewrite Z.div_small by lia; lia).
  rewrite Hz in Hm', Hd'. split; congruence.
Qed.

Lemma manhattan_moves d : valid_dir d -> manhattan (moves d) = 1.
Proof.
  intros Hd. destruct (valid_dir_cases d Hd) as [-> | [-> | [-> | ->]]]; reflexivity.
Qed.

(** X4. A move of the search goes to a tile next to the current one: when
    the bounds test and the wall test of the loop over [move_dir] let the
    move to tile [n] through, [n] is a tile of the array that is not a
    wall, its position minus the position of the current tile is
    [moves[move_dir]], and the two positions are at Manhattan distance
    1. *)
Theorem step_is_adjacent sz tiles c d n :
  grid_ok sz tiles -> valid_dir d -> step_to sz tiles c d = Some n ->
  (n < length tiles)%nat
  /\ type (tile_at tiles n) <> t_wall
  /\ ivec2_sub (pos (tile_at tiles n)) (pos (tile_at tiles c)) = moves d
  /\ manhattan (ivec2_sub (pos (tile_at tiles n)) (pos (tile_at tiles c))) = 1
  /\ n <> c.
Proof.
  intros Hgrid Hd Hs.
  destruct (step_to_spec _ _ _ _ _ Hgrid Hs) as (Hn & Hw & Hp).
  assert (ivec2_sub (pos (tile_at tiles n)) (pos (tile_at tiles c)) = moves d) as Hsub.
  { rewrite Hp. unfold ivec2_sub, ivec2_add. simpl.
    destruct (moves d) as [mx my]. simpl. f_equal; lia. }
  split; [assumption|]. split; [assumption|]. split; [assumption|].
  split; [rewrite Hsub; now apply manhattan_moves|].
  exact (step_to_ne _ _ _ _ _ Hgrid Hs).
Qed.

(** ** Tiles and their glyphs *)

Lemma tile_to_char_plain t :
  is_marked t = false ->
  tile_to_char t = match type t with
                   | t_empty => "."%char
                   | t_wall => "#"%char
                   | t_start => "S"%char
                   | t_end => "E"%char
                   | t_invalid => "?"%char
                   end.
Proof. unfold is_marked, tile_to_char. now intros ->. Qed.

(** X5. [char_to_tile] and [tile_to_char] are inverse to each other on
    the four characters of a maze and on tiles without a path mark: a
    character is one of [.], [#], [S], [E] exactly when its tile type is
    not [invalid]; the tile made of such a character is drawn as that
    character whatever its position and its state, as long as no path bit
    is set; and the character drawn for an unmarked tile of a valid type
    reads back as its type. *)
Theorem char_tile_round_trip :
  (forall c, allowed_char c <-> char_to_tile c <> t_invalid)
  /\ (forall c p s, allowed_char c ->
        is_marked (mk_tile (char_to_tile c) p s) = false ->
        tile_to_char (mk_tile (char_to_tile c) p s) = c)
  /\ (forall t, type t <> t_invalid -> is_marked t = false ->
        char_to_tile (tile_to_char t) = type t).
Proof.
  split; [|split].
  - intros c. symmetry. apply char_to_tile_valid.
  - intros c p s Hc Hm. rewrite (tile_to_char_plain _ Hm).
    destruct Hc as [-> | [-> | [-> | ->]]]; reflexivity.
  - intros t Ht Hm. rewrite (tile_to_char_plain _ Hm).
    destruct (type t); [congruence | reflexivity..].
Qed.

Lemma lor_path_masked d : 0 <= d <= 4 -> Z.lxor (Z.lor d dir_path) dir_path = d.
Proof.
  intros Hd. assert (d = 0 \/ d = 1 \/ d = 2 \/ d = 3 \/ d = 4) as Hc by lia.
  destruct Hc as [-> | [-> | [-> | [-> | ->]]]]; reflexivity.
Qed.

Lemma lor_path_marked d : 0 <= d <= 4 -> (0 <? Z.land (Z.lor d dir_path) dir_path) = true.
Proof.
  intros Hd. assert (d = 0 \/ d = 1 \/ d = 2 \/ d = 3 \/ d = 4) as Hc by lia.
  destruct Hc as [-> | [-> | [-> | [-> | ->]]]]; reflexivity.
Qed.

Lemma plain_dir_unmarked d : 0 <= d <= 4 -> (0 <? Z.land d dir_path) = false.
Proof.
  intros Hd. assert (d = 0 \/ d = 1 \/ d = 2 \/ d = 3 \/ d = 4) as Hc by lia.
  destruct Hc as [-> | [-> | [-> | [-> | ->]]]]; reflexivity.
Qed.

Lemma tile_to_char_mark t :
  valid_dir (dir (state t)) -> type t <> t_start -> type t <> t_end ->
  tile_to_char (mark t) = arrow (dir (state t)).
Proof.
  intros Hd Hs He. unfold tile_to_char, mark, arrow, set_state. cbn [state dir type].
  unfold valid_dir in Hd.
  rewrite lor_path_marked, lor_path_masked by lia.
  apply tile_e_eqb_neq in Hs, He. rewrite Hs, He. cbn [negb andb].
  unfold dir_n, dir_s, dir_e, dir_w.
  destruct (Z.eqb_spec (dir (state t)) 0); [reflexivity|].
  destruct (Z.eqb_spec (dir (state t)) 1); [reflexivity|].
  destruct (Z.eqb_spec (dir (state t)) 2); [reflexivity|].
  destruct (Z.eqb_spec (dir (state t)) 3); [reflexivity | lia].
Qed.

(** X6. What the path walk writes is drawn as the arrow of the move: the
    start and the end are drawn as [S] and [E] whatever their state; any
    other tile whose facing is a direction is drawn, once the walk has
    set the path bits in it, as [^], [v], [>] or [<] for north, south,
    east or west; and a tile that was never reached (its facing is
    [none]) would be drawn as [?] if the walk marked it. *)
Theorem path_mark_glyphs :
  (forall p s, tile_to_char (mk_tile t_start p s) = "S"%char
               /\ tile_to_char (mk_tile t_end p s) = "E"%char)
  /\ (forall t, valid_dir (dir (state t)) -> type t <> t_start -> type t <> t_end ->
        is_marked (mark t) = true
        /\ tile_to_char (mark t) = arrow (dir (state t))
        /\ is_path_glyph (tile_to_char (mark t)) = true)
  /\ (forall t, dir (state t) = dir_none -> type t <> t_start -> type t <> t_end ->
        tile_to_char (mark t) = "?"%char).
Proof.
  split; [|split].
  - intros p s. unfold tile_to_char. cbn [type tile_e_eqb negb andb].
    rewrite !andb_false_r. simpl. auto.
  - intros t Hd Hs He. split; [|split].
    + unfold is_marked, mark, set_state. cbn [state dir].
      apply lor_path_marked. unfold valid_dir in Hd. lia.
    + now apply tile_to_char_mark.
    + rewrite tile_to_char_mark by assumption.
      destruct (valid_dir_cases _ Hd) as [-> | [-> | [-> | ->]]]; reflexivity.
  - intros t Hd Hs He. unfold tile_to_char, mark, set_state. cbn [state dir type].
    rewrite Hd. apply tile_e_eqb_neq in Hs, He. rewrite Hs, He. reflexivity.
Qed.

(** ** The heuristic *)

(** X7. The heuristic is the Manhattan distance plus 0, 1000 or 2000, so
    it is never negative; on the goal tile itself it is 0 for a tile that
    faces north and 1000 for any other facing, and these are the only
    tiles where it is 0. *)
Theorem heuristic_bounds a b :
  (heuristic a b = manhattan (ivec2_sub (pos a) (pos b))
   \/ heuristic a b = manhattan (ivec2_sub (pos a) (pos b)) + 1000
   \/ heuristic a b = manhattan (ivec2_sub (pos a) (pos b)) + 2000)
  /\ 0 <= heuristic a b
  /\ (pos a = pos b ->
        heuristic a b = if decide (dir (state a) = dir_n) then 0 else 1000)
  /\ (heuristic a b = 0 <-> pos a = pos b /\ dir (state a) = dir_n).
Proof.
  unfold heuristic, manhattan, ivec2_sub. cbn [vx vy].
  destruct (pos a) as [ax ay], (pos b) as [bx b_y]. cbn [vx vy].
  unfold dir_n, dir_s, dir_e, dir_w.
  destruct (Z.ltb_spec ax bx); destruct (Z.ltb_spec bx ax);
    destruct (Z.ltb_spec ay b_y);
    destruct (Z.eqb_spec ax bx); destruct (Z.eqb_spec ay b_y); try lia;
    cbn [orb negb];
    match goal with
    | |- context [dir (state a) =? ?d] => destruct (Z.eqb_spec (dir (state a)) d)
    end; cbn [negb].
  all: split; [lia|].
  all: split; [lia|].
  all: split.
  all: try (intros [= ? ?]; try lia; case_decide; lia).
  all: split.
  all: try (intros ?; first [exfalso; lia | split; [f_equal; lia | lia]]).
  all: try (intros ([= ? ?] & ?); lia).
Qed.

(** ** Reading lines *)

Lemma split_lines_line cur l rest :
  ~ In newline l ->
  split_lines cur (l ++ newline :: rest) = (rev cur ++ l) :: split_lines [] rest.
Proof.
  revert cur. induction l as [|c l IH]; intros cur Hn; simpl.
  - rewrite ?Ascii.eqb_refl, app_nil_r. reflexivity.
  - destruct (Ascii.eqb_spec c newline) as [->|Hc]; [exfalso; apply Hn; now left|].
    rewrite IH by (intros H; apply Hn; now right).
    simpl. now rewrite <- app_assoc.
Qed.

Lemma split_lines_last cur l :
  ~ In newline l -> split_lines cur l = [rev cur ++ l].
Proof.
  revert cur. induction l as [|c l IH]; intros cur Hn; simpl.
  - now rewrite app_nil_r.
  - destruct (Ascii.eqb_spec c newline) as [->|Hc]; [exfalso; apply Hn; now left|].
    rewrite IH by (intros H; apply Hn; now right).
    simpl. now rewrite <- app_assoc.
Qed.

Lemma split_lines_rows rows :
  (forall r, In r rows -> ~ In newline r) ->
  split_lines [] (concat (List.map (fun r => r ++ [newline]) rows)) = rows ++ [[]].
Proof.
  induction rows as [|r rows IH]; intros H; [reflexivity|].
  simpl. rewrite <- app_assoc. simpl.
  rewrite split_lines_line by (apply H; now left).
  simpl. f_equal. apply IH. intros r' Hr'. apply H. now right.
Qed.

Lemma split_lines_no_newline s : forall cur l,
  ~ In newline cur -> In l (split_lines cur s) -> ~ In newline l.
Proof.
  induction s as [|c s IH]; intros cur l Hcur; simpl.
  - intros [<-|[]]. now rewrite <- in_rev.
  - destruct (Ascii.eqb_spec c newline) as [->|Hc].
    + intros [<-|Hl]; [now rewrite <- in_rev|].
      apply (IH [] l); [intros [] | assumption].
    + apply IH. intros [->|H]; [congruence | contradiction].
Qed.

Lemma filter_nonempty_id (rows : list (list ascii)) :
  (forall r, In r rows -> r <> []) ->
  filter (fun l => nonempty_line l = true) rows = rows.
Proof.
  induction rows as [|r rows IH]; intros H; [reflexivity|].
  rewrite filter_cons. assert (r <> []) as Hr by (apply H; now left).
  destruct r as [|c r]; [congruence|]. rewrite decide_True by reflexivity.
  f_equal. apply IH. intros r' Hr'. apply H. now right.
Qed.

Lemma usable_lines_grid_text rows :
  (forall r, In r rows -> r <> [] /\ ~ In newline r) ->
  usable_lines (grid_text rows) = rows.
Proof.
  intros H. unfold usable_lines, grid_text.
  rewrite list_ascii_of_string_of_list_ascii.
  rewrite split_lines_rows by (intros r Hr; now apply H).
  rewrite filter_app, filter_nonempty_id by (intros r Hr; now apply H).
  rewrite filter_cons, decide_False by discriminate. apply app_nil_r.
Qed.

Lemma usable_lines_spec text l :
  In l (usable_lines text) -> l <> [] /\ ~ In newline l.
Proof.
  intros H. split; [exact (usable_lines_nonempty text l H)|].
  unfold usable_lines in H.
  apply list_elem_of_In, list_elem_of_filter in H as (_ & H).
  apply list_elem_of_In in H.
  apply (split_lines_no_newline (list_ascii_of_string text) [] l); [intros [] | assumption].
Qed.

(** X8. What [util::read_file] gives: a file that cannot be opened is the
    error "Failed to open file."; otherwise the lines it returns are the
    pieces between the newlines of the text that are not empty, none of
    them holds a newline, and there is at least one; when the text has
    no such piece (it is empty or made of newlines only) the error is
    "File is empty.". *)
Theorem read_file_lines file :
  match read_file file with
  | inl e =>
      (file = None /\ e = runtime_error "Failed to open file.")
      \/ (exists text, file = Some text /\ usable_lines text = []
                       /\ e = runtime_error "File is empty.")
  | inr lines =>
      exists text, file = Some text /\ lines = usable_lines text
        /\ lines <> []
        /\ forall l, In l lines -> l <> [] /\ ~ In newline l
  end.
Proof.
  unfold read_file. destruct file as [text|]; [|left; auto].
  fold (usable_lines text).
  destruct (usable_lines text) as [|l ls] eqn:U.
  - right. exists text. auto.
  - exists text. split; [reflexivity|]. split; [now rewrite U|]. split; [discriminate|].
    intros l' Hl'. apply (usable_lines_spec text). now rewrite U.
Qed.

(** X9. Writing rows one per line, as [maze_t::print] writes the grid,
    and reading the text back with [util::read_file] gives the rows
    again, when there is at least one row and every row is non-empty and
    free of newlines. *)
Theorem read_file_grid_text rows :
  rows <> [] ->
  (forall r, In r rows -> r <> [] /\ ~ In newline r) ->
  read_file (Some (grid_text rows)) = inr rows.
Proof.
  intros Hne H. unfold read_file. fold (usable_lines (grid_text rows)).
  rewrite (usable_lines_grid_text rows H).
  destruct rows; [congruence | reflexivity].
Qed.

(** ** The errors of [load] *)

(** X10. Which error [maze_t::load] raises: "Failed to open file." for a
    file that cannot be opened; "File is empty." for a text without a
    non-blank line; "Inconsistent row lengths in maze file." as soon as
    some line is not as long as the first one, also when the text holds a
    foreign character as well, since the lengths are tested first;
    "Invalid character in maze file.", the only [invalid_argument], for
    rows of equal length that hold a character outside [. # S E]; and no
    error otherwise. *)
Theorem load_error_messages :
  load None = inl (runtime_error "Failed to open file.")
  /\ forall text,
       (usable_lines text = [] ->
          load (Some text) = inl (runtime_error "File is empty."))
       /\ (usable_lines text <> [] -> inconsistent_rows (usable_lines text) ->
             load (Some text)
             = inl (runtime_error "Inconsistent row lengths in maze file."))
       /\ (usable_lines text <> [] -> ~ inconsistent_rows (usable_lines text) ->
           has_foreign_char (usable_lines text) ->
             load (Some text) = inl (invalid_argument "Invalid character in maze file."))
       /\ (usable_lines text <> [] -> ~ inconsistent_rows (usable_lines text) ->
           ~ has_foreign_char (usable_lines text) ->
             exists m, load (Some text) = inr m).
Proof.
  split; [reflexivity|]. intros text.
  unfold load, read_file. fold (usable_lines text).
  destruct (usable_lines text) as [|l ls] eqn:U.
  - split; [reflexivity|]. repeat split; intros H; congruence.
  - split; [discriminate|].
    unfold load_lines.
    destruct (forallb _ (l :: ls)) eqn:F.
    + apply rows_consistent in F. cbn [negb].
      destruct (load_rows 0 (l :: ls)) as [tiles|] eqn:R.
      * assert (~ has_foreign_char (l :: ls)) as Hf
          by (intros Hf; apply (proj2 (load_rows_none 0 _)) in Hf; congruence).
        split; [tauto|]. split; [tauto|]. eauto.
      * apply load_rows_none in R. split; [tauto|]. split; [reflexivity|]. tauto.
    + assert (inconsistent_rows (l :: ls)) as Hi.
      { destruct (rows_consistent (l :: ls)) as [_ H].
        assert (Exists (fun l' => length l' <> row_width (l :: ls)) (l :: ls)) as Hex.
        { generalize (row_width (l :: ls)) as w, F. generalize (l :: ls) as lines. clear.
          induction lines as [|l lines IH]; simpl; intros w F; [discriminate|].
          destruct (Nat.eqb_spec (length l) w); simpl in F.
          - right. now apply IH.
          - now left. }
        apply List.Exists_exists in Hex as (l' & Hin & Hne). exists l'. auto. }
      cbn [negb]. split; [reflexivity|]. split; tauto.
Qed.

(** ** What [load] builds, and how it is drawn *)

(** X11. What [maze_t::load] builds: the size is (length of the first
    non-blank line, number of non-blank lines), the counters are 0, and
    for the character [ch] in column [x] of the [y]-th non-blank line the
    tile [get(x, y)] is a tile of the array with the type of [ch], the
    position [(x, y)], the facing [none], no cost and the parent 0. *)
Theorem load_tiles text m :
  load (Some text) = inr m ->
  m_size m = mk_ivec2 (Z.of_nat (row_width (usable_lines text)))
                      (Z.of_nat (length (usable_lines text)))
  /\ length (m_map m) = Z.to_nat (vx (m_size m) * vy (m_size m))
  /\ solve_time m = 0 /\ search_count m = 0 /\ path_cost m = 0
  /\ forall x y l ch, usable_lines text !! y = Some l -> l !! x = Some ch ->
       (idx (m_size m) (Z.of_nat x) (Z.of_nat y) < length (m_map m))%nat
       /\ tile_at (m_map m) (idx (m_size m) (Z.of_nat x) (Z.of_nat y))
          = mk_tile (char_to_tile ch) (mk_ivec2 (Z.of_nat x) (Z.of_nat y))
                    (mk_state dir_none 0 0 0).
Proof.
  intros Hload.
  destruct (load_structure _ _ Hload)
    as (text' & lines & w & [= <-] & -> & -> & Hw0 & Hh0 & Hlw & _ & Hsz & Hlen & Ht & Hc & Hp & Hlk).
  split; [assumption|]. split; [rewrite Hlen, Hsz; cbn [vx vy]; lia|].
  split; [assumption|]. split; [assumption|]. split; [assumption|].
  intros x y l ch Hy Hx.
  assert (idx (m_size m) (Z.of_nat x) (Z.of_nat y)
          = (y * row_width (usable_lines text) + x)%nat) as ->
    by (rewrite Hsz; unfold idx; cbn [vx]; lia).
  split; [|now apply (Hlk y l x ch)].
  assert (In l (usable_lines text)) as Hin
    by (apply list_elem_of_In; eapply list_elem_of_lookup_2; eauto).
  apply lookup_lt_Some in Hy, Hx. rewrite (Hlw l Hin) in Hx. rewrite Hlen. nia.
Qed.

Lemma render_rows_loaded text m :
  load (Some text) = inr m -> render_rows m = usable_lines text.
Proof.
  intros Hload.
  destruct (load_structure _ _ Hload)
    as (text' & lines & w & [= <-] & -> & -> & Hw0 & Hh0 & Hlw & Hch & Hsz & _ & _ & _ & _ & Hlk).
  unfold render_rows, render_row. rewrite Hsz. cbn [vx vy]. rewrite !Nat2Z.id.
  apply map_seq_eq. intros y l Hy. cbv beta. rewrite Nat.add_0_l.
  assert (In l (usable_lines text)) as Hin
    by (apply list_elem_of_In; eapply list_elem_of_lookup_2; eauto).
  rewrite <- (Hlw l Hin). apply map_seq_eq. intros x ch Hx. cbv beta. rewrite Nat.add_0_l.
  assert (In ch l) as Hinc by (apply list_elem_of_In; eapply list_elem_of_lookup_2; eauto).
  rewrite (Hlw l Hin).
  replace (idx _ (Z.of_nat x) (Z.of_nat y)) with (y * row_width (usable_lines text) + x)%nat
    by (unfold idx; cbn [vx]; lia).
  rewrite (Hlk y l x ch Hy Hx).
  apply tile_to_char_unmarked; [now left | exact (Hch l ch Hin Hinc) | reflexivity].
Qed.

(** X12. A maze that was loaded and not solved is drawn as it was read:
    the rows [maze_t::print] draws are the non-blank lines of the input,
    and the text of the output file is the three lines of the summary
    followed by these lines, each with a newline. *)
Theorem loaded_maze_renders_as_input text m :
  load (Some text) = inr m ->
  render_rows m = usable_lines text
  /\ print writes_ok m
     = (summary m, inr (Some (String.append (summary m) (grid_text (usable_lines text))))).
Proof.
  intros Hload. pose proof (render_rows_loaded text m Hload) as Hr.
  split; [assumption|]. unfold print, render_grid. now rewrite Hr.
Qed.

(** X13. The grid [maze_t::print] draws for a loaded maze loads as the
    same maze: the text made of the rows of the grid, each with a
    newline, is accepted by [maze_t::load] and gives the maze again. *)
Theorem load_of_rendered_grid text m :
  load (Some text) = inr m ->
  load (Some (render_grid m)) = inr m.
Proof.
  intros Hload. unfold render_grid. rewrite (render_rows_loaded text m Hload).
  rewrite <- Hload. unfold load, read_file.
  fold (usable_lines (grid_text (usable_lines text))). fold (usable_lines text).
  now rewrite (usable_lines_grid_text _ (usable_lines_spec text)).
Qed.

(** ** The program as a whole *)

Lemma start_of_none m : start_of m = None <-> ~ has_type t_start (m_map m).
Proof. unfold start_of. rewrite locate_spec. cbn [fst snd]. apply last_index_none. Qed.

Lemma end_of_none m : end_of m = None <-> ~ has_type t_end (m_map m).
Proof. unfold end_of. rewrite locate_spec. cbn [fst snd]. apply last_index_none. Qed.

Lemma last_of_has_type ty tiles k : last_of ty tiles k -> has_type ty tiles.
Proof.
  intros (Hk & Ht & _). destruct (lookup_lt_is_Some_2 tiles k Hk) as (t & Hl).
  exists t. split.
  - apply list_elem_of_In. eapply list_elem_of_lookup_2; eauto.
  - now rewrite (tile_at_lookup _ _ _ Hl) in Ht.
Qed.

Lemma start_of_some m k : start_of m = Some k -> has_type t_start (m_map m).
Proof.
  unfold start_of. rewrite locate_spec. cbn [fst snd]. intros H.
  apply last_index_some in H. exact (last_of_has_type _ _ _ H).
Qed.

Lemma end_of_some m k : end_of m = Some k -> has_type t_end (m_map m).
Proof.
  unfold end_of. rewrite locate_spec. cbn [fst snd]. intros H.
  apply last_index_some in H. exact (last_of_has_type _ _ _ H).
Qed.

(** X14. [main] always comes to an end, with exit code 0 or 1. The code
    is 0 exactly when the input loads, the maze has a start tile and an
    end tile (whether a path was found or not) and [util::write_file]
    does not throw: the file was written, or the write was lost without
    the stream showing it. An output file is written exactly when the
    code is 0 and the write was not lost; with code 1 the last thing on
    the error stream is a line "Error: ..." with the message of the
    exception. *)
Theorem main_exit_code input access t :
  exists p,
    main input access t = Some p
    /\ (exit_code p = 0 \/ exit_code p = 1)
    /\ (exit_code p = 0
        <-> exists m, load input = inr m
              /\ has_type t_start (m_map m) /\ has_type t_end (m_map m)
              /\ (access = writes_ok \/ access = write_lost))
    /\ ((exists text, output_file p = Some text)
        <-> exit_code p = 0 /\ access = writes_ok)
    /\ (exit_code p = 1 ->
        exists pre e, std_err p = String.append pre (error_line e)).
Proof.
  unfold main, main_with. destruct (load input) as [e|m] eqn:L.
  - eexists. split; [reflexivity|]. cbn [exit_code output_file std_err].
    split; [now right|]. split; [|split].
    + split; [lia | intros (m & H & _); discriminate].
    + split; [intros (text & H); discriminate | intros (H & _); lia].
    + intros _. exists "", e. reflexivity.
  - pose proof (solve_with_total heuristic pq_push pq_pop input m (search_fuel (length (m_map m))) t
                  pq_push_ok pq_pop_ok L (Nat.le_refl _)) as Htot.
    destruct (solve_with heuristic pq_push pq_pop (search_fuel (length (m_map m))) t m)
      as [(m' & err)|e|] eqn:Sv; [| |congruence].
    + assert (has_type t_start (m_map m) /\ has_type t_end (m_map m)) as (HS & HE).
      { destruct (start_of m) as [S|] eqn:HS;
          [|rewrite (solve_with_throws heuristic pq_push pq_pop m) in Sv by auto; discriminate].
        destruct (end_of m) as [E|] eqn:HE;
          [|rewrite (solve_with_throws heuristic pq_push pq_pop m) in Sv by auto; discriminate].
        split; [exact (start_of_some m S HS) | exact (end_of_some m E HE)]. }
      unfold finish, print.
      destruct access; eexists; (split; [reflexivity|]);
        cbn [exit_code output_file std_err].
      * split; [now left|]. split; [|split].
        -- split; [intros _; exists m; auto | reflexivity].
        -- split; [auto | eauto].
        -- lia.
      * split; [now right|]. split; [|split].
        -- split; [lia | intros (m0 & _ & _ & _ & [H|H]); discriminate].
        -- split; [intros (text & H); discriminate | intros (H & _); lia].
        -- intros _. eauto.
      * split; [now right|]. split; [|split].
        -- split; [lia | intros (m0 & _ & _ & _ & [H|H]); discriminate].
        -- split; [intros (text & H); discriminate | intros (H & _); lia].
        -- intros _. eauto.
      * split; [now left|]. split; [|split].
        -- split; [intros _; exists m; auto | reflexivity].
        -- split; [intros (text & H); discriminate | intros (_ & H); discriminate].
        -- lia.
    + apply solve_with_throws_inv in Sv as (-> & Hno).
      eexists. split; [reflexivity|]. cbn [exit_code output_file std_err].
      split; [now right|]. split; [|split].
      * split; [lia|]. intros (m0 & [= <-] & HS & HE & _).
        destruct Hno as [H|H]; [apply start_of_none in H | apply end_of_none in H]; tauto.
      * split; [intros (text & H); discriminate | intros (H & _); lia].
      * intros _. exists "", config_error. reflexivity.
Qed.

(** X15. When the maze was loaded and has a start and an end but the
    output file does not get written, [solve] still runs and the three
    lines of the summary are on the console all the same
    ([maze_t::print] writes them before it writes the file). When the
    file cannot be opened, or the stream is in a failed state right
    after the insertion, the exception of [util::write_file] ends the
    run with exit code 1 and its message on the error stream, after what
    [solve] wrote there. When the write is lost behind the buffer of the
    stream nothing notices it: the exit code is 0, the error stream has
    what [solve] wrote and nothing else, and there is no output file
    either. *)
Theorem main_write_failure input m S E access t :
  load input = inr m -> start_of m = Some S -> end_of m = Some E ->
  access <> writes_ok ->
  exists m' err,
    solve t m = Returns (m', err)
    /\ main input access t
       = Some (match access with
               | write_lost => mk_process 0 (summary m') err None
               | _ =>
                   mk_process 1 (summary m')
                     (String.append err
                        (error_line (runtime_error
                           (match access with
                            | write_fails => "Failed to write to file."
                            | _ => "Failed to open file for writing."
                            end))))
                     None
               end).
Proof.
  intros Hload HS HE Hacc.
  destruct (solve_with_found heuristic pq_push pq_push_ok pq_pop pq_pop_ok input m Hload S E
              (search_fuel (length (m_map m))) t HS HE (Nat.le_refl _))
    as (_ & _ & _ & st & cost & _ & _ & [(_ & _ & Hs) | (_ & _ & _ & tiles' & _ & _ & Hs)]).
  - eexists. eexists. split; [exact Hs|].
    unfold main, main_with. rewrite Hload, Hs. unfold finish, print.
    destruct access; [congruence | reflexivity | reflexivity | reflexivity].
  - eexists. eexists. split; [exact Hs|].
    unfold main, main_with. rewrite Hload, Hs. unfold finish, print.
    destruct access; [congruence | reflexivity | reflexivity | reflexivity].
Qed.

(** ** What [solve] keeps of a maze *)

Lemma reset_all_insert tiles i t :
  ((i < length tiles)%nat ->
   type t = type (tile_at tiles i) /\ pos t = pos (tile_at tiles i)) ->
  reset_all (<[i := t]> tiles) = reset_all tiles.
Proof.
  intros H. unfold reset_all. destruct (Nat.lt_ge_cases i (length tiles)) as [Hlt|Hge].
  - destruct (H Hlt) as (Ht & Hp).
    destruct (lookup_lt_is_Some_2 tiles i Hlt) as (t0 & Hl).
    rewrite (tile_at_lookup _ _ _ Hl) in Ht, Hp.
    change (List.map ?f ?l) with (f <$> l).
    rewrite list_fmap_insert.
    apply list_insert_id. rewrite list_lookup_fmap, Hl. simpl.
    unfold set_state. now rewrite Ht, Hp.
  - now rewrite list_insert_ge.
Qed.

Lemma reset_all_relax hfun e c d n tiles :
  reset_all (relax hfun e c d n tiles) = reset_all tiles.
Proof.
  unfold relax. rewrite reset_all_insert.
  - apply reset_all_insert. intros _. split; reflexivity.
  - rewrite length_insert. intros Hn. rewrite tile_at_insert_eq by assumption.
    split; reflexivity.
Qed.

Lemma reset_all_explore hfun push sz e c st d :
  reset_all (s_map (explore hfun push sz e c st d)) = reset_all (s_map st).
Proof.
  rewrite explore_unfold. destruct (step_to sz (s_map st) c d) as [n|]; [|reflexivity].
  destruct (improves (s_map st) c d n); [|reflexivity].
  apply reset_all_relax.
Qed.

Lemma reset_all_expand hfun push sz e c st :
  reset_all (s_map (expand hfun push sz e c st)) = reset_all (s_map st).
Proof. rewrite expand_chain. now rewrite !reset_all_explore. Qed.

Lemma reset_all_search_loop hfun push pop sz e fuel st r cost :
  search_loop hfun push pop sz e fuel st = Some (r, cost) ->
  reset_all (s_map r) = reset_all (s_map st).
Proof.
  apply (search_loop_rule hfun push pop sz e
           (fun st' => reset_all (s_map st') = reset_all (s_map st))
           (fun r' _ => reset_all (s_map r') = reset_all (s_map st))).
  - auto.
  - auto.
  - intros st' x xs c rest H _ _ _. now rewrite reset_all_expand.
  - reflexivity.
Qed.

Lemma reset_all_mark_path S fuel : forall tiles curr tiles',
  mark_path S fuel tiles curr = Some tiles' -> reset_all tiles' = reset_all tiles.
Proof.
  induction fuel as [|fuel IH]; intros tiles curr tiles'; simpl; [discriminate|].
  set (tiles1 := <[curr := _]> tiles).
  assert (reset_all tiles1 = reset_all tiles) as H1
    by (apply reset_all_insert; intros _; split; reflexivity).
  destruct (Nat.eqb _ S).
  - intros [= <-]. exact H1.
  - intros H. rewrite (IH _ _ _ H). exact H1.
Qed.

Lemma reset_all_search_init S tiles :
  reset_all (s_map (search_init S tiles)) = reset_all tiles.
Proof.
  unfold search_init. cbn [s_map]. apply reset_all_insert. intros _. split; reflexivity.
Qed.

Lemma reset_all_idem tiles : reset_all (reset_all tiles) = reset_all tiles.
Proof. unfold reset_all. rewrite List.map_map. apply map_ext. reflexivity. Qed.

Lemma last_index_reset_all ty tiles : forall i acc,
  last_index ty i (reset_all tiles) acc = last_index ty i tiles acc.
Proof. induction tiles as [|t tiles IH]; intros i acc; simpl; [reflexivity | apply IH]. Qed.

Lemma reset_all_tile_at tiles tiles' i :
  reset_all tiles' = reset_all tiles ->
  type (tile_at tiles' i) = type (tile_at tiles i)
  /\ pos (tile_at tiles' i) = pos (tile_at tiles i).
Proof.
  unfold reset_all. intros H.
  destruct (tile_at_reset tiles i) as (T1 & P1 & _).
  destruct (tile_at_reset tiles' i) as (T2 & P2 & _).
  rewrite H in T2, P2. split; congruence.
Qed.

(** What [solve] makes of the array before the marks, when it returns. *)
Lemma solve_with_grid hfun push pop fuel t m m' err :
  solve_with hfun push pop fuel t m = Returns (m', err) ->
  m_size m' = m_size m /\ solve_time m' = t
  /\ reset_all (m_map m') = reset_all (m_map m).
Proof.
  unfold solve_with. rewrite locate_spec. fold (reset_all (m_map m)).
  destruct (last_index t_start 0 (m_map m) None) as [S|]; [|discriminate].
  destruct (last_index t_end 0 (m_map m) None) as [E|]; [|discriminate].
  destruct (search_loop _ _ _ _ _ _) as [(st & cost)|] eqn:L; [|discriminate].
  apply reset_all_search_loop in L.
  rewrite reset_all_search_init, reset_all_idem in L.
  destruct (cost =? -1).
  - intros [= <- <-]. cbn [m_size m_map solve_time]. auto.
  - destruct (mark_path _ _ _ _) as [tiles'|] eqn:Mk; [|discriminate].
    intros [= <- <-]. cbn [m_size m_map solve_time].
    apply reset_all_mark_path in Mk. rewrite Mk. auto.
Qed.

(** X16. [solve] changes the states of the tiles and nothing else of the
    grid: the maze it returns has the size of the maze it was given, as
    many tiles, and at every index a tile of the same type and position;
    [solve_time] is the reading of the stopwatch. This holds for every
    array, heuristic and queue discipline. *)
Theorem solve_keeps_grid hfun push pop fuel t m m' err :
  solve_with hfun push pop fuel t m = Returns (m', err) ->
  m_size m' = m_size m
  /\ solve_time m' = t
  /\ length (m_map m') = length (m_map m)
  /\ forall i, type (tile_at (m_map m') i) = type (tile_at (m_map m) i)
               /\ pos (tile_at (m_map m') i) = pos (tile_at (m_map m) i).
Proof.
  intros H. destruct (solve_with_grid _ _ _ _ _ _ _ _ H) as (Hs & Ht & Hr).
  split; [assumption|]. split; [assumption|]. split.
  - apply (f_equal (@length tile_t)) in Hr. unfold reset_all in Hr.
    now rewrite !length_map in Hr.
  - intros i. now apply reset_all_tile_at.
Qed.

(** X17. [solve] starts by resetting every state, so what it gives
    depends on the size, the types and the positions of the tiles only,
    not on the states or the counters the maze comes with: two mazes that
    agree on those are solved alike, and solving a solved maze again
    gives the same maze and the same text on the error stream, up to the
    reading of the stopwatch. *)
Theorem solve_again hfun push pop fuel t t' m m' err :
  solve_with hfun push pop fuel t m = Returns (m', err) ->
  (forall m2, m_size m2 = m_size m -> reset_all (m_map m2) = reset_all (m_map m) ->
     solve_with hfun push pop fuel t m2 = Returns (m', err))
  /\ solve_with hfun push pop fuel t' m' = Returns (with_time t' m', err).
Proof.
  intros H.
  assert (forall t2 m2, m_size m2 = m_size m -> reset_all (m_map m2) = reset_all (m_map m) ->
            solve_with hfun push pop fuel t2 m2 = solve_with hfun push pop fuel t2 m) as Hsame.
  { intros t2 m2 Hs Hr. unfold solve_with. rewrite !locate_spec.
    fold (reset_all (m_map m2)). fold (reset_all (m_map m)). rewrite Hs, Hr.
    rewrite <- (last_index_reset_all t_start (m_map m2)), <- (last_index_reset_all t_end (m_map m2)).
    rewrite Hr. now rewrite !last_index_reset_all. }
  split.
  - intros m2 Hs Hr. now rewrite Hsame.
  - destruct (solve_with_grid _ _ _ _ _ _ _ _ H) as (Hs & _ & Hr).
    rewrite (Hsame t' m' Hs Hr), solve_with_time.
    rewrite solve_with_time in H.
    destruct (solve_with hfun push pop fuel 0 m) as [(m0 & err0)|e|]; try discriminate.
    injection H as <- <-. reflexivity.
Qed.

(** ** The search reaches every tile a walk reaches *)

(** A move can be taken back. *)
Lemma step_back sz tiles0 x d y :
  grid_ok sz tiles0 ->
  valid_dir d -> (x < length tiles0)%nat -> type (tile_at tiles0 x) <> t_wall ->
  step_to sz tiles0 x d = Some y -> step_to sz tiles0 y (opposite d) = Some x.
Proof.
  intros Hgrid Hd Hx Hw Hs.
  destruct (step_to_spec _ _ _ _ _ Hgrid Hs) as (Hy & _ & Hp).
  destruct (grid_pos_range _ _ _ Hgrid Hx) as (Hxr & Hyr).
  assert (ivec2_add (pos (tile_at tiles0 y)) (moves (opposite d)) = pos (tile_at tiles0 x))
    as Hback.
  { rewrite Hp. destruct (pos (tile_at tiles0 x)) as [px py].
    destruct (valid_dir_cases d Hd) as [-> | [-> | [-> | ->]]];
      unfold ivec2_add; simpl; f_equal; lia. }
  unfold step_to. rewrite Hback.
  destruct (grid_pos_idx _ _ _ _ Hgrid Hxr Hyr) as (Hi & Hpi).
  assert (idx sz (vx (pos (tile_at tiles0 x))) (vy (pos (tile_at tiles0 x))) = x) as ->.
  { apply (grid_pos_inj sz tiles0); try assumption.
    rewrite Hpi. now destruct (pos (tile_at tiles0 x)). }
  replace (_ || _ || _ || _) with false.
  - apply tile_e_eqb_neq in Hw. now rewrite Hw.
  - symmetry. rewrite !orb_false_iff, !Z.ltb_ge, !Z.leb_gt. lia.
Qed.

Section Closure.
Variable hfun : tile_t -> tile_t -> Z.
Variable push : list tile_t -> list nat -> nat -> list nat.
Hypothesis Hpush : push_ok push.
Variable sz : ivec2.
Variables S E : nat.
Variable tiles0 : list tile_t.
Hypothesis Hgrid : grid_ok sz tiles0.
Hypothesis HS : (S < length tiles0)%nat.
Hypothesis HSw : type (tile_at tiles0 S) <> t_wall.

Lemma closed_relax st c d n :
  closed_inv sz S E tiles0 (Some c) st -> valid_dir d ->
  step_to sz tiles0 c d = Some n -> improves (s_map st) c d n = true ->
  closed_inv sz S E tiles0 (Some c)
    (mk_search (relax hfun E c d n (s_map st))
       (push (relax hfun E c d n (s_map st)) (s_pq st) n) (s_count st + 1)).
Proof.
  intros [I C Hcl Hend Hpar Hfr Hsta] Hd Hstep Himp.
  pose proof (C c eq_refl) as Cc.
  pose proof (relax_inv hfun push Hpush sz S E tiles0 Hgrid st c d n I Cc Hd Hstep Himp) as I'.
  destruct (step_to_spec _ _ _ _ _ Hgrid Hstep) as (Hn0 & _ & _).
  pose proof (step_to_ne _ _ _ _ _ Hgrid Hstep) as Hnc.
  assert (n < length (s_map st))%nat as Hn by (now rewrite (inv_len _ _ _ _ I)).
  pose proof (inv_g _ _ _ _ I c) as Hgc0.
  pose proof (candidate_pos (s_map st) c d Hgc0) as Hcand.
  constructor; cbn [s_map s_pq].
  - exact I'.
  - intros x [= <-]. destruct Cc as (Hc & Hdc). split; [assumption|].
    cbn [s_map]. rewrite D_relax by assumption. rewrite decide_False by congruence.
    exact Hdc.
  - intros x d' n' Hx Hd' Hs. rewrite G_relax by assumption.
    destruct (decide (x = n)) as [->|Hxn].
    + left. apply (push_ok_in _ _ _ _ _ Hpush), in_or_app. right. now left.
    + rewrite D_relax, decide_False in Hx by assumption.
      destruct (Hcl x d' n' Hx Hd' Hs) as [Hin | [Hr | Hc]].
      * left. apply (push_ok_in _ _ _ _ _ Hpush), in_or_app. now left.
      * right. left. case_decide; lia.
      * right. right. assumption.
  - rewrite D_relax by assumption. destruct (decide (E = n)) as [->|HEn]; intros HE.
    + apply (push_ok_in _ _ _ _ _ Hpush), in_or_app. right. now left.
    + apply (push_ok_in _ _ _ _ _ Hpush), in_or_app. left. now apply Hend.
  - intros i. rewrite G_relax, P_relax, D_relax by assumption.
    destruct (decide (i = n)) as [->|Hin]; [intros _; exact Hstep | apply Hpar].
  - intros i. rewrite D_relax by assumption. destruct (decide (i = n)) as [->|Hin].
    + intros ->. unfold valid_dir, dir_none in Hd. lia.
    + intros Hi. rewrite relax_other by assumption. now apply Hfr.
  - intros i. rewrite !G_relax, P_relax by assumption.
    assert (0 < (if decide (S = n) then candidate (s_map st) c d else G (s_map st) S)
            <-> S = n \/ 0 < G (s_map st) S) as HgS by (case_decide; lia).
    destruct (decide (i = n)) as [->|Hin].
    + intros _ HnS HcS. rewrite HgS.
      destruct (decide (0 < G (s_map st) S)) as [Hpos|Hzero]; [left; now right|].
      right. split; [reflexivity|].
      destruct Cc as (Hc & Hdc).
      pose proof (inv_dg _ _ _ _ I c HcS Hdc) as Hgc.
      assert (P (s_map st) c = S) as HpS.
      { destruct (decide (P (s_map st) c = S)) as [H|H]; [exact H|].
        destruct (Hsta c Hgc HcS H) as [Hpos | (Heq & _)]; [contradiction|].
        apply (inj Some) in Heq. pose proof (Hpar c Hgc) as Hsc.
        apply (step_to_ne _ _ _ _ _ Hgrid) in Hsc. congruence. }
      pose proof (Hpar c Hgc) as Hsc. rewrite HpS in Hsc.
      exists (opposite (D (s_map st) c)). split.
      * destruct (valid_dir_cases _ Hdc) as [-> | [-> | [-> | ->]]];
          unfold valid_dir, opposite, dir_n, dir_s, dir_e, dir_w; simpl; lia.
      * apply step_back; assumption.
    + intros Hgi HiS HpS. rewrite HgS.
      destruct (Hsta i Hgi HiS HpS) as [Hpos | H]; [left; now right | now right].
Qed.

Lemma closed_explore st c d :
  closed_inv sz S E tiles0 (Some c) st -> valid_dir d ->
  closed_inv sz S E tiles0 (Some c) (explore hfun push sz E c st d).
Proof.
  intros R Hd.
  rewrite explore_unfold, (step_to_inv sz S tiles0 st c d (cl_base _ _ _ _ _ _ R)).
  destruct (step_to sz tiles0 c d) as [n|] eqn:Hstep; [|assumption].
  destruct (improves (s_map st) c d n) eqn:Himp; [|assumption].
  now apply closed_relax.
Qed.

Lemma closed_expand st c :
  closed_inv sz S E tiles0 (Some c) st ->
  closed_inv sz S E tiles0 None (expand hfun push sz E c st).
Proof.
  intros R0.
  assert (valid_dir 0 /\ valid_dir 1 /\ valid_dir 2 /\ valid_dir 3) as (V0 & V1 & V2 & V3)
    by (unfold valid_dir; lia).
  pose proof (closed_explore st c 0 R0 V0) as R1.
  pose proof (closed_explore _ c 1 R1 V1) as R2.
  pose proof (closed_explore _ c 2 R2 V2) as R3.
  pose proof (closed_explore _ c 3 R3 V3) as R4.
  assert (forall d n, valid_dir d -> step_to sz tiles0 c d = Some n ->
            0 < G (s_map (expand hfun push sz E c st)) n) as Hreach.
  { intros d n Hd Hs.
    apply (expand_reaches hfun push Hpush sz S E tiles0 Hgrid HS st c d n); try assumption.
    - apply (cl_base _ _ _ _ _ _ R0).
    - apply (cl_cur _ _ _ _ _ _ R0 c eq_refl). }
  rewrite expand_chain in *.
  destruct R4 as [I C Hcl Hend Hpar Hfr Hsta].
  constructor; try assumption.
  - intros x [=].
  - intros x d n Hx Hd Hs.
    destruct (Hcl x d n Hx Hd Hs) as [H | [H | H]];
      [left; exact H | right; left; exact H |].
    injection H as <-. right. left. exact (Hreach d n Hd Hs).
  - intros i Hgi HiS HpS.
    destruct (Hsta i Hgi HiS HpS) as [H | (Heq & d & Hd & Hs)]; [left; exact H|].
    apply (inj Some) in Heq. left. rewrite <- Heq in Hs. exact (Hreach d S Hd Hs).
Qed.

Lemma closed_pop pop st x xs c rest :
  pop_ok pop -> closed_inv sz S E tiles0 None st ->
  s_pq st = x :: xs -> pop (s_map st) x xs = (c, rest) -> c <> E ->
  closed_inv sz S E tiles0 (Some c) (mk_search (s_map st) rest (s_count st)).
Proof.
  intros Hpop [I _ Hcl Hend Hpar Hfr Hsta] Hpq Hp HcE.
  destruct (pop_inv pop sz S tiles0 Hpop _ _ _ _ _ I Hpq Hp) as (I1 & C1 & _).
  constructor; cbn [s_map s_pq]; try assumption.
  - intros y [= <-]. exact C1.
  - intros y d n Hy Hd Hs.
    destruct (Hcl y d n Hy Hd Hs) as [Hin | [H | H]];
      [| right; left; exact H | discriminate].
    rewrite Hpq in Hin.
    destruct (pop_ok_keep _ _ _ _ _ _ _ Hpop Hp Hin) as [->|Hin'];
      [right; right; reflexivity | left; exact Hin'].
  - intros Hd. specialize (Hend Hd). rewrite Hpq in Hend.
    destruct (pop_ok_keep _ _ _ _ _ _ _ Hpop Hp Hend) as [->|Hin'];
      [congruence | assumption].
  - intros i Hgi HiS HpS.
    destruct (Hsta i Hgi HiS HpS) as [H | (H & _)]; [left; exact H | discriminate].
Qed.

Lemma closed_init :
  (forall i, state (tile_at tiles0 i) = state_reset) ->
  closed_inv sz S E tiles0 None (search_init S tiles0).
Proof.
  intros Hreset.
  pose proof (init_D S tiles0 Hreset HS) as HD.
  pose proof (init_G S tiles0 Hreset HS) as HG.
  assert (forall x, valid_dir (D (s_map (search_init S tiles0)) x) -> x = S) as Honly.
  { intros x. rewrite HD. case_decide; [auto|]. unfold valid_dir, dir_none. lia. }
  constructor.
  - now apply init_inv.
  - intros x [=].
  - intros x d n Hx _ _. apply Honly in Hx. subst x. left. now left.
  - intros Hd. apply Honly in Hd. subst. now left.
  - intros i. rewrite HG. lia.
  - intros i. rewrite HD. case_decide as Hi; [intros [=]|].
    intros _. rewrite (init_tile S tiles0 Hreset HS i), decide_False by assumption.
    apply Hreset.
  - intros i. rewrite HG. lia.
Qed.

(** What is left when the loop of the search is over. When the queue
    ran empty every tile a walk reaches from the start has been reached
    and the end has not: there is no walk to it. *)
Lemma closed_search_result pop fuel st r cost :
  pop_ok pop -> closed_inv sz S E tiles0 None st ->
  search_loop hfun push pop sz E fuel st = Some (r, cost) ->
  (cost = -1 -> forall ds, ~ walk sz tiles0 S E ds)
  /\ (cost = -1 -> forall x d n, valid_dir (D (s_map r) x) -> valid_dir d ->
        step_to sz tiles0 x d = Some n -> 0 < G (s_map r) n)
  /\ (forall i, 0 < G (s_map r) i ->
        step_to sz tiles0 (P (s_map r) i) (D (s_map r) i) = Some i)
  /\ (forall i, D (s_map r) i = dir_none -> state (tile_at (s_map r) i) = state_reset)
  /\ (forall i, 0 < G (s_map r) i -> i <> S -> P (s_map r) i <> S -> 0 < G (s_map r) S).
Proof.
  intros Hpop.
  apply (search_loop_rule hfun push pop sz E (closed_inv sz S E tiles0 None)
           (fun r cost =>
              (cost = -1 -> forall ds, ~ walk sz tiles0 S E ds)
              /\ (cost = -1 -> forall x d n, valid_dir (D (s_map r) x) -> valid_dir d ->
                    step_to sz tiles0 x d = Some n -> 0 < G (s_map r) n)
              /\ (forall i, 0 < G (s_map r) i ->
                    step_to sz tiles0 (P (s_map r) i) (D (s_map r) i) = Some i)
              /\ (forall i, D (s_map r) i = dir_none ->
                    state (tile_at (s_map r) i) = state_reset)
              /\ (forall i, 0 < G (s_map r) i -> i <> S -> P (s_map r) i <> S ->
                    0 < G (s_map r) S))).
  - intros st' R Hpq.
    assert (forall x d n, valid_dir (D (s_map st') x) -> valid_dir d ->
              step_to sz tiles0 x d = Some n -> 0 < G (s_map st') n) as Hcl.
    { intros x d n Hx Hd Hs.
      destruct (cl_closed _ _ _ _ _ _ R x d n Hx Hd Hs) as [Hin | [H | H]];
        [rewrite Hpq in Hin; contradiction | exact H | discriminate]. }
    split; [|split; [intros _; exact Hcl|split;
      [apply (cl_parent _ _ _ _ _ _ R)|split; [apply (cl_fresh _ _ _ _ _ _ R)|]]]].
    + intros _ ds (Hv & Hf).
      assert (forall ds x y, valid_dir (D (s_map st') x) -> Forall valid_dir ds ->
                follow sz tiles0 x ds = Some y -> valid_dir (D (s_map st') y)) as Hall.
      { clear ds Hv Hf. induction ds as [|d ds IH]; intros x y Hx Hv; simpl.
        - now intros [= <-].
        - destruct (step_to sz tiles0 x d) as [n|] eqn:Hs; [|discriminate].
          apply IH; [|now apply Forall_inv_tail in Hv].
          apply Forall_inv in Hv.
          apply (inv_gd _ _ _ _ (cl_base _ _ _ _ _ _ R)). exact (Hcl x d n Hx Hv Hs). }
      pose proof (Hall ds S E (inv_start _ _ _ _ (cl_base _ _ _ _ _ _ R)) Hv Hf) as HE.
      apply (cl_end _ _ _ _ _ _ R) in HE. rewrite Hpq in HE. contradiction.
    + intros i Hgi HiS HpS.
      destruct (cl_start _ _ _ _ _ _ R i Hgi HiS HpS) as [H | (H & _)];
        [exact H | discriminate].
  - intros st' x xs rest R Hpq Hp. cbn [s_map].
    assert (G (s_map st') E <> -1) as Hne
      by (pose proof (inv_g _ _ _ _ (cl_base _ _ _ _ _ _ R) E); lia).
    split; [intros Hc; contradiction|]. split; [intros Hc; contradiction|].
    split; [apply (cl_parent _ _ _ _ _ _ R)|]. split; [apply (cl_fresh _ _ _ _ _ _ R)|].
    intros i Hgi HiS HpS.
    destruct (cl_start _ _ _ _ _ _ R i Hgi HiS HpS) as [H | (H & _)];
      [exact H | discriminate].
  - intros st' x xs c rest R Hpq Hp Hc. apply closed_expand.
    now apply (closed_pop pop st' x xs).
Qed.
End Closure.

(** ** The tiles of the path walk *)

Lemma mark_idem t : mark (mark t) = mark t.
Proof.
  unfold mark, set_state. cbn [state dir g_cost h_cost p_idx type pos].
  now rewrite lor_path_idem.
Qed.

Section PathWalk.
Variable sz : ivec2.
Variable tiles0 : list tile_t.
Variable S : nat.
Variable orig : list tile_t.
Hypothesis Hchain : forall i, i <> S -> 0 < G orig i ->
    (P orig i < length orig)%nat
    /\ (P orig i = S \/ 0 < G orig (P orig i) < G orig i).
Hypothesis Hpar : forall i, 0 < G orig i ->
    step_to sz tiles0 (P orig i) (D orig i) = Some i.

(** The tiles the path walk goes over, in reverse, are the tiles of a
    walk from the start that visits no tile twice; its moves are their
    facings. *)
Lemma path_tiles_walk fuel : forall curr,
  curr <> S -> 0 < G orig curr -> (Z.to_nat (G orig curr) <= fuel)%nat ->
  follow sz tiles0 S (List.map (D orig) (rev (path_tiles S fuel orig curr))) = Some curr
  /\ visits sz tiles0 S (List.map (D orig) (rev (path_tiles S fuel orig curr)))
     = S :: rev (path_tiles S fuel orig curr)
  /\ (forall x, In x (path_tiles S fuel orig curr) ->
        x <> S /\ 0 < G orig x <= G orig curr)
  /\ NoDup (path_tiles S fuel orig curr).
Proof.
  induction fuel as [|fuel IH]; intros curr Hc Hg Hf; [lia|].
  cbn [path_tiles].
  pose proof (Hpar curr Hg) as Hstep.
  destruct (Nat.eqb_spec (P orig curr) S) as [Hp|Hp].
  - rewrite Hp in Hstep. cbn [rev app List.map follow visits]. rewrite Hstep.
    cbn [follow visits].
    split; [reflexivity|]. split; [reflexivity|]. split.
    + intros x [<-|[]]. split; [assumption | lia].
    + apply NoDup_singleton.
  - destruct (Hchain curr Hc Hg) as (_ & [?|Hlt]); [contradiction|].
    assert (0 < G orig (P orig curr)) as Hgp by lia.
    assert (Z.to_nat (G orig (P orig curr)) <= fuel)%nat as Hfp by lia.
    destruct (IH (P orig curr) Hp Hgp Hfp) as (Hfol & Hvis & Hall & Hnd).
    set (ch := path_tiles S fuel orig (P orig curr)) in *.
    cbn [rev]. rewrite map_app. cbn [List.map].
    split; [|split; [|split]].
    + rewrite follow_app, Hfol. cbn [follow]. now rewrite Hstep.
    + rewrite (visits_app _ _ _ _ _ _ Hfol), Hvis. cbn [visits]. rewrite Hstep.
      reflexivity.
    + intros x [<-|Hx]; [split; [assumption | lia]|].
      destruct (Hall x Hx). split; [assumption | lia].
    + apply NoDup_cons. split; [|assumption].
      intros Hin. apply list_elem_of_In in Hin. destruct (Hall curr Hin). lia.
Qed.

(** What the path walk makes of the array: the tiles it goes over are
    marked and no other tile changes. [M] holds the tiles that are
    marked already. *)
Lemma mark_path_tiles fuel : forall tiles curr M,
  length tiles = length orig ->
  (forall i, In i M -> tile_at tiles i = mark (tile_at orig i)) ->
  (forall i, ~ In i M -> tile_at tiles i = tile_at orig i) ->
  curr <> S -> 0 < G orig curr -> (curr < length orig)%nat ->
  (Z.to_nat (G orig curr) <= fuel)%nat ->
  exists tiles',
    mark_path S fuel tiles curr = Some tiles'
    /\ length tiles' = length orig
    /\ (forall i, In i (M ++ path_tiles S fuel orig curr) ->
          tile_at tiles' i = mark (tile_at orig i))
    /\ (forall i, ~ In i (M ++ path_tiles S fuel orig curr) ->
          tile_at tiles' i = tile_at orig i).
Proof.
  induction fuel as [|fuel IH]; intros tiles curr M Hlen HM HnM Hc Hg Hr Hf; [lia|].
  cbn [mark_path path_tiles]. cbv zeta.
  fold (mark (tile_at tiles curr)).
  assert (mark (tile_at tiles curr) = mark (tile_at orig curr)) as Hmk.
  { destruct (in_dec Nat.eq_dec curr M) as [Hin|Hnin].
    - rewrite (HM _ Hin). apply mark_idem.
    - now rewrite (HnM _ Hnin). }
  assert (p_idx (state (tile_at tiles curr)) = P orig curr) as Hp.
  { change (p_idx (state (tile_at tiles curr)))
      with (p_idx (state (mark (tile_at tiles curr)))).
    rewrite Hmk. reflexivity. }
  rewrite Hp, Hmk.
  set (tiles1 := <[curr := mark (tile_at orig curr)]> tiles).
  assert (length tiles1 = length orig) as Hlen1 by (unfold tiles1; now rewrite length_insert).
  assert (forall i, In i (M ++ [curr]) -> tile_at tiles1 i = mark (tile_at orig i)) as HM1.
  { intros i Hi. unfold tiles1. destruct (decide (i = curr)) as [->|Hne].
    - apply tile_at_insert_eq. now rewrite Hlen.
    - rewrite tile_at_insert_ne by congruence. apply HM.
      apply in_app_or in Hi as [Hi|[<-|[]]]; [assumption | congruence]. }
  assert (forall i, ~ In i (M ++ [curr]) -> tile_at tiles1 i = tile_at orig i) as HnM1.
  { intros i Hi. unfold tiles1. rewrite tile_at_insert_ne.
    - apply HnM. intros H. apply Hi. apply in_or_app. now left.
    - intros ->. apply Hi. apply in_or_app. right. now left. }
  destruct (Nat.eqb_spec (P orig curr) S) as [HpS|HpS].
  - exists tiles1. split; [reflexivity|]. split; [assumption|]. split; assumption.
  - destruct (Hchain curr Hc Hg) as (Hpr & [?|Hlt]); [contradiction|].
    assert (0 < G orig (P orig curr)) as Hgp by lia.
    assert (Z.to_nat (G orig (P orig curr)) <= fuel)%nat as Hfp by lia.
    destruct (IH tiles1 (P orig curr) (M ++ [curr]) Hlen1 HM1 HnM1 HpS Hgp Hpr Hfp)
      as (tiles' & Hmp & Hl' & H1 & H2).
    exists tiles'. split; [assumption|]. split; [assumption|].
    rewrite <- app_assoc in H1, H2. split; assumption.
Qed.
End PathWalk.

(** ** What a run of [solve] leaves, in full *)

Lemma step_to_reset_all sz tiles c d :
  step_to sz (reset_all tiles) c d = step_to sz tiles c d.
Proof.
  apply step_to_ext; intros i; unfold reset_all;
    now destruct (tile_at_reset tiles i) as (? & ? & _).
Qed.

Lemma solve_with_final hfun push pop file m S E fuel t :
  push_ok push -> pop_ok pop -> load file = inr m ->
  start_of m = Some S -> end_of m = Some E ->
  (search_fuel (length (m_map m)) <= fuel)%nat ->
  (S < length (m_map m))%nat /\ (E < length (m_map m))%nat /\ S <> E
  /\ exists st,
      search_inv (m_size m) S (reset_all (m_map m)) st
      /\ (forall i, 0 < G (s_map st) i ->
            step_to (m_size m) (m_map m) (P (s_map st) i) (D (s_map st) i) = Some i)
      /\ (forall i, D (s_map st) i = dir_none ->
            state (tile_at (s_map st) i) = state_reset)
      /\ (forall i, 0 < G (s_map st) i -> i <> S -> P (s_map st) i <> S ->
            0 < G (s_map st) S)
      /\ ((s_pq st = [] /\ (forall ds, ~ walk (m_size m) (m_map m) S E ds)
           /\ (forall x d n, valid_dir (D (s_map st) x) -> valid_dir d ->
                 step_to (m_size m) (m_map m) x d = Some n -> 0 < G (s_map st) n)
           /\ solve_with hfun push pop fuel t m
              = Returns (mk_maze (m_size m) (s_map st) t (s_count st) (-1), no_path_line))
          \/ (0 < G (s_map st) E /\ valid_dir (D (s_map st) E)
              /\ exists tiles',
                  mark_path S fuel (s_map st) E = Some tiles'
                  /\ marked_from (s_map st) tiles'
                  /\ solve_with hfun push pop fuel t m
                     = Returns (mk_maze (m_size m) tiles' t (s_count st)
                                  (G (s_map st) E), ""))).
Proof.
  intros Hpush Hpop Hload HS HE Hfuel.
  destruct (solve_with_found hfun push Hpush pop Hpop file m Hload S E fuel t HS HE Hfuel)
    as (HS1 & HE1 & Hne & st & cost & Hloop & I & Hcases).
  pose proof (tiles0_grid file m Hload) as Hgrid.
  pose proof (tiles0_reset m) as Hreset.
  change (List.map (fun t => set_state t state_reset) (m_map m))
    with (reset_all (m_map m)) in *.
  assert (length (reset_all (m_map m)) = length (m_map m)) as Hlen0 by apply length_map.
  assert (type (tile_at (reset_all (m_map m)) S) <> t_wall) as HSw.
  { unfold reset_all. destruct (tile_at_reset (m_map m) S) as (-> & _).
    unfold start_of in HS. rewrite locate_spec in HS. cbn [fst snd] in HS.
    apply last_index_some in HS as (_ & -> & _). discriminate. }
  pose proof (closed_search_result hfun push Hpush (m_size m) S E (reset_all (m_map m)) Hgrid HS1 HSw
                pop fuel _ st cost Hpop
                (closed_init (m_size m) S E (reset_all (m_map m)) HS1 Hreset)
                Hloop)
    as (Hno & Hcl & Hpar & Hfr & Hsta).
  split; [lia|]. split; [lia|]. split; [assumption|].
  exists st. split; [exact I|].
  split; [intros i Hi; rewrite <- step_to_reset_all; now apply Hpar|].
  split; [exact Hfr|]. split; [exact Hsta|].
  destruct Hcases as [(-> & Hpq & Hs) | (-> & Hg & Hd & tiles' & Hmk & Hmf & Hs)].
  - left. split; [assumption|]. split; [|split; [|exact Hs]].
    + intros ds Hw. apply (Hno eq_refl ds). now apply (walk_tiles0 m).
    + intros x d n Hx Hd Hst. rewrite <- step_to_reset_all in Hst.
      exact (Hcl eq_refl x d n Hx Hd Hst).
  - right. split; [assumption|]. split; [assumption|]. exists tiles'. auto.
Qed.

(** ** The search on any maze *)

(** X18. On every loaded maze with a start and an end [solve] finds a
    path exactly when there is one: it returns, the cost it reports is
    the sentinel [-1] exactly when no walk over tiles that are not walls
    leads from the start to the end, and the line "No path found to the
    goal." is on the error stream in that case and in no other. This
    holds for every heuristic and every queue discipline. *)
Theorem path_found_iff_walk hfun push pop file m S E fuel t :
  push_ok push -> pop_ok pop -> load file = inr m ->
  start_of m = Some S -> end_of m = Some E ->
  (search_fuel (length (m_map m)) <= fuel)%nat ->
  exists m' err,
    solve_with hfun push pop fuel t m = Returns (m', err)
    /\ (path_cost m' = -1 <-> forall ds, ~ walk (m_size m) (m_map m) S E ds)
    /\ (path_cost m' <> -1 <-> exists ds, walk (m_size m) (m_map m) S E ds)
    /\ (path_cost m' = -1 -> err = no_path_line)
    /\ (path_cost m' <> -1 -> err = "").
Proof.
  intros Hpush Hpop Hload HS HE Hfuel.
  destruct (solve_with_final hfun push pop file m S E fuel t Hpush Hpop Hload HS HE Hfuel)
    as (_ & _ & _ & st & I & _ & _ & _
        & [(_ & Hno & _ & Hs) | (Hg & Hd & tiles' & _ & _ & Hs)]).
  - eexists. eexists. split; [exact Hs|]. cbn [path_cost].
    split; [tauto|]. split; [|split; [reflexivity | congruence]].
    split; [congruence|]. intros (ds & Hw). exfalso. exact (Hno ds Hw).
  - eexists. eexists. split; [exact Hs|]. cbn [path_cost].
    destruct (inv_walk _ _ _ _ I E Hd) as (ds & Hw & _).
    apply (walk_tiles0 m) in Hw.
    split; [|split; [|split; [lia | reflexivity]]].
    + split; [lia|]. intros Hno. exfalso. exact (Hno ds Hw).
    + split; [eauto | lia].
Qed.

(** X19. A cost that [solve] reports is the cost of a walk: when the
    reported cost is not [-1] there is a walk from the start to the end
    that costs exactly that much for a walker that starts facing east (1
    for a move in the direction it faces, 1001 for a move in another
    one), so the minimum over all walks is never above what is reported;
    the cost is positive, at most 1001 times the number of tiles, and it
    is the [g_cost] the end tile is left with. *)
Theorem path_cost_of_a_walk hfun push pop file m S E fuel t :
  push_ok push -> pop_ok pop -> load file = inr m ->
  start_of m = Some S -> end_of m = Some E ->
  (search_fuel (length (m_map m)) <= fuel)%nat ->
  exists m' err,
    solve_with hfun push pop fuel t m = Returns (m', err)
    /\ (path_cost m' <> -1 ->
        (exists ds, walk (m_size m) (m_map m) S E ds
                    /\ walk_cost dir_e ds = path_cost m')
        /\ 0 < path_cost m' <= 1001 * Z.of_nat (length (m_map m))
        /\ path_cost m' = G (m_map m') E).
Proof.
  intros Hpush Hpop Hload HS HE Hfuel.
  destruct (solve_with_final hfun push pop file m S E fuel t Hpush Hpop Hload HS HE Hfuel)
    as (_ & _ & _ & st & I & _ & _ & _
        & [(_ & _ & _ & Hs) | (Hg & Hd & tiles' & _ & Hmf & Hs)]).
  - eexists. eexists. split; [exact Hs|]. cbn [path_cost]. congruence.
  - eexists. eexists. split; [exact Hs|]. cbn [path_cost m_map]. intros _.
    destruct (inv_walk _ _ _ _ I E Hd) as (ds & Hw & Hc & _).
    apply (walk_tiles0 m) in Hw.
    split; [exists ds; auto|]. split.
    + split; [assumption|].
      pose proof (search_g_bound (m_size m) S (reset_all (m_map m)) st E I) as Hb.
      unfold reset_all in Hb. now rewrite length_map in Hb.
    + destruct Hmf as (_ & Hall). now destruct (Hall E) as (_ & _ & -> & _).
Qed.

Lemma loaded_tile_unmarked file m i :
  load file = inr m -> state (tile_at (m_map m) i) = state_reset.
Proof.
  intros Hload. destruct (Nat.lt_ge_cases i (length (m_map m))) as [Hlt|Hge].
  - now destruct (proj2 (load_grid_ok _ _ Hload) i Hlt).
  - now rewrite tile_at_ge.
Qed.

Lemma tile_to_char_state_free t t' :
  type t' = type t -> is_marked t = false -> is_marked t' = false ->
  tile_to_char t' = tile_to_char t.
Proof.
  intros Ht Hm Hm'. rewrite (tile_to_char_plain _ Hm), (tile_to_char_plain _ Hm').
  now rewrite Ht.
Qed.

Lemma is_marked_plain t :
  dir (state t) = dir_none \/ valid_dir (dir (state t)) -> is_marked t = false.
Proof.
  intros H. unfold is_marked. apply plain_dir_unmarked.
  unfold valid_dir, dir_none in H. lia.
Qed.

(** X20. The path [solve] draws is a route. When a path is found, the
    tiles the walk over the parent indices marks are, the start left out,
    exactly the tiles of one walk from the start to the end that visits
    no tile twice; the tile the [k]-th move of this walk steps onto is
    left with the direction of that move and the path bits, and
    [tile_to_char] draws it as the arrow of that move when it is an empty
    tile; every tile off the route is unmarked and is drawn as in the
    input; and when the maze has only one route from the start to the
    end, this is the route that is drawn. *)
Theorem drawn_path_is_a_route hfun push pop file m S E fuel t :
  push_ok push -> pop_ok pop -> load file = inr m ->
  start_of m = Some S -> end_of m = Some E ->
  (search_fuel (length (m_map m)) <= fuel)%nat ->
  exists m' err,
    solve_with hfun push pop fuel t m = Returns (m', err)
    /\ (path_cost m' <> -1 ->
        exists ds,
          route (m_size m) (m_map m) S E ds
          /\ (forall k i d,
                visits (m_size m) (m_map m) S ds !! (Datatypes.S k) = Some i ->
                ds !! k = Some d ->
                D (m_map m') i = Z.lor d dir_path
                /\ is_marked (tile_at (m_map m') i) = true
                /\ (type (tile_at (m_map m) i) = t_empty ->
                    tile_to_char (tile_at (m_map m') i) = arrow d))
          /\ (forall i, ~ In i (tail (visits (m_size m) (m_map m) S ds)) ->
                is_marked (tile_at (m_map m') i) = false
                /\ tile_to_char (tile_at (m_map m') i)
                   = tile_to_char (tile_at (m_map m) i))
          /\ (forall r, unique_route (m_size m) (m_map m) S E r -> ds = r)).
Proof.
  intros Hpush Hpop Hload HS HE Hfuel.
  destruct (solve_with_final hfun push pop file m S E fuel t Hpush Hpop Hload HS HE Hfuel)
    as (HS1 & HE1 & Hne & st & I & Hpar & _ & _
        & [(_ & _ & _ & Hs) | (Hg & Hd & tiles' & Hmk & _ & Hs)]).
  - eexists. eexists. split; [exact Hs|]. cbn [path_cost]. congruence.
  - eexists. eexists. split; [exact Hs|]. cbn [path_cost m_map]. intros _.
    set (orig := s_map st) in *.
    assert (length orig = length (m_map m)) as Hlen.
    { unfold orig. rewrite (inv_len _ _ _ _ I). apply length_map. }
    assert (forall i, i <> S -> 0 < G orig i ->
              (P orig i < length orig)%nat
              /\ (P orig i = S \/ 0 < G orig (P orig i) < G orig i)) as Hchain.
    { intros i Hi Hgi. destruct (inv_chain _ _ _ _ I i Hi Hgi) as (Hp & Hc).
      split; [|exact Hc]. unfold orig. now rewrite (inv_len _ _ _ _ I). }
    assert (forall i, type (tile_at orig i) = type (tile_at (m_map m) i)) as Hty.
    { intros i. unfold orig. rewrite (inv_type _ _ _ _ I). unfold reset_all.
      now destruct (tile_at_reset (m_map m) i) as (-> & _). }
    assert (Z.to_nat (G orig E) <= fuel)%nat as Hfe.
    { pose proof (search_g_bound (m_size m) S (reset_all (m_map m)) st E I) as Hb.
      unfold reset_all in Hb. rewrite length_map in Hb. fold orig in Hb.
      pose proof (search_fuel_ge (length (m_map m))) as HF.
      assert (0 < length (m_map m))%nat as Hpos by lia. specialize (HF Hpos). lia. }
    destruct (path_tiles_walk (m_size m) (m_map m) S orig Hchain Hpar fuel E
                (not_eq_sym Hne) Hg Hfe) as (Hfol & Hvis & Hall & Hnd).
    destruct (mark_path_tiles S orig Hchain fuel orig E [] eq_refl
                (fun i (H : In i []) => match H with end) (fun i _ => eq_refl)
                (not_eq_sym Hne) Hg ltac:(lia) Hfe) as (tiles2 & Hmk2 & _ & Hin & Hout).
    rewrite Hmk in Hmk2. injection Hmk2 as <-. cbn [app] in Hin, Hout.
    set (ch := path_tiles S fuel orig E) in *.
    assert (route (m_size m) (m_map m) S E (List.map (D orig) (rev ch))) as Hroute.
    { split; [split; [|exact Hfol]|].
      - apply Forall_forall. intros d Hdin. apply list_elem_of_In in Hdin.
        apply in_map_iff in Hdin as (x & <- & Hx). apply in_rev in Hx.
        apply (inv_gd _ _ _ _ I). fold orig. now destruct (Hall x Hx).
      - rewrite Hvis. apply NoDup_cons. split.
        + intros HSin. apply list_elem_of_In, in_rev in HSin.
          now destruct (Hall S HSin).
        + apply NoDup_ListNoDup, NoDup_rev, NoDup_ListNoDup. exact Hnd. }
    exists (List.map (D orig) (rev ch)).
    split; [exact Hroute|]. split; [|split; [|intros r (_ & Hu); exact (Hu _ Hroute)]].
    + intros k i d Hk Hdk. rewrite Hvis in Hk. cbn [lookup list_lookup] in Hk.
      change (rev ch !! k = Some i) in Hk.
      change (List.map (D orig) (rev ch)) with (D orig <$> rev ch) in Hdk.
      rewrite list_lookup_fmap, Hk in Hdk. injection Hdk as <-.
      assert (In i ch) as Hich.
      { apply in_rev. apply list_elem_of_In. eapply list_elem_of_lookup_2; eauto. }
      destruct (Hall i Hich) as (HiS & Hgi & _).
      pose proof (inv_gd _ _ _ _ I i Hgi) as Hdi. fold orig in Hdi.
      unfold D at 1. rewrite (Hin i Hich).
      split; [reflexivity|]. split.
      * unfold is_marked, mark, set_state. cbn [state dir].
        apply lor_path_marked. unfold valid_dir, D in Hdi. lia.
      * intros Hemp. apply tile_to_char_mark; [exact Hdi | |];
          rewrite Hty, Hemp; discriminate.
    + intros i Hi. rewrite Hvis in Hi. cbn [tail] in Hi.
      assert (~ In i ch) as Hich by (intros H; apply Hi; now apply in_rev in H).
      rewrite (Hout i Hich).
      assert (is_marked (tile_at orig i) = false) as Hun.
      { apply is_marked_plain. apply (inv_dir _ _ _ _ I i). }
      split; [assumption|].
      apply tile_to_char_state_free; [apply Hty | | assumption].
      apply is_marked_plain. left. now rewrite (loaded_tile_unmarked file m i Hload).
Qed.

Lemma walk_not_wall sz tiles ds : forall c x,
  grid_ok sz tiles -> type (tile_at tiles c) <> t_wall ->
  follow sz tiles c ds = Some x -> type (tile_at tiles x) <> t_wall.
Proof.
  induction ds as [|d ds IH]; intros c x Hgrid Hc; simpl.
  - now intros [= <-].
  - destruct (step_to sz tiles c d) as [n|] eqn:Hs; [|discriminate].
    apply IH; [assumption|]. now destruct (step_to_spec _ _ _ _ _ Hgrid Hs) as (_ & ? & _).
Qed.

(** X21. [solve] leaves alone what the search cannot reach: a tile that
    no walk from the start leads to is, in the maze [solve] returns, the
    tile that was loaded, with the facing [none], no cost and no mark; in
    particular no wall is ever given a cost, a parent or a mark. *)
Theorem unreached_tiles_untouched hfun push pop file m S E fuel t :
  push_ok push -> pop_ok pop -> load file = inr m ->
  start_of m = Some S -> end_of m = Some E ->
  (search_fuel (length (m_map m)) <= fuel)%nat ->
  exists m' err,
    solve_with hfun push pop fuel t m = Returns (m', err)
    /\ (forall i, (forall ds, ~ walk (m_size m) (m_map m) S i ds) ->
          tile_at (m_map m') i = tile_at (m_map m) i)
    /\ (forall i, type (tile_at (m_map m) i) = t_wall ->
          tile_at (m_map m') i = tile_at (m_map m) i).
Proof.
  intros Hpush Hpop Hload HS HE Hfuel.
  destruct (solve_with_final hfun push pop file m S E fuel t Hpush Hpop Hload HS HE Hfuel)
    as (HS1 & HE1 & Hne & st & I & Hpar & Hfr & _ & Hcases).
  set (orig := s_map st) in *.
  assert (forall i, (forall ds, ~ walk (m_size m) (m_map m) S i ds) ->
            tile_at orig i = tile_at (m_map m) i /\ G orig i = 0) as Horig.
  { intros i Hno.
    assert (D orig i = dir_none) as Hdn.
    { destruct (inv_dir _ _ _ _ I i) as [H|H]; [exact H|].
      exfalso. destruct (inv_walk _ _ _ _ I i H) as (ds & Hw & _).
      apply (Hno ds). now apply (walk_tiles0 m). }
    pose proof (Hfr i Hdn) as Hst.
    split; [|unfold G; fold orig; now rewrite Hst].
    pose proof (inv_type _ _ _ _ I i) as Ht. pose proof (inv_pos _ _ _ _ I i) as Hp.
    unfold reset_all in Ht, Hp.
    destruct (tile_at_reset (m_map m) i) as (Ht' & Hp' & _).
    rewrite Ht' in Ht. rewrite Hp' in Hp. fold orig in Ht, Hp.
    pose proof (loaded_tile_unmarked file m i Hload) as Hs0.
    destruct (tile_at orig i) as [ty po sa], (tile_at (m_map m) i) as [ty' po' sa'].
    cbn [type pos state] in *. congruence. }
  assert (exists m' err,
            solve_with hfun push pop fuel t m = Returns (m', err)
            /\ forall i, (forall ds, ~ walk (m_size m) (m_map m) S i ds) ->
                 tile_at (m_map m') i = tile_at (m_map m) i) as (m' & err & Hs & Hun).
  { destruct Hcases as [(_ & _ & _ & Hs) | (Hg & Hd & tiles' & Hmk & _ & Hs)].
    - eexists. eexists. split; [exact Hs|]. cbn [m_map]. intros i Hno.
      now destruct (Horig i Hno).
    - eexists. eexists. split; [exact Hs|]. cbn [m_map]. intros i Hno.
      destruct (Horig i Hno) as (Ht & Hg0).
      assert (length orig = length (m_map m)) as Hlen.
      { unfold orig. rewrite (inv_len _ _ _ _ I). apply length_map. }
      assert (forall j, j <> S -> 0 < G orig j ->
                (P orig j < length orig)%nat
                /\ (P orig j = S \/ 0 < G orig (P orig j) < G orig j)) as Hchain.
      { intros j Hj Hgj. destruct (inv_chain _ _ _ _ I j Hj Hgj) as (Hp & Hc).
        split; [|exact Hc]. unfold orig. now rewrite (inv_len _ _ _ _ I). }
      assert (Z.to_nat (G orig E) <= fuel)%nat as Hfe.
      { pose proof (search_g_bound (m_size m) S (reset_all (m_map m)) st E I) as Hb.
        unfold reset_all in Hb. rewrite length_map in Hb. fold orig in Hb.
        pose proof (search_fuel_ge (length (m_map m))) as HF.
        assert (0 < length (m_map m))%nat as Hpos by lia. specialize (HF Hpos). lia. }
      destruct (path_tiles_walk (m_size m) (m_map m) S orig Hchain Hpar fuel E
                  (not_eq_sym Hne) Hg Hfe) as (_ & _ & Hall & _).
      destruct (mark_path_tiles S orig Hchain fuel orig E [] eq_refl
                  (fun i (H : In i []) => match H with end) (fun i _ => eq_refl)
                  (not_eq_sym Hne) Hg ltac:(lia) Hfe) as (tiles2 & Hmk2 & _ & _ & Hout).
      rewrite Hmk in Hmk2. injection Hmk2 as <-. cbn [app] in Hout.
      rewrite Hout; [exact Ht|].
      intros Hin. destruct (Hall i Hin). lia. }
  exists m', err. split; [exact Hs|]. split; [exact Hun|].
  intros i Hw. apply Hun. intros ds (_ & Hf).
  destruct (load_grid_ok _ _ Hload) as (Hgrid & _).
  apply (walk_not_wall _ _ _ _ _ Hgrid) in Hf; [contradiction|].
  unfold start_of in HS. rewrite locate_spec in HS. cbn [fst snd] in HS.
  apply last_index_some in HS as (_ & -> & _). discriminate.
Qed.

(** X22. The state of the start tile does not survive the search in
    general: a relaxation takes the cost 0 of the start for "not visited
    yet". Whenever the path that is found enters the end from a tile
    other than the start, and whenever no path is found although some
    move from the start leads to a tile that is not a wall, the start
    tile is left with a positive [g_cost]; it then faces the direction of
    a move that leads from its parent back onto it. This holds for every
    heuristic and every queue discipline. *)
Theorem start_overwritten_in_general hfun push pop file m S E fuel t :
  push_ok push -> pop_ok pop -> load file = inr m ->
  start_of m = Some S -> end_of m = Some E ->
  (search_fuel (length (m_map m)) <= fuel)%nat ->
  exists m' err,
    solve_with hfun push pop fuel t m = Returns (m', err)
    /\ (path_cost m' <> -1 -> P (m_map m') E <> S -> 0 < G (m_map m') S)
    /\ (path_cost m' = -1 ->
        (exists d n, valid_dir d /\ step_to (m_size m) (m_map m) S d = Some n) ->
        0 < G (m_map m') S)
    /\ (0 < G (m_map m') S ->
        exists d, valid_dir d
          /\ (D (m_map m') S = d \/ D (m_map m') S = Z.lor d dir_path)
          /\ step_to (m_size m) (m_map m) (P (m_map m') S) d = Some S).
Proof.
  intros Hpush Hpop Hload HS HE Hfuel.
  destruct (solve_with_final hfun push pop file m S E fuel t Hpush Hpop Hload HS HE Hfuel)
    as (HS1 & HE1 & Hne & st & I & Hpar & _ & Hsta
        & [(_ & _ & Hcl & Hs) | (Hg & Hd & tiles' & _ & Hmf & Hs)]).
  - eexists. eexists. split; [exact Hs|]. cbn [path_cost m_map].
    split; [congruence|]. split.
    + intros _ (d & n & Hd & Hstep).
      destruct (load_grid_ok _ _ Hload) as (Hgrid & _).
      pose proof (Hcl S d n (inv_start _ _ _ _ I) Hd Hstep) as Hgn.
      assert (type (tile_at (m_map m) S) <> t_wall) as HSw.
      { unfold start_of in HS. rewrite locate_spec in HS. cbn [fst snd] in HS.
        apply last_index_some in HS as (_ & -> & _). discriminate. }
      pose proof (step_back (m_size m) (m_map m) S d n Hgrid Hd HS1 HSw Hstep) as Hback.
      apply (Hcl n (opposite d) S (inv_gd _ _ _ _ I n Hgn)); [|exact Hback].
      destruct (valid_dir_cases _ Hd) as [-> | [-> | [-> | ->]]];
        unfold valid_dir, opposite, dir_n, dir_s, dir_e, dir_w; simpl; lia.
    + intros HgS. exists (D (s_map st) S).
      split; [exact (inv_gd _ _ _ _ I S HgS)|]. split; [now left | now apply Hpar].
  - eexists. eexists. split; [exact Hs|]. cbn [path_cost m_map].
    destruct Hmf as (_ & Hall).
    assert (forall i, G tiles' i = G (s_map st) i /\ P tiles' i = P (s_map st) i) as Hgp.
    { intros i. destruct (Hall i) as (_ & _ & ? & ? & _). auto. }
    split; [|split; [intros Hc; pose proof (inv_g _ _ _ _ I E); lia|]].
    + intros _. destruct (Hgp E) as (_ & ->), (Hgp S) as (-> & _).
      intros HpE. exact (Hsta E Hg (not_eq_sym Hne) HpE).
    + destruct (Hgp S) as (-> & ->). intros HgS. exists (D (s_map st) S).
      split; [exact (inv_gd _ _ _ _ I S HgS)|]. split; [|now apply Hpar].
      destruct (Hall S) as (_ & _ & _ & _ & [H | (H & _)]); auto.
Qed.

(** ** The text of the output file *)

Lemma list_ascii_of_string_app (a b : string) :
  list_ascii_of_string (String.append a b) = list_ascii_of_string a ++ list_ascii_of_string b.
Proof. induction a as [|c a IH]; simpl; [reflexivity | now rewrite IH]. Qed.

Lemma string_of_list_ascii_app (a b : list ascii) :
  string_of_list_ascii (a ++ b)
  = String.append (string_of_list_ascii a) (string_of_list_ascii b).
Proof. induction a as [|c a IH]; simpl; [reflexivity | now rewrite IH]. Qed.

Lemma digits_no_newline d :
  ~ In newline (list_ascii_of_string (NilEmpty.string_of_uint d)).
Proof.
  induction d as [|d IH|d IH|d IH|d IH|d IH|d IH|d IH|d IH|d IH|d IH]; simpl;
    [intros [] | ..];
    (intros [H|H]; [vm_compute in H; discriminate H | exact (IH H)]).
Qed.

Lemma string_of_uint_no_newline d :
  ~ In newline (list_ascii_of_string (NilZero.string_of_uint d)).
Proof.
  unfold NilZero.string_of_uint. destruct d; try apply digits_no_newline.
  simpl. intros [H|[]]. vm_compute in H. discriminate H.
Qed.

Lemma string_of_Z_no_newline z : ~ In newline (list_ascii_of_string (string_of_Z z)).
Proof.
  unfold string_of_Z, NilZero.string_of_int. destruct (Z.to_int z) as [d|d]; simpl.
  - apply string_of_uint_no_newline.
  - intros [H|H]; [vm_compute in H; discriminate H | exact (string_of_uint_no_newline d H)].
Qed.

Lemma no_newline_check (l : list ascii) :
  forallb (fun c => negb (Ascii.eqb c newline)) l = true -> ~ In newline l.
Proof.
  rewrite forallb_forall. intros H Hin. specialize (H newline Hin).
  now rewrite Ascii.eqb_refl in H.
Qed.

Lemma tile_to_char_no_newline t : tile_to_char t <> newline.
Proof.
  unfold tile_to_char.
  destruct (_ && _ && _).
  - destruct (_ =? dir_n); [discriminate|]. destruct (_ =? dir_s); [discriminate|].
    destruct (_ =? dir_e); [discriminate|]. destruct (_ =? dir_w); discriminate.
  - destruct (type t); discriminate.
Qed.

Lemma render_rows_shape m :
  length (render_rows m) = Z.to_nat (vy (m_size m))
  /\ forall r, In r (render_rows m) ->
       length r = Z.to_nat (vx (m_size m)) /\ ~ In newline r.
Proof.
  unfold render_rows. split; [now rewrite length_map, length_seq|].
  intros r Hr. apply in_map_iff in Hr as (y & <- & _). unfold render_row.
  split; [now rewrite length_map, length_seq|].
  intros Hin. apply in_map_iff in Hin as (x & Hx & _).
  exact (tile_to_char_no_newline _ Hx).
Qed.

(** X23. The text [maze_t::print] writes to the output file, read line
    by line as [util::read_file] reads a file, is the line of the
    dimensions, the line of the time and the search count, the line of
    the cost, and then one line for every row of the grid: [size.y]
    lines of [size.x] characters each (for a grid that is at least one
    tile wide). *)
Theorem output_file_lines m :
  0 < vx (m_size m) ->
  usable_lines (String.append (summary m) (render_grid m))
  = [ list_ascii_of_string
        ("Dimensions: " ++ string_of_Z (vx (m_size m)) ++ " x "
         ++ string_of_Z (vy (m_size m)))%string;
      list_ascii_of_string
        ("Solved in: " ++ string_of_Z (solve_time m) ++ " ms. Search count: "
         ++ string_of_Z (search_count m))%string;
      list_ascii_of_string
        ("Best path cost " ++ string_of_Z (path_cost m) ++ " points")%string ]
    ++ render_rows m
  /\ length (render_rows m) = Z.to_nat (vy (m_size m))
  /\ forall r, In r (render_rows m) -> length r = Z.to_nat (vx (m_size m)).
Proof.
  intros Hw. destruct (render_rows_shape m) as (Hlen & Hrows).
  split; [|split; [exact Hlen | intros r Hr; now destruct (Hrows r Hr)]].
  set (l1 := ("Dimensions: " ++ string_of_Z (vx (m_size m)) ++ " x "
              ++ string_of_Z (vy (m_size m)))%string).
  set (l2 := ("Solved in: " ++ string_of_Z (solve_time m) ++ " ms. Search count: "
              ++ string_of_Z (search_count m))%string).
  set (l3 := ("Best path cost " ++ string_of_Z (path_cost m) ++ " points")%string).
  assert (String.append (summary m) (render_grid m)
          = grid_text ([list_ascii_of_string l1; list_ascii_of_string l2;
                        list_ascii_of_string l3] ++ render_rows m)) as ->.
  { unfold render_grid, grid_text. rewrite map_app, concat_app, string_of_list_ascii_app.
    f_equal. cbn [List.map concat]. rewrite app_nil_r.
    rewrite !string_of_list_ascii_app, !string_of_list_ascii_of_string.
    unfold summary, dimensions_line, solved_line, cost_line, l1, l2, l3, endl.
    cbn [string_of_list_ascii]. now rewrite !append_assoc. }
  apply usable_lines_grid_text.
  intros r [<-|[<-|[<-|Hr]]].
  - split; [discriminate|]. unfold l1. rewrite !list_ascii_of_string_app, !in_app_iff.
    intros [H|[H|[H|H]]];
      [revert H; now apply no_newline_check | exact (string_of_Z_no_newline _ H)
       | revert H; now apply no_newline_check | exact (string_of_Z_no_newline _ H)].
  - split; [discriminate|]. unfold l2. rewrite !list_ascii_of_string_app, !in_app_iff.
    intros [H|[H|[H|H]]];
      [revert H; now apply no_newline_check | exact (string_of_Z_no_newline _ H)
       | revert H; now apply no_newline_check | exact (string_of_Z_no_newline _ H)].
  - split; [discriminate|]. unfold l3. rewrite !list_ascii_of_string_app, !in_app_iff.
    intros [H|[H|H]];
      [revert H; now apply no_newline_check | exact (string_of_Z_no_newline _ H)
       | revert H; now apply no_newline_check].
  - destruct (Hrows r Hr) as (Hl & Hn). split; [|exact Hn].
    intros ->. simpl in Hl. lia.
Qed.
(** ** The queue while the states stand still *)

Lemma priority_fn_trans tiles a b c :
  priority_fn tiles a b = false -> priority_fn tiles b c = false ->
  priority_fn tiles a c = false.
Proof. unfold priority_fn. apply state_le_trans. Qed.

Lemma priority_fn_asym tiles a b :
  priority_fn tiles a b = true -> priority_fn tiles b a = false.
Proof. unfold priority_fn. rewrite state_gt_spec, state_gt_false. lia. Qed.

Lemma priority_fn_irrefl tiles a : priority_fn tiles a a = false.
Proof. unfold priority_fn. apply state_gt_false. lia. Qed.

Lemma nth_insert_eq (l : list nat) i v :
  (i < length l)%nat -> nth i (<[i := v]> l) 0%nat = v.
Proof.
  intros Hi. rewrite nth_lookup, list_lookup_insert_eq by assumption. reflexivity.
Qed.

Lemma nth_insert_ne (l : list nat) i j v :
  i <> j -> nth j (<[i := v]> l) 0%nat = nth j l 0%nat.
Proof.
  intros Hij. rewrite !nth_lookup, list_lookup_insert_ne by assumption. reflexivity.
Qed.

Section HeapOrder.
Variable tiles : list tile_t.

Lemma hole_filled first hole value :
  (hole < length first)%nat ->
  hole_inv tiles first hole -> value_inv tiles first hole value ->
  (hole = 0%nat \/ priority_fn tiles (nth ((hole - 1) / 2) first 0%nat) value = false) ->
  is_heap tiles (<[hole := value]> first).
Proof.
  intros Hh (HA & HB) HC Hstop i Hi. rewrite length_insert in Hi.
  destruct (decide (i = hole)) as [->|Hne].
  - rewrite nth_insert_eq by assumption. rewrite nth_insert_ne by lia.
    destruct Hstop as [->|H]; [lia | exact H].
  - rewrite (nth_insert_ne _ hole i) by congruence.
    destruct (decide (((i - 1) / 2)%nat = hole)) as [Hp|Hp].
    + rewrite Hp, nth_insert_eq by assumption. now apply HC.
    + rewrite nth_insert_ne by congruence. now apply HA.
Qed.

Lemma hole_up first hole value :
  (hole < length first)%nat -> (0 < hole)%nat ->
  hole_inv tiles first hole -> value_inv tiles first hole value ->
  priority_fn tiles (nth ((hole - 1) / 2) first 0%nat) value = true ->
  hole_inv tiles (<[hole := nth ((hole - 1) / 2) first 0%nat]> first) ((hole - 1) / 2)
  /\ value_inv tiles (<[hole := nth ((hole - 1) / 2) first 0%nat]> first) ((hole - 1) / 2) value.
Proof.
  intros Hh Hpos (HA & HB) HC Hgt.
  set (p := ((hole - 1) / 2)%nat) in *. set (pv := nth p first 0%nat) in *.
  assert (p < hole)%nat as Hp by (unfold p; lia).
  assert (0 < p -> priority_fn tiles (nth ((p - 1) / 2) first 0%nat) pv = false)%nat as Hpp.
  { intros Hp0. apply (HA p); lia. }
  assert (forall i, (0 < i < length first)%nat -> i <> hole -> ((i - 1) / 2)%nat = p ->
            priority_fn tiles pv (nth i first 0%nat) = false) as Hsib.
  { intros i Hi Hih Hip. unfold pv. rewrite <- Hip. apply HA; lia. }
  apply priority_fn_asym in Hgt.
  split; [split|]; intros i Hi; rewrite length_insert in Hi.
  - intros Hip Hpi.
    assert (i <> hole) as Hih by (intros ->; now apply Hpi).
    rewrite (nth_insert_ne _ hole i) by congruence.
    destruct (decide (((i - 1) / 2)%nat = hole)) as [He|He].
    + rewrite He, nth_insert_eq by assumption. now apply HB.
    + rewrite nth_insert_ne by congruence. now apply HA.
  - intros Hip Hp0. rewrite (nth_insert_ne _ hole ((p - 1) / 2)) by lia.
    destruct (decide (i = hole)) as [->|Hih].
    + rewrite nth_insert_eq by assumption. now apply Hpp.
    + rewrite nth_insert_ne by congruence.
      apply (priority_fn_trans _ _ pv); [now apply Hpp | now apply Hsib].
  - intros Hip. destruct (decide (i = hole)) as [->|Hih].
    + now rewrite nth_insert_eq by assumption.
    + rewrite nth_insert_ne by congruence.
      apply (priority_fn_trans _ _ pv); [assumption | now apply Hsib].
Qed.

Lemma push_heap_is_heap fuel : forall first hole value,
  (hole < length first)%nat -> (hole <= fuel)%nat ->
  hole_inv tiles first hole -> value_inv tiles first hole value ->
  is_heap tiles (push_heap tiles fuel first hole 0 value).
Proof.
  induction fuel as [|fuel IH]; intros first hole value Hh Hf HI HV; cbn [push_heap].
  - apply hole_filled; try assumption. left. lia.
  - destruct (Nat.ltb_spec 0 hole) as [Hpos|Hz]; cbn [andb].
    + destruct (priority_fn tiles (nth ((hole - 1) / 2) first 0%nat) value) eqn:Hgt.
      * destruct (hole_up first hole value Hh Hpos HI HV Hgt) as (HI' & HV').
        apply IH; try assumption; [rewrite length_insert|]; lia.
      * apply hole_filled; try assumption. now right.
    + apply hole_filled; try assumption. left. lia.
Qed.

Lemma hole_down first hole c :
  (hole < c < length first)%nat -> ((c - 1) / 2)%nat = hole ->
  (forall i, (0 < i < length first)%nat -> ((i - 1) / 2)%nat = hole ->
     priority_fn tiles (nth c first 0%nat) (nth i first 0%nat) = false) ->
  hole_inv tiles first hole ->
  hole_inv tiles (<[hole := nth c first 0%nat]> first) c.
Proof.
  intros Hc Hpc Hleast (HA & HB).
  split; intros i Hi; rewrite length_insert in Hi.
  - intros Hic Hpi.
    destruct (decide (i = hole)) as [->|Hih].
    + rewrite nth_insert_eq by lia. rewrite nth_insert_ne by lia.
      apply HB; lia.
    + rewrite (nth_insert_ne _ hole i) by congruence.
      destruct (decide (((i - 1) / 2)%nat = hole)) as [He|He].
      * rewrite He, nth_insert_eq by lia. now apply Hleast.
      * rewrite nth_insert_ne by congruence. now apply HA.
  - intros Hpi _. rewrite Hpc, nth_insert_eq by lia.
    rewrite nth_insert_ne by lia. rewrite <- Hpi. apply HA; lia.
Qed.

Lemma adjust_down_inv len fuel : forall first hole first' hole',
  adjust_down tiles fuel first hole len = (first', hole') ->
  len = length first -> (hole < len)%nat -> (len <= fuel + hole)%nat ->
  hole_inv tiles first hole ->
  hole_inv tiles first' hole' /\ length first' = len /\ (hole' < len)%nat
  /\ ((len - 1) / 2 <= hole')%nat.
Proof.
  induction fuel as [|fuel IH]; intros first hole first' hole' Heq Hlen Hh Hf HI;
    cbn [adjust_down] in Heq.
  { injection Heq as <- <-. split; [assumption|]. split; [now symmetry|]. split; lia. }
  destruct (Nat.ltb_spec hole ((len - 1) / 2)) as [Hlt|Hge].
  2:{ injection Heq as <- <-. split; [assumption|]. split; [now symmetry|]. split; lia. }
  set (sc := (2 * (hole + 1))%nat) in *.
  set (c := if priority_fn tiles (nth sc first 0%nat) (nth (sc - 1) first 0%nat)
            then (sc - 1)%nat else sc) in *.
  assert (sc < len)%nat as Hsc by (unfold sc; lia).
  assert ((c = sc \/ c = sc - 1)%nat
          /\ priority_fn tiles (nth c first 0%nat) (nth sc first 0%nat) = false
          /\ priority_fn tiles (nth c first 0%nat) (nth (sc - 1) first 0%nat) = false)
    as (Hc & Hc1 & Hc2).
  { unfold c. destruct (priority_fn tiles (nth sc first 0%nat) (nth (sc - 1) first 0%nat)) eqn:Hgt.
    - split; [now right|]. split; [now apply priority_fn_asym | apply priority_fn_irrefl].
    - split; [now left|]. split; [apply priority_fn_irrefl | assumption]. }
  apply IH in Heq; [assumption | now rewrite length_insert | unfold sc in *; lia
                   | unfold sc in *; lia |].
  apply hole_down; [unfold sc in *; lia | unfold sc in *; lia | | assumption].
  intros i Hi Hpi.
  assert (i = sc \/ i = sc - 1)%nat as [->| ->] by (unfold sc; lia); assumption.
Qed.

Lemma adjust_heap_is_heap first value :
  (0 < length first)%nat -> hole_inv tiles first 0 ->
  is_heap tiles (adjust_heap tiles first (length first) value).
Proof.
  intros Hpos HI. unfold adjust_heap.
  set (len := length first) in *.
  destruct (adjust_down tiles len first 0 len) as [first1 h1] eqn:Hd.
  apply (adjust_down_inv len) in Hd as (HI1 & Hlen1 & Hh1 & Hstop);
    [| reflexivity | assumption | lia | assumption].
  destruct (Nat.even len && Nat.eqb h1 ((len - 2) / 2)) eqn:Hlast.
  - apply andb_true_iff in Hlast as (Hev & Hh). apply Nat.eqb_eq in Hh.
    apply Nat.even_spec in Hev as (k & Hk).
    apply push_heap_is_heap.
    + rewrite length_insert. lia.
    + lia.
    + apply hole_down; [lia | lia | | assumption].
      intros i Hi Hpi. assert (i = 2 * (h1 + 1) - 1)%nat as -> by lia.
      apply priority_fn_irrefl.
    + intros i Hi Hpi. rewrite length_insert in Hi. lia.
  - apply push_heap_is_heap; [lia | lia | assumption |].
    intros i Hi Hpi. exfalso.
    apply andb_false_iff in Hlast as [Hodd|Hne].
    + rewrite <- Nat.negb_odd in Hodd. apply negb_false_iff, Nat.odd_spec in Hodd as (k & Hk).
      lia.
    + apply Nat.eqb_neq in Hne. lia.
Qed.

Lemma is_heap_top first i :
  is_heap tiles first -> (i < length first)%nat ->
  priority_fn tiles (nth 0 first 0%nat) (nth i first 0%nat) = false.
Proof.
  intros Hheap. induction i as [i IH] using lt_wf_ind. intros Hi.
  destruct (decide (i = 0%nat)) as [->|Hne]; [apply priority_fn_irrefl|].
  apply (priority_fn_trans _ _ (nth ((i - 1) / 2) first 0%nat)).
  - apply IH; lia.
  - apply Hheap. lia.
Qed.
End HeapOrder.

Lemma nth_removelast (l : list nat) i :
  (i < length l - 1)%nat -> nth i (removelast l) 0%nat = nth i l 0%nat.
Proof.
  intros Hi. destruct l as [|a l]; [reflexivity|].
  assert (a :: l <> []) as Hne by discriminate.
  rewrite (app_removelast_last 0%nat Hne) at 2.
  rewrite app_nth1; [reflexivity|].
  pose proof (length_removelast_cons a l). simpl in Hi. lia.
Qed.

(** X25. While the states of the queued tiles stand still the queue is a
    priority queue: if the vector is a heap of the states of [tiles], it
    is one again after [pq.push], whatever is pushed; its top is an
    entry whose state is greater than no queued state (a least [f_cost],
    and among those a least [h_cost]); and the vector [pq.pop()] leaves
    is a heap again. The search does not keep the states of queued
    tiles still, so none of this is used for it. *)
Theorem pq_order_with_stable_keys tiles q n :
  is_heap tiles q ->
  is_heap tiles (pq_push tiles q n)
  /\ match q with
     | [] => True
     | x :: xs =>
         fst (pq_pop tiles x xs) = x
         /\ (forall y, In y (x :: xs) ->
              state_gt (state (tile_at tiles x)) (state (tile_at tiles y)) = false)
         /\ is_heap tiles (snd (pq_pop tiles x xs))
     end.
Proof.
  intros Hheap. split.
  - unfold pq_push. apply push_heap_is_heap.
    + rewrite length_app. simpl. lia.
    + lia.
    + split; intros i Hi; rewrite length_app in Hi; simpl in Hi.
      * intros Hil _. rewrite !app_nth1 by lia. apply Hheap. lia.
      * intros Hp _. lia.
    + intros i Hi Hp. rewrite length_app in Hi. simpl in Hi. lia.
  - destruct q as [|x xs]; [exact I|].
    assert (forall y, In y (x :: xs) -> priority_fn tiles x y = false) as Hleast.
    { intros y Hy. apply (In_nth _ _ 0%nat) in Hy as (i & Hi & <-).
      exact (is_heap_top tiles (x :: xs) i Hheap Hi). }
    split; [unfold pq_pop; now destruct xs|].
    split; [exact Hleast|].
    unfold pq_pop. destruct xs as [|y ys]; cbn [snd].
    + intros i Hi. cbn [length] in Hi. lia.
    + pose proof (length_removelast_cons x (y :: ys)) as Hlen.
      rewrite <- Hlen. apply adjust_heap_is_heap; [rewrite Hlen; cbn [length]; lia|].
      split; intros i Hi.
      * intros _ _. rewrite Hlen in Hi. cbn [length] in Hi.
        rewrite !nth_removelast by (cbn [length]; lia).
        apply Hheap. cbn [length]. lia.
      * intros _ Hz. lia.
Qed.

(** ** The theorems at small mazes *)

Lemma explore_move_cost_witness :
  step_to (m_size corridor_maze) (s_map corridor_start) 0 2 = Some 1%nat
  /\ (1 < length (s_map corridor_start))%nat
  /\ G (s_map (explore heuristic pq_push (m_size corridor_maze) 2 0 corridor_start 2)) 1 = 0 + 1
  /\ D (s_map (explore heuristic pq_push (m_size corridor_maze) 2 0 corridor_start 2)) 1 = 2.
Proof.
  split; [reflexivity|]. split; [vm_compute; lia|].
  pose proof (explore_move_cost heuristic pq_push (m_size corridor_maze) 2 0 corridor_start 2 1
                eq_refl ltac:(vm_compute; lia)) as H.
  vm_compute in H. destruct H as (H1 & H2 & _). split; [exact H1 | exact H2].
Defined.

Lemma solve_terminates_witness :
  push_ok pq_push /\ pop_ok pq_pop
  /\ load (Some "S.E") = inr corridor_maze
  /\ (search_fuel (length (m_map corridor_maze)) <= search_fuel 3)%nat
  /\ solve_with heuristic pq_push pq_pop (search_fuel 3) 0 corridor_maze <> Diverges.
Proof.
  split; [exact pq_push_ok|]. split; [exact pq_pop_ok|]. split; [reflexivity|]. split; [exact (Nat.le_refl _)|].
  apply (solve_terminates heuristic pq_push pq_pop (Some "S.E") corridor_maze 0 (search_fuel 3)
           pq_push_ok pq_pop_ok eq_refl (Nat.le_refl _)).
Defined.

Lemma render_round_trip_witness :
  push_ok pq_push /\ pop_ok pq_pop
  /\ load (Some "S.E") = inr corridor_maze
  /\ solve 0 corridor_maze = Returns (corridor_solved, "")
  /\ exists text,
       Some "S.E" = Some text
       /\ restore_rows (render_rows corridor_solved) (usable_lines text) = usable_lines text
       /\ grid_text (restore_rows (render_rows corridor_solved) (usable_lines text))
          = grid_text (usable_lines text).
Proof.
  split; [exact pq_push_ok|]. split; [exact pq_pop_ok|]. split; [reflexivity|].
  assert (solve 0 corridor_maze = Returns (corridor_solved, "")) as H by (vm_compute; reflexivity).
  split; [exact H|].
  exact (render_round_trip heuristic pq_push pq_pop (Some "S.E") corridor_maze _ 0 corridor_solved ""
           pq_push_ok pq_pop_ok eq_refl H).
Defined.

Lemma walled_maze_has_no_walk ds : ~ walk (m_size walled_maze) (m_map walled_maze) 0 2 ds.
Proof.
  intros (Hv & Hf). destruct ds as [|d ds]; [discriminate|].
  apply Forall_inv in Hv. simpl in Hf.
  destruct (valid_dir_cases d Hv) as [-> | [-> | [-> | ->]]]; vm_compute in Hf; discriminate.
Qed.

Lemma no_path_outcome_witness :
  load (Some "S#E") = inr walled_maze
  /\ start_of walled_maze = Some 0%nat /\ end_of walled_maze = Some 2%nat
  /\ (forall ds, ~ walk (m_size walled_maze) (m_map walled_maze) 0 2 ds)
  /\ exists text m',
       Some "S#E" = Some text
       /\ solve 7 walled_maze = Returns (m', no_path_line)
       /\ path_cost m' = -1
       /\ cost_line m' = ("Best path cost -1 points" ++ endl)%string
       /\ render_rows m' = usable_lines text
       /\ (forall r c, In r (render_rows m') -> In c r -> is_path_glyph c = false)
       /\ main (Some "S#E") writes_ok 7
          = Some (mk_process 0 (summary m') no_path_line
                    (Some (String.append (summary m') (render_grid m')))).
Proof.
  split; [reflexivity|]. split; [reflexivity|]. split; [reflexivity|].
  split; [exact walled_maze_has_no_walk|].
  exact (no_path_outcome (Some "S#E") walled_maze 0 2 7 eq_refl eq_refl eq_refl
           walled_maze_has_no_walk).
Defined.

(** ** C1: outside the mazes with one route *)

(** C1. The cost [solve] reports is not the minimum on a maze with
    several routes, and it depends on the heuristic. On the maze with
    the rows [.E], [..], [..], [S#] the program reports 3004: after the
    start, the tile north of it is expanded; the tiles north and east of
    that one are pushed with the same sum of cost and heuristic, 3004,
    the northern one with cost 1002 and heuristic 2002 (the heuristic
    charges it two turns, the cheapest route needs one more), the
    eastern one with cost 2002 and heuristic 1002, so the eastern one is
    handed out, and the end is reached from there and popped with cost
    3004. The walk three tiles north and one east costs 2004, and the
    same search with the heuristic that is 0 everywhere reports 2004. *)
Theorem several_routes_cost_depends_on_heuristic :
  exists m1 m2,
    load (Some fork_text) = inr fork_maze
    /\ start_of fork_maze = Some 6%nat /\ end_of fork_maze = Some 1%nat
    /\ solve 0 fork_maze = Returns (m1, "") /\ path_cost m1 = 3004
    /\ solve_with (fun _ _ => 0) pq_push pq_pop (search_fuel 8) 0 fork_maze = Returns (m2, "")
    /\ path_cost m2 = 2004
    /\ walk (m_size fork_maze) (m_map fork_maze) 6 1 [0; 0; 0; 2]
    /\ walk_cost dir_e [0; 0; 0; 2] = 2004.
Proof.
  eexists. eexists. split; [reflexivity|]. split; [reflexivity|]. split; [reflexivity|].
  split; [vm_compute; reflexivity|]. split; [reflexivity|].
  split; [vm_compute; reflexivity|]. split; [reflexivity|].
  split; [|reflexivity].
  split; [|reflexivity]. repeat constructor; unfold valid_dir; lia.
Qed.

(** ** The top of the queue in a run *)

(** The states of queued tiles change, and the top of the queue is then
    not always a least entry. On the maze with the rows [..E], [...],
    [...], [..#], [S#.] the fifth round of the search finds the tiles 3,
    7, 12 and 7 in the vector and hands out tile 3, with [f_cost] 3006
    and [h_cost] 2003, while tile 7 has [f_cost] 3006 and [h_cost] 1003:
    tile 7 was in the vector with [f_cost] 5006 when tile 3 was pushed
    and moved above it; the same round then relaxed tile 7 to [f_cost]
    3006, which changed its key where it stood, and pushed it again,
    below itself. The search goes on to report 2006. *)
Lemma top_is_not_least_in_a_run :
  exists tiles st m',
    load (Some detour_text) = inr detour_maze
    /\ locate 0 (m_map detour_maze) None None = (tiles, (Some 12%nat, Some 2%nat))
    /\ search_rounds heuristic pq_push pq_pop (m_size detour_maze) 2 4
         (search_init 12 tiles) = Some st
    /\ s_pq st = [3; 7; 12; 7]%nat
    /\ pq_pop (s_map st) 3 [7; 12; 7]%nat = (3%nat, [7; 7; 12]%nat)
    /\ state_gt (state (tile_at (s_map st) 3)) (state (tile_at (s_map st) 7)) = true
    /\ f_cost (state (tile_at (s_map st) 3)) = 3006
    /\ h_cost (state (tile_at (s_map st) 3)) = 2003
    /\ f_cost (state (tile_at (s_map st) 7)) = 3006
    /\ h_cost (state (tile_at (s_map st) 7)) = 1003
    /\ ~ is_heap (s_map st) (s_pq st)
    /\ solve 0 detour_maze = Returns (m', "") /\ path_cost m' = 2006.
Proof.
  eexists. eexists. eexists.
  split; [reflexivity|]. split; [vm_compute; reflexivity|].
  split; [vm_compute; reflexivity|]. split; [reflexivity|].
  split; [vm_compute; reflexivity|].
  split; [vm_compute; reflexivity|].
  split; [vm_compute; reflexivity|]. split; [vm_compute; reflexivity|].
  split; [vm_compute; reflexivity|]. split; [vm_compute; reflexivity|].
  split.
  - intros H. specialize (H 1%nat ltac:(simpl; lia)). vm_compute in H. discriminate H.
  - split; [vm_compute; reflexivity | reflexivity].
Qed.

(** How the vector breaks ties shows in the counter: on the maze with
    the rows [.S..] and [E...] the run relaxes tiles nine times before
    the end is handed out, so [search_count] is 10, and the cost is
    2002. *)
Lemma search_count_in_a_run :
  exists m m',
    load (Some (String.concat endl [".S.."; "E..."])) = inr m
    /\ solve 0 m = Returns (m', "")
    /\ search_count m' = 10 /\ path_cost m' = 2002.
Proof.
  eexists. eexists. split; [vm_compute; reflexivity|].
  split; [vm_compute; reflexivity|]. split; reflexivity.
Qed.

(** ** The route of a small maze *)

Ltac next_move Hv Hf Hnd :=
  match type of Hf with
  | follow _ _ _ ?ds = _ =>
      let d := fresh "d" in
      let Hd := fresh "Hd" in
      destruct ds as [|d ds];
      [ try discriminate Hf
      | apply Forall_cons in Hv as (Hd & Hv);
        destruct (valid_dir_cases d Hd) as [-> | [-> | [-> | ->]]];
        try discriminate Hf ]
  end.

Lemma bend_maze_route : unique_route (m_size bend_maze) (m_map bend_maze) 0 3 [2; 1].
Proof.
  split.
  - split; [split|].
    + repeat constructor; unfold valid_dir; lia.
    + reflexivity.
    + apply (bool_decide_unpack _). vm_compute. exact I.
  - intros r' ((Hv & Hf) & Hnd).
    next_move Hv Hf Hnd.
    change (follow (m_size bend_maze) (m_map bend_maze) 1 r' = Some 3%nat) in Hf.
    next_move Hv Hf Hnd.
    + change (follow (m_size bend_maze) (m_map bend_maze) 3 r' = Some 3%nat) in Hf.
      destruct r' as [|d r']; [reflexivity|]. exfalso.
      apply Forall_cons in Hv as (Hd3 & Hv).
      destruct (valid_dir_cases d Hd3) as [-> | [-> | [-> | ->]]]; try discriminate Hf.
      change (follow (m_size bend_maze) (m_map bend_maze) 1 r' = Some 3%nat) in Hf.
      assert (1 = 3)%nat; [|lia].
      apply (NoDup_lookup _ 1 3 1%nat Hnd); [reflexivity|].
      destruct r'; reflexivity.
    + exfalso. assert (0 = 2)%nat; [|lia].
      apply (NoDup_lookup _ 0 2 0%nat Hnd); [reflexivity|].
      destruct r'; reflexivity.
Qed.

Lemma unique_route_cost_witness :
  push_ok pq_push /\ pop_ok pq_pop
  /\ load (Some bend_text) = inr bend_maze
  /\ start_of bend_maze = Some 0%nat /\ end_of bend_maze = Some 3%nat
  /\ unique_route (m_size bend_maze) (m_map bend_maze) 0 3 [2; 1]
  /\ (search_fuel (length (m_map bend_maze)) <= search_fuel 4)%nat
  /\ exists m',
       solve_with heuristic pq_push pq_pop (search_fuel 4) 0 bend_maze = Returns (m', "")
       /\ path_cost m' = Z.of_nat (length [2; 1]) + 1000 * direction_changes dir_e [2; 1]
       /\ (forall w, walk (m_size bend_maze) (m_map bend_maze) 0 3 w ->
             path_cost m' <= walk_cost dir_e w)
       /\ (forall acts f,
             run_actions (m_size bend_maze) (m_map bend_maze) 0 dir_e acts = Some (3%nat, f) ->
             path_cost m' <= actions_cost acts).
Proof.
  split; [exact pq_push_ok|]. split; [exact pq_pop_ok|]. split; [reflexivity|]. split; [reflexivity|].
  split; [reflexivity|]. split; [exact bend_maze_route|]. split; [exact (Nat.le_refl _)|].
  exact (unique_route_cost heuristic pq_push pq_pop (Some bend_text) bend_maze 0 3 [2; 1]
           (search_fuel 4) 0 pq_push_ok pq_pop_ok eq_refl eq_refl eq_refl bend_maze_route
           (Nat.le_refl _)).
Defined.

(** ** The further properties at small inputs *)

Lemma idx_row_major_witness :
  0 <= 2 < vx (mk_ivec2 3 2) /\ 0 <= 1 < vy (mk_ivec2 3 2)
  /\ (idx (mk_ivec2 3 2) 2 1 < Z.to_nat (vx (mk_ivec2 3 2) * vy (mk_ivec2 3 2)))%nat
  /\ Z.of_nat (idx (mk_ivec2 3 2) 2 1) mod vx (mk_ivec2 3 2) = 2.
Proof.
  assert (0 <= 2 < vx (mk_ivec2 3 2)) as H1 by (simpl; lia).
  assert (0 <= 1 < vy (mk_ivec2 3 2)) as H2 by (simpl; lia).
  split; [exact H1|]. split; [exact H2|].
  destruct (idx_row_major (mk_ivec2 3 2) 2 1 H1 H2) as (A & B & _).
  split; [exact A | exact B].
Defined.

Lemma corridor_grid_ok : grid_ok (m_size corridor_maze) (m_map corridor_maze).
Proof. exact (proj1 (load_grid_ok (Some "S.E") corridor_maze eq_refl)). Qed.

Lemma step_is_adjacent_witness :
  grid_ok (m_size corridor_maze) (m_map corridor_maze)
  /\ valid_dir 2
  /\ step_to (m_size corridor_maze) (m_map corridor_maze) 0 2 = Some 1%nat
  /\ ivec2_sub (pos (tile_at (m_map corridor_maze) 1)) (pos (tile_at (m_map corridor_maze) 0))
     = moves 2.
Proof.
  assert (valid_dir 2) as Hd by (unfold valid_dir; lia).
  split; [exact corridor_grid_ok|]. split; [exact Hd|]. split; [reflexivity|].
  destruct (step_is_adjacent (m_size corridor_maze) (m_map corridor_maze) 0 2 1
              corridor_grid_ok Hd eq_refl) as (_ & _ & H & _).
  exact H.
Defined.

Lemma read_file_grid_text_witness :
  [["S"; "."; "E"]%char] <> []
  /\ (forall r, In r [["S"; "."; "E"]%char] -> r <> [] /\ ~ In newline r)
  /\ read_file (Some (grid_text [["S"; "."; "E"]%char])) = inr [["S"; "."; "E"]%char].
Proof.
  assert (forall r, In r [["S"; "."; "E"]%char] -> r <> [] /\ ~ In newline r) as H.
  { intros r [<-|[]]. split; [discriminate|].
    intros [H|[H|[H|[]]]]; discriminate. }
  split; [discriminate|]. split; [exact H|].
  exact (read_file_grid_text [["S"; "."; "E"]%char] ltac:(discriminate) H).
Defined.

Lemma load_tiles_witness :
  load (Some "S.E") = inr corridor_maze
  /\ m_size corridor_maze
     = mk_ivec2 (Z.of_nat (row_width (usable_lines "S.E")))
                (Z.of_nat (length (usable_lines "S.E")))
  /\ search_count corridor_maze = 0.
Proof.
  split; [reflexivity|].
  destruct (load_tiles "S.E" corridor_maze eq_refl) as (A & _ & _ & B & _).
  split; [exact A | exact B].
Defined.

Lemma loaded_maze_renders_as_input_witness :
  load (Some "S.E") = inr corridor_maze
  /\ render_rows corridor_maze = usable_lines "S.E".
Proof.
  split; [reflexivity|].
  exact (proj1 (loaded_maze_renders_as_input "S.E" corridor_maze eq_refl)).
Defined.

Lemma load_of_rendered_grid_witness :
  load (Some "S.E") = inr corridor_maze
  /\ load (Some (render_grid corridor_maze)) = inr corridor_maze.
Proof.
  split; [reflexivity|].
  exact (load_of_rendered_grid "S.E" corridor_maze eq_refl).
Defined.

Lemma main_write_failure_witness :
  load (Some "S.E") = inr corridor_maze
  /\ start_of corridor_maze = Some 0%nat /\ end_of corridor_maze = Some 2%nat
  /\ write_lost <> writes_ok
  /\ exists m' err,
       solve 0 corridor_maze = Returns (m', err)
       /\ main (Some "S.E") write_lost 0 = Some (mk_process 0 (summary m') err None).
Proof.
  split; [reflexivity|]. split; [reflexivity|]. split; [reflexivity|].
  split; [discriminate|].
  exact (main_write_failure (Some "S.E") corridor_maze 0 2 write_lost 0
           eq_refl eq_refl eq_refl ltac:(discriminate)).
Defined.

Lemma corridor_solve :
  solve_with heuristic pq_push pq_pop (search_fuel 3) 0 corridor_maze = Returns (corridor_solved, "").
Proof. vm_compute. reflexivity. Qed.

Lemma solve_keeps_grid_witness :
  solve_with heuristic pq_push pq_pop (search_fuel 3) 0 corridor_maze = Returns (corridor_solved, "")
  /\ m_size corridor_solved = m_size corridor_maze
  /\ length (m_map corridor_solved) = length (m_map corridor_maze).
Proof.
  split; [exact corridor_solve|].
  destruct (solve_keeps_grid heuristic pq_push pq_pop (search_fuel 3) 0 corridor_maze
              corridor_solved "" corridor_solve) as (A & _ & B & _).
  split; [exact A | exact B].
Defined.

Lemma solve_again_witness :
  solve_with heuristic pq_push pq_pop (search_fuel 3) 0 corridor_maze = Returns (corridor_solved, "")
  /\ solve_with heuristic pq_push pq_pop (search_fuel 3) 5 corridor_solved
     = Returns (with_time 5 corridor_solved, "").
Proof.
  split; [exact corridor_solve|].
  exact (proj2 (solve_again heuristic pq_push pq_pop (search_fuel 3) 0 5 corridor_maze
                  corridor_solved "" corridor_solve)).
Defined.

Lemma path_found_iff_walk_witness :
  push_ok pq_push /\ pop_ok pq_pop
  /\ load (Some "S.E") = inr corridor_maze
  /\ start_of corridor_maze = Some 0%nat /\ end_of corridor_maze = Some 2%nat
  /\ (search_fuel (length (m_map corridor_maze)) <= search_fuel 3)%nat
  /\ exists m' err,
       solve_with heuristic pq_push pq_pop (search_fuel 3) 0 corridor_maze = Returns (m', err)
       /\ (path_cost m' = -1
           <-> forall ds, ~ walk (m_size corridor_maze) (m_map corridor_maze) 0 2 ds)
       /\ (path_cost m' <> -1
           <-> exists ds, walk (m_size corridor_maze) (m_map corridor_maze) 0 2 ds)
       /\ (path_cost m' = -1 -> err = no_path_line)
       /\ (path_cost m' <> -1 -> err = "").
Proof.
  split; [exact pq_push_ok|]. split; [exact pq_pop_ok|]. split; [reflexivity|]. split; [reflexivity|].
  split; [reflexivity|]. split; [exact (Nat.le_refl _)|].
  exact (path_found_iff_walk heuristic pq_push pq_pop (Some "S.E") corridor_maze 0 2 (search_fuel 3) 0
           pq_push_ok pq_pop_ok eq_refl eq_refl eq_refl (Nat.le_refl _)).
Defined.

Lemma path_cost_of_a_walk_witness :
  push_ok pq_push /\ pop_ok pq_pop
  /\ load (Some "S.E") = inr corridor_maze
  /\ start_of corridor_maze = Some 0%nat /\ end_of corridor_maze = Some 2%nat
  /\ (search_fuel (length (m_map corridor_maze)) <= search_fuel 3)%nat
  /\ exists m' err,
       solve_with heuristic pq_push pq_pop (search_fuel 3) 0 corridor_maze = Returns (m', err)
       /\ (path_cost m' <> -1 ->
           (exists ds, walk (m_size corridor_maze) (m_map corridor_maze) 0 2 ds
                       /\ walk_cost dir_e ds = path_cost m')
           /\ 0 < path_cost m' <= 1001 * Z.of_nat (length (m_map corridor_maze))
           /\ path_cost m' = G (m_map m') 2).
Proof.
  split; [exact pq_push_ok|]. split; [exact pq_pop_ok|]. split; [reflexivity|]. split; [reflexivity|].
  split; [reflexivity|]. split; [exact (Nat.le_refl _)|].
  exact (path_cost_of_a_walk heuristic pq_push pq_pop (Some "S.E") corridor_maze 0 2 (search_fuel 3) 0
           pq_push_ok pq_pop_ok eq_refl eq_refl eq_refl (Nat.le_refl _)).
Defined.

Lemma drawn_path_is_a_route_witness :
  push_ok pq_push /\ pop_ok pq_pop
  /\ load (Some "S.E") = inr corridor_maze
  /\ start_of corridor_maze = Some 0%nat /\ end_of corridor_maze = Some 2%nat
  /\ (search_fuel (length (m_map corridor_maze)) <= search_fuel 3)%nat
  /\ exists m' err,
       solve_with heuristic pq_push pq_pop (search_fuel 3) 0 corridor_maze = Returns (m', err)
       /\ (path_cost m' <> -1 ->
           exists ds,
             route (m_size corridor_maze) (m_map corridor_maze) 0 2 ds
             /\ (forall k i d,
                   visits (m_size corridor_maze) (m_map corridor_maze) 0 ds
                     !! (Datatypes.S k) = Some i ->
                   ds !! k = Some d ->
                   D (m_map m') i = Z.lor d dir_path
                   /\ is_marked (tile_at (m_map m') i) = true
                   /\ (type (tile_at (m_map corridor_maze) i) = t_empty ->
                       tile_to_char (tile_at (m_map m') i) = arrow d))
             /\ (forall i,
                   ~ In i (tail (visits (m_size corridor_maze) (m_map corridor_maze) 0 ds)) ->
                   is_marked (tile_at (m_map m') i) = false
                   /\ tile_to_char (tile_at (m_map m') i)
                      = tile_to_char (tile_at (m_map corridor_maze) i))
             /\ (forall r, unique_route (m_size corridor_maze) (m_map corridor_maze) 0 2 r ->
                   ds = r)).
Proof.
  split; [exact pq_push_ok|]. split; [exact pq_pop_ok|]. split; [reflexivity|]. split; [reflexivity|].
  split; [reflexivity|]. split; [exact (Nat.le_refl _)|].
  exact (drawn_path_is_a_route heuristic pq_push pq_pop (Some "S.E") corridor_maze 0 2
           (search_fuel 3) 0 pq_push_ok pq_pop_ok eq_refl eq_refl eq_refl (Nat.le_refl _)).
Defined.

Lemma unreached_tiles_untouched_witness :
  push_ok pq_push /\ pop_ok pq_pop
  /\ load (Some "S#E") = inr walled_maze
  /\ start_of walled_maze = Some 0%nat /\ end_of walled_maze = Some 2%nat
  /\ (search_fuel (length (m_map walled_maze)) <= search_fuel 3)%nat
  /\ exists m' err,
       solve_with heuristic pq_push pq_pop (search_fuel 3) 0 walled_maze = Returns (m', err)
       /\ (forall i, (forall ds, ~ walk (m_size walled_maze) (m_map walled_maze) 0 i ds) ->
             tile_at (m_map m') i = tile_at (m_map walled_maze) i)
       /\ (forall i, type (tile_at (m_map walled_maze) i) = t_wall ->
             tile_at (m_map m') i = tile_at (m_map walled_maze) i).
Proof.
  split; [exact pq_push_ok|]. split; [exact pq_pop_ok|]. split; [reflexivity|]. split; [reflexivity|].
  split; [reflexivity|]. split; [exact (Nat.le_refl _)|].
  exact (unreached_tiles_untouched heuristic pq_push pq_pop (Some "S#E") walled_maze 0 2
           (search_fuel 3) 0 pq_push_ok pq_pop_ok eq_refl eq_refl eq_refl (Nat.le_refl _)).
Defined.

Lemma start_overwritten_in_general_witness :
  push_ok pq_push /\ pop_ok pq_pop
  /\ load (Some "S.E") = inr corridor_maze
  /\ start_of corridor_maze = Some 0%nat /\ end_of corridor_maze = Some 2%nat
  /\ (search_fuel (length (m_map corridor_maze)) <= search_fuel 3)%nat
  /\ exists m' err,
       solve_with heuristic pq_push pq_pop (search_fuel 3) 0 corridor_maze = Returns (m', err)
       /\ (path_cost m' <> -1 -> P (m_map m') 2 <> 0%nat -> 0 < G (m_map m') 0)
       /\ (path_cost m' = -1 ->
           (exists d n, valid_dir d
              /\ step_to (m_size corridor_maze) (m_map corridor_maze) 0 d = Some n) ->
           0 < G (m_map m') 0)
       /\ (0 < G (m_map m') 0 ->
           exists d, valid_dir d
             /\ (D (m_map m') 0 = d \/ D (m_map m') 0 = Z.lor d dir_path)
             /\ step_to (m_size corridor_maze) (m_map corridor_maze) (P (m_map m') 0) d
                = Some 0%nat).
Proof.
  split; [exact pq_push_ok|]. split; [exact pq_pop_ok|]. split; [reflexivity|]. split; [reflexivity|].
  split; [reflexivity|]. split; [exact (Nat.le_refl _)|].
  exact (start_overwritten_in_general heuristic pq_push pq_pop (Some "S.E") corridor_maze 0 2
           (search_fuel 3) 0 pq_push_ok pq_pop_ok eq_refl eq_refl eq_refl (Nat.le_refl _)).
Defined.

Lemma output_file_lines_witness :
  0 < vx (m_size corridor_solved)
  /\ length (render_rows corridor_solved) = Z.to_nat (vy (m_size corridor_solved)).
Proof.
  assert (0 < vx (m_size corridor_solved)) as H by (simpl; lia).
  split; [exact H|].
  exact (proj1 (proj2 (output_file_lines corridor_solved H))).
Defined.

Lemma corridor_heap : is_heap (m_map corridor_solved) [1; 0]%nat.
Proof.
  intros i Hi. cbn [length] in Hi. assert (i = 1%nat) as -> by lia.
  vm_compute. reflexivity.
Qed.

Lemma pq_order_with_stable_keys_witness :
  is_heap (m_map corridor_solved) [1; 0]%nat
  /\ is_heap (m_map corridor_solved) (pq_push (m_map corridor_solved) [1; 0]%nat 2)
  /\ fst (pq_pop (m_map corridor_solved) 1 [0%nat]) = 1%nat
  /\ is_heap (m_map corridor_solved) (snd (pq_pop (m_map corridor_solved) 1 [0%nat])).
Proof.
  split; [exact corridor_heap|].
  destruct (pq_order_with_stable_keys (m_map corridor_solved) [1; 0]%nat 2 corridor_heap)
    as (A & B & _ & C).
  split; [exact A|]. split; [exact B | exact C].
Defined.
